(** * Bees-algorithm rocket loading: a shallow embedding of [src/model.py]
      and [src/algorithm.py], with the properties of the specification.

    Conventions of the embedding.
    - Python exceptions are the constructors of [exn]; a computation that
      can raise returns an [outcome].  The only unbounded loop of the
      program (the capacity repair [while]) runs on an iteration budget;
      [OutOfFuel] is the outcome of a run that exceeds it.
    - The two global random generators ([numpy.random] in model.py and
      [random] in algorithm.py) are part of the [world]: each is an
      infinite tape of integers with a cursor.  A primitive that draws a
      value below [n] reads the next cell modulo [n], so every tape is a
      run of the program and every value of the range is drawn by some
      tape.
    - [numpy] [int32] cells are integers with the wrap-around of a store
      written out ([wrap32]).  The cells of a type allocation hold rocket
      types, which numpy draws in its default integer type; they are
      integers here.  A sum of an [int32] scalar and a Python integer is
      an [int32] too: [random.randint] adds one to its upper bound, which
      wraps when the bound is a cell that holds the largest [int32].
    - [float64] costs are an abstract type [F] with its operations; the
      theorems on orderings assume of [<] what holds of IEEE doubles other
      than NaN.
    - Solutions are values.  The program never reaches one solution object
      from two places: the mutation operators are applied to fresh deep
      copies only, and a slot of the population is overwritten by a fresh
      object or by the object it holds.  A method that mutates the solution
      it is given runs on a state that holds this solution, so that the
      solution is still there when the method raises.

    The file has four parts: the embedding of the two source files, the
    notions the properties are stated with and the concrete instances they
    are tried on, the facts on the embedding, and the properties. *)

From Stdlib Require Import ZArith List Bool Lia.
Import ListNotations.
Open Scope Z_scope.

Set Implicit Arguments.

(* ===================================================================== *)
(** * Runtime: exceptions, state, random sources, Python containers      *)
(* ===================================================================== *)

Module Runtime.

Inductive exn : Type := ValueError | IndexError | RuntimeError.

Inductive outcome (A : Type) : Type :=
| Return (a : A)
| Raise (e : exn)
| OutOfFuel.

Arguments Return {A} a.
Arguments Raise {A} e.
Arguments OutOfFuel {A}.

(** A computation over a state [S]: the state is threaded through, and is
    still there after an exception (Python objects mutated before a raise
    stay mutated). *)
Definition M (S A : Type) : Type := S -> outcome A * S.

Definition ret {S A} (a : A) : M S A := fun s => (Return a, s).

Definition bind {S A B} (c : M S A) (k : A -> M S B) : M S B :=
  fun s =>
    match c s with
    | (Return a, s') => k a s'
    | (Raise e, s') => (Raise e, s')
    | (OutOfFuel, s') => (OutOfFuel, s')
    end.

Definition raise {S A} (e : exn) : M S A := fun s => (Raise e, s).
Definition get {S} : M S S := fun s => (Return s, s).
Definition put {S} (s : S) : M S unit := fun _ => (Return tt, s).

(** A computation without effects other than exceptions, inside [M]. *)
Definition lift {S A} (o : outcome A) : M S A := fun s => (o, s).

Definition of_option {S A} (e : exn) (o : option A) : M S A :=
  match o with Some a => ret a | None => raise e end.

Declare Scope monad_scope.
Delimit Scope monad_scope with monad.
Notation "x <- c ;; k" := (bind c (fun x => k))
  (at level 61, c at next level, right associativity) : monad_scope.
Notation "c ;; k" := (bind c (fun _ => k))
  (at level 61, right associativity) : monad_scope.
Open Scope monad_scope.

(** [for x in xs: body x], threading an accumulator. *)
Fixpoint for_each {S A B} (xs : list A) (body : A -> B -> M S B) (acc : B)
  : M S B :=
  match xs with
  | [] => ret acc
  | x :: xs' => acc' <- body x acc ;; for_each xs' body acc'
  end.

(** [[f x for x in xs]]. *)
Fixpoint map_m {S A B} (f : A -> M S B) (xs : list A) : M S (list B) :=
  match xs with
  | [] => ret []
  | x :: xs' => y <- f x ;; ys <- map_m f xs' ;; ret (y :: ys)
  end.

(** ** Random sources *)

Record rng : Type := { tape : nat -> Z; cursor : nat }.

Definition next (g : rng) : Z * rng :=
  (tape g (cursor g), {| tape := tape g; cursor := S (cursor g) |}).

Record world : Type := { np_random : rng; py_random : rng }.

Definition np_draw : M world Z := fun w =>
  let (z, g) := next (np_random w) in
  (Return z, {| np_random := g; py_random := py_random w |}).

Definition py_draw : M world Z := fun w =>
  let (z, g) := next (py_random w) in
  (Return z, {| np_random := np_random w; py_random := g |}).

(** [random.randrange(n)] *)
Definition randrange (n : Z) : M world Z :=
  if n <=? 0 then raise ValueError
  else z <- py_draw ;; ret (z mod n).

(** [random.randint(a, b)], that is [randrange(a, b + 1)] *)
Definition randint (a b : Z) : M world Z :=
  if b + 1 - a <=? 0 then raise ValueError
  else z <- py_draw ;; ret (a + z mod (b + 1 - a)).

(** [random.choice(seq)] *)
Definition choice {A} (seq : list A) : M world A :=
  match seq with
  | [] => raise IndexError
  | _ :: _ =>
      z <- py_draw ;;
      of_option IndexError
        (nth_error seq (Z.to_nat (z mod Z.of_nat (length seq))))
  end.

(** ** Python and numpy containers *)

(** [range(a, b)] *)
Definition range (a b : Z) : list Z :=
  map (fun k => a + Z.of_nat k) (seq 0 (Z.to_nat (b - a))).

(** An index as Python and numpy read it: [-len <= i < len], negative
    ones counted from the end. *)
Definition norm_index (len : nat) (i : Z) : option nat :=
  if (0 <=? i) && (i <? Z.of_nat len) then Some (Z.to_nat i)
  else if (- Z.of_nat len <=? i) && (i <? 0)
       then Some (Z.to_nat (i + Z.of_nat len))
       else None.

(** [l[i]] *)
Definition getitem {A} (l : list A) (i : Z) : option A :=
  match norm_index (length l) i with
  | Some k => nth_error l k
  | None => None
  end.

(** Replace cell [k] of [l]; nothing happens out of range (callers check
    the range first, as the interpreter does). *)
Fixpoint upd {A} (k : nat) (x : A) (l : list A) : list A :=
  match l, k with
  | [], _ => []
  | _ :: l', O => x :: l'
  | y :: l', S k' => y :: upd k' x l'
  end.

(** [l[i] = x] *)
Definition setitem {A} (l : list A) (i : Z) (x : A) : option (list A) :=
  match norm_index (length l) i with
  | Some k => Some (upd k x l)
  | None => None
  end.

(** A two-dimensional numpy array: its second dimension and its rows.
    The second dimension is kept apart because an array with no row still
    has one. *)
Record matrix (A : Type) : Type := { ncols : nat; rows : list (list A) }.

Definition nrows {A} (m : matrix A) : nat := length (rows m).

(** [m[i, j]] for indices already normalised. *)
Definition cell {A} (m : matrix A) (i j : nat) : option A :=
  match nth_error (rows m) i with
  | Some r => nth_error r j
  | None => None
  end.

Definition set_cell {A} (m : matrix A) (i j : nat) (x : A) : matrix A :=
  {| ncols := ncols m;
     rows := match nth_error (rows m) i with
             | Some r => upd i (upd j x r) (rows m)
             | None => rows m
             end |}.

Definition sumZ (l : list Z) : Z := fold_right Z.add 0 l.

(** [m.sum(axis=1)] *)
Definition row_sums (m : matrix Z) : list Z := map sumZ (rows m).

(** [m[:, j]] for [j] in range. *)
Definition column (m : matrix Z) (j : nat) : list Z :=
  map (fun r => nth j r 0) (rows m).

(** [m.sum(axis=0)] *)
Definition col_sums (m : matrix Z) : list Z :=
  map (fun j => sumZ (column m j)) (seq 0 (ncols m)).

(** The value an [int32] cell holds after a store of [z]. *)
Definition wrap32 (z : Z) : Z := (z + 2 ^ 31) mod 2 ^ 32 - 2 ^ 31.

(** The types of numpy's integer scalars in the program: a cell of an
    allocation is an [int32], a sum along an axis is an [int64]. *)
Inductive np_int : Type := int32 | int64.

(** [random.randint(a, b)] for a numpy scalar [b] of type [t], that is
    [randrange(a, b + 1)]: the end [b + 1] of the range is computed in the
    type of [b].  An [int32] sum wraps (numpy keeps the type of the scalar
    when a Python integer is added to it); an [int64] sum is exact on the
    values the program reaches. *)
Definition randint_np (t : np_int) (a b : Z) : M world Z :=
  let stop := match t with
              | int32 => wrap32 (b + 1)
              | int64 => b + 1
              end in
  if stop - a <=? 0 then raise ValueError
  else z <- py_draw ;; ret (a + z mod (stop - a)).

(** [np.argmax] and [np.argmin]: the first index of an extremal value;
    [ValueError] on an empty sequence. *)
Fixpoint arg_from (better : Z -> Z -> bool) (best_i : nat) (best : Z)
  (i : nat) (l : list Z) : nat :=
  match l with
  | [] => best_i
  | x :: l' =>
      if better x best then arg_from better i x (S i) l'
      else arg_from better best_i best (S i) l'
  end.

Definition argmax (l : list Z) : option nat :=
  match l with
  | [] => None
  | x :: l' => Some (arg_from (fun y b => b <? y) 0%nat x 1%nat l')
  end.

Definition argmin (l : list Z) : option nat :=
  match l with
  | [] => None
  | x :: l' => Some (arg_from (fun y b => y <? b) 0%nat x 1%nat l')
  end.

(** [np.argwhere(cond).flatten()] on a vector: the indices where the test
    holds, in increasing order. *)
Fixpoint argwhere_from (p : Z -> bool) (i : nat) (l : list Z) : list nat :=
  match l with
  | [] => []
  | x :: l' =>
      if p x then i :: argwhere_from p (S i) l'
      else argwhere_from p (S i) l'
  end.

Definition argwhere (p : Z -> bool) (l : list Z) : list nat :=
  argwhere_from p 0%nat l.

End Runtime.

(* ===================================================================== *)
(** * model.py                                                           *)
(* ===================================================================== *)

Module Model.
Import Runtime.

(** [class Solution] *)
Record Solution : Type := {
  rocket_type_allocation : list Z;
  module_allocation : matrix Z
}.

(** [m[i, j] += d] (and [-=] with [- d]) on an [int32] array, for indices
    in range. *)
Definition add_cell (m : matrix Z) (i j : nat) (d : Z) : matrix Z :=
  match cell m i j with
  | Some x => set_cell m i j (wrap32 (x + d))
  | None => m
  end.

(** [np.zeros((r, c), dtype=np.int32)] *)
Definition np_zeros {S} (r c : Z) : M S (matrix Z) :=
  if (r <? 0) || (c <? 0) then raise ValueError
  else ret {| ncols := Z.to_nat c;
              rows := repeat (repeat 0 (Z.to_nat c)) (Z.to_nat r) |}.

(** [m[:, j] = v] for [j] in range and [v] as long as [m] has rows (the
    one use stores a draw over the rockets into an array with a row per
    rocket): each value is stored into an [int32] cell. *)
Definition set_column (m : matrix Z) (j : nat) (v : list Z) : matrix Z :=
  {| ncols := ncols m;
     rows := map (fun rx => upd j (wrap32 (snd rx)) (fst rx))
                 (combine (rows m) v) |}.

(** [np.random.randint(low=0, high=high, size=size)] *)
Definition np_randint (high size : Z) : M world (list Z) :=
  if (high <=? 0) || (size <? 0) then raise ValueError
  else map_m (fun _ : nat => z <- np_draw ;; ret (z mod high))
             (seq 0 (Z.to_nat size)).

(** [np.random.multinomial(n, np.ones(d) / d)]: [n] independent trials,
    each falling on one of [d] equally likely cells; the result counts the
    trials per cell.  numpy refuses a negative [n], a negative [d] (in
    [np.ones]) and an empty vector of probabilities. *)
Definition multinomial (n d : Z) : M world (list Z) :=
  if (d <=? 0) || (n <? 0) then raise ValueError
  else for_each (seq 0 (Z.to_nat n))
         (fun (_ : nat) counts =>
            z <- np_draw ;;
            let k := Z.to_nat (z mod d) in
            ret (upd k (nth k counts 0 + 1) counts))
         (repeat 0 (Z.to_nat d)).

(** [enumerate(l)] *)
Definition enumerate {A} (l : list A) : list (nat * A) :=
  combine (seq 0 (length l)) l.

(** One iteration of the body of the capacity-repair loop. *)
Definition repair_step (rocket_capacity : Z) (allocation : matrix Z)
  : outcome (matrix Z) :=
  let rocket_module_counts := row_sums allocation in
  match argmax rocket_module_counts, argmin rocket_module_counts with
  | Some max_rocket_index, Some min_rocket_index =>
      match nth_error (rows allocation) max_rocket_index with
      | Some max_row =>
          match argmax max_row with
          | Some module_index =>
              let num_modules_to_transfer :=
                Z.min (nth module_index max_row 0)
                      (nth max_rocket_index rocket_module_counts 0
                       - rocket_capacity) in
              let allocation1 :=
                add_cell allocation max_rocket_index module_index
                         (- num_modules_to_transfer) in
              Return (add_cell allocation1 min_rocket_index module_index
                               num_modules_to_transfer)
          | None => Raise ValueError
          end
      | None => Raise IndexError
      end
  | _, _ => Raise ValueError
  end.

(** [while np.any(allocation.sum(axis=1) > rocket_capacity): ...], on a
    budget of [fuel] iterations.  The second component of the result is
    the number of iterations performed, [done] being those performed
    before. *)
Fixpoint repair_loop (fuel : nat) (rocket_capacity : Z)
  (allocation : matrix Z) (done : nat) : outcome (matrix Z * nat) :=
  if existsb (fun s => rocket_capacity <? s) (row_sums allocation) then
    match fuel with
    | O => OutOfFuel
    | S fuel' =>
        match repair_step rocket_capacity allocation with
        | Return allocation' =>
            repair_loop fuel' rocket_capacity allocation' (S done)
        | Raise e => Raise e
        | OutOfFuel => OutOfFuel
        end
    end
  else Return (allocation, done).

Section Floats.

(** numpy's [float64]: the constant 0, addition, multiplication, the
    conversion of an integer, and the comparison [<]. *)
Variable F : Type.
Variable fzero : F.
Variables fadd fmul : F -> F -> F.
Variable of_int : Z -> F.
Variable flt : F -> F -> bool.

(** [class Settings] *)
Record Settings : Type := {
  num_rocket_types : Z;
  num_module_types : Z;
  num_rockets : Z;
  rocket_capacity : Z;
  additional_fuel_costs : matrix F;
  fuel_costs : list F;
  module_amounts : list Z
}.

(** [np.all(solution.module_allocation.sum(axis=1) <= rocket_capacity)] *)
Definition is_valid_capacity (solution : Solution) (settings : Settings)
  : bool :=
  forallb (fun s => s <=? rocket_capacity settings)
          (row_sums (module_allocation solution)).

(** [np.all(x == y)] on two vectors of one length; vectors of different
    lengths are not equal. *)
Fixpoint all_eq (x y : list Z) : bool :=
  match x, y with
  | [], [] => true
  | a :: x', b :: y' => (a =? b) && all_eq x' y'
  | _, _ => false
  end.

(** [np.all(solution.module_allocation.sum(axis=0) == module_amounts)] *)
Definition is_valid_module_total (solution : Solution) (settings : Settings)
  : bool :=
  all_eq (col_sums (module_allocation solution)) (module_amounts settings).

(** [a[idx]] for an index vector [idx]: the cells (or rows) of [a] the
    entries of [idx] name. *)
Fixpoint take_items {A} (a : list A) (idx : list Z) : option (list A) :=
  match idx with
  | [] => Some []
  | i :: idx' =>
      match getitem a i, take_items a idx' with
      | Some x, Some xs => Some (x :: xs)
      | _, _ => None
      end
  end.

(** [np.sum] of a vector of floats. *)
Definition fsum (l : list F) : F := fold_right fadd fzero l.

(** The entrywise product of an integer row and a float row. *)
Fixpoint row_product (r : list Z) (c : list F) : list F :=
  match r, c with
  | a :: r', x :: c' => fmul (of_int a) x :: row_product r' c'
  | _, _ => []
  end.

(** [calculate_cost].  The product of the two arrays is entrywise, for
    arrays of one shape; numpy's stretching of an axis of length one is
    left out, arrays of two shapes raise.  [np.sum] is a fold of the
    addition; no property below depends on the order numpy adds in. *)
Definition calculate_cost (solution : Solution) (settings : Settings)
  : outcome F :=
  let types := rocket_type_allocation solution in
  let allocation := module_allocation solution in
  match take_items (rows (additional_fuel_costs settings)) types with
  | None => Raise IndexError
  | Some picked =>
      if (length picked =? nrows allocation)%nat
         && (ncols (additional_fuel_costs settings) =? ncols allocation)%nat
      then
        let additional_fuel_cost :=
          fsum (concat (map (fun rc => row_product (fst rc) (snd rc))
                            (combine (rows allocation) picked))) in
        match take_items (fuel_costs settings) types with
        | None => Raise IndexError
        | Some fuels =>
            Return (fadd additional_fuel_cost (fsum fuels))
        end
      else Raise ValueError
  end.

(** [generate_random_rockets_type_allocation] *)
Definition generate_random_rockets_type_allocation (settings : Settings)
  : M world (list Z) :=
  np_randint (num_rocket_types settings) (num_rockets settings).

(** [generate_random_modules_allocation], the repair loop on a budget of
    [fuel] iterations. *)
Definition generate_random_modules_allocation (fuel : nat)
  (settings : Settings) : M world (matrix Z) :=
  if num_rockets settings * rocket_capacity settings
     <? sumZ (module_amounts settings)
  then raise ValueError
  else
    zeros <- np_zeros (num_rockets settings) (num_module_types settings) ;;
    allocation <-
      for_each (enumerate (module_amounts settings))
        (fun ma allocation =>
           let module_type := fst ma in
           let amount := snd ma in
           draw <- multinomial amount (num_rockets settings) ;;
           if (module_type <? ncols allocation)%nat
           then ret (set_column allocation module_type draw)
           else raise IndexError)
        zeros ;;
    repaired <- lift (repair_loop fuel (rocket_capacity settings)
                                  allocation 0) ;;
    ret (fst repaired).

(** [generate_random_solution].  Python evaluates the arguments of
    [Solution(...)] from left to right. *)
Definition generate_random_solution (fuel : nat) (settings : Settings)
  : M world Solution :=
  types <- generate_random_rockets_type_allocation settings ;;
  allocation <- generate_random_modules_allocation fuel settings ;;
  let solution := {| rocket_type_allocation := types;
                     module_allocation := allocation |} in
  if negb (is_valid_capacity solution settings
           && is_valid_module_total solution settings)
  then raise RuntimeError
  else ret solution.

End Floats.

End Model.

(* ===================================================================== *)
(** * algorithm.py                                                       *)
(* ===================================================================== *)

Module Algorithm.
Import Runtime Model.

(** A computation on the random sources, run by a method that also holds
    an object [X] it mutates in place. *)
Definition in_world {X A} (c : M world A) : M (world * X) A :=
  fun s =>
    let (o, w') := c (fst s) in (o, (w', snd s)).

(** A method mutating its argument in place, run on a value: the result is
    the state of the object when the method returns. *)
Definition in_place {X} (c : M (world * X) unit) (x : X) : M world X :=
  fun w =>
    match c (w, x) with
    | (Return _, (w', x')) => (Return x', w')
    | (Raise e, (w', _)) => (Raise e, w')
    | (OutOfFuel, (w', _)) => (OutOfFuel, w')
    end.

Definition this {X} : M (world * X) X := fun s => (Return (snd s), s).

Definition assign {X} (x : X) : M (world * X) unit :=
  fun s => (Return tt, (fst s, x)).

(** [copy.deepcopy]: solutions are values, the copy of a solution is the
    solution. *)
Definition deepcopy (solution : Solution) : Solution := solution.

(** [sorted(l, key=...)] and [list.sort(key=...)] for a comparison [lt] of
    the keys: the stable sort, by insertion from the right. *)
Section Sorting.
Variables (K A : Type) (lt : K -> K -> bool).

Fixpoint insert_keyed (x : K * A) (l : list (K * A)) : list (K * A) :=
  match l with
  | [] => [x]
  | y :: l' =>
      if lt (fst y) (fst x) then y :: insert_keyed x l'
      else x :: y :: l'
  end.

Definition sort_keyed (l : list (K * A)) : list (K * A) :=
  fold_right insert_keyed [] l.

(** The keys are computed first, one call per element, in order. *)
Definition sorted {S} (key : A -> outcome K) (l : list A) : M S (list A) :=
  keyed <- map_m (fun a => k <- lift (key a) ;; ret (k, a)) l ;;
  ret (map snd (sort_keyed keyed)).

End Sorting.

Section Floats.

Variable F : Type.
Variable fzero : F.
Variables fadd fmul : F -> F -> F.
Variable of_int : Z -> F.
Variable flt : F -> F -> bool.

Local Abbreviation Settings := (Settings F).
Local Abbreviation cost := (calculate_cost fzero fadd fmul of_int).

(** [class BeesSolver] *)
Record BeesSolver : Type := {
  settings : Settings;
  population_size : Z;
  modules_mutations : Z;
  rockets_type_mutations : Z;
  elite_sites : Z;
  normal_sites : Z;
  elite_site_size : Z;
  normal_site_size : Z;
  population : list Solution
}.

(** [BeesSolver.__init__] *)
Definition init (settings : Settings)
  (population_size modules_mutations rockets_type_mutations
   elite_sites normal_sites elite_site_size normal_site_size : Z)
  : M world BeesSolver :=
  ret {| settings := settings;
         population_size := population_size;
         modules_mutations := modules_mutations;
         rockets_type_mutations := rockets_type_mutations;
         elite_sites := elite_sites;
         normal_sites := normal_sites;
         elite_site_size := elite_site_size;
         normal_site_size := normal_site_size;
         population := [] |}.

(** [__mutate_rockets_type_allocation], on the solution it is given. *)
Definition mutate_rockets_type_allocation (self : BeesSolver)
  : M (world * Solution) unit :=
  rocket_index <- in_world (randrange (num_rockets (settings self))) ;;
  new_rocket_type <-
    in_world (randrange (num_rocket_types (settings self))) ;;
  solution <- this ;;
  match setitem (rocket_type_allocation solution) rocket_index
                new_rocket_type with
  | Some types =>
      assign {| rocket_type_allocation := types;
                module_allocation := module_allocation solution |}
  | None => raise IndexError
  end.

(** An in-place update of a cell of [solution.module_allocation]. *)
Definition add_to_allocation (i j : nat) (d : Z) : M (world * Solution) unit :=
  solution <- this ;;
  assign {| rocket_type_allocation := rocket_type_allocation solution;
            module_allocation :=
              add_cell (module_allocation solution) i j d |}.

(** [__mutate_modules_allocation], on the solution it is given.  The
    remaining capacities are [int64] (a Python integer less a sum along an
    axis), the cells [int32]; [min] returns its first argument, the cell,
    unless the second is below it, so [max_module_amount] is an [int32]
    exactly when the cell is not above the room. *)
Definition mutate_modules_allocation (self : BeesSolver)
  : M (world * Solution) unit :=
  solution <- this ;;
  let allocation := module_allocation solution in
  let rocket_capacities :=
    map (fun s => rocket_capacity (settings self) - s)
        (row_sums allocation) in
  module_type_index <-
    in_world (randrange (num_module_types (settings self))) ;;
  to_rocket_index <-
    in_world (choice (argwhere (fun c => 0 <? c) rocket_capacities)) ;;
  let j := Z.to_nat module_type_index in
  if (j <? ncols allocation)%nat then
    from_rocket_index <-
      in_world (choice (argwhere (fun a => 0 <? a) (column allocation j))) ;;
    let held := nth j (nth from_rocket_index (rows allocation) []) 0 in
    let room := nth to_rocket_index rocket_capacities 0 in
    let max_module_amount := Z.min held room in
    let scalar := if room <? held then int64 else int32 in
    module_amount <- in_world (randint_np scalar 1 max_module_amount) ;;
    add_to_allocation from_rocket_index j (- module_amount) ;;
    add_to_allocation to_rocket_index j module_amount
  else raise IndexError.

(** [__mutate_solution] *)
Definition mutate_solution (self : BeesSolver) : M (world * Solution) unit :=
  for_each (range 0 (modules_mutations self))
           (fun _ _ => mutate_modules_allocation self) tt ;;
  for_each (range 0 (rockets_type_mutations self))
           (fun _ _ => mutate_rockets_type_allocation self) tt.

(** [sorted(..., key=lambda sol: calculate_cost(sol, self.settings))] *)
Definition sorted_by_cost (self : BeesSolver) (l : list Solution)
  : M world (list Solution) :=
  sorted flt (fun sol => cost sol (settings self)) l.

(** [__find_best_neighbour] *)
Definition find_best_neighbour (self : BeesSolver) (solution : Solution)
  (neighbours_count : Z) : M world Solution :=
  let copies := map (fun _ => deepcopy solution) (range 0 neighbours_count) in
  neighbours <- map_m (in_place (mutate_solution self)) copies ;;
  ranked <- sorted_by_cost self (neighbours ++ [solution]) ;;
  of_option IndexError (getitem ranked 0).

(** [self.population[i] = self.__find_best_neighbour(self.population[i],
    site_size)] *)
Definition exploit_site (self : BeesSolver) (site_size : Z) (i : Z)
  (population : list Solution) : M world (list Solution) :=
  solution <- of_option IndexError (getitem population i) ;;
  best <- find_best_neighbour self solution site_size ;;
  of_option IndexError (setitem population i best).

(** [self.population[i] = generate_random_solution(self.settings)] *)
Definition scout_site (fuel : nat) (self : BeesSolver) (i : Z)
  (population : list Solution) : M world (list Solution) :=
  solution <- generate_random_solution fuel (settings self) ;;
  of_option IndexError (setitem population i solution).

Definition with_population (self : BeesSolver) (p : list Solution)
  : BeesSolver :=
  {| settings := settings self;
     population_size := population_size self;
     modules_mutations := modules_mutations self;
     rockets_type_mutations := rockets_type_mutations self;
     elite_sites := elite_sites self;
     normal_sites := normal_sites self;
     elite_site_size := elite_site_size self;
     normal_site_size := normal_site_size self;
     population := p |}.

(** [simulate_population]: the solver is passed in and the solver with its
    new population is the result. *)
Definition simulate_population (fuel : nat) (self : BeesSolver)
  : M world BeesSolver :=
  p0 <- sorted_by_cost self (population self) ;;
  p1 <- for_each (range 0 (elite_sites self))
          (exploit_site self (elite_site_size self)) p0 ;;
  p2 <- for_each (range (elite_sites self)
                        (elite_sites self + normal_sites self))
          (exploit_site self (normal_site_size self)) p1 ;;
  p3 <- for_each (range (elite_sites self + normal_sites self)
                        (Z.of_nat (length p2)))
          (scout_site fuel self) p2 ;;
  ret (with_population self p3).

(** [[generate_random_solution(self.settings)
      for _ in range(self.population_size)]] *)
Definition random_population (fuel : nat) (self : BeesSolver)
  : M world (list Solution) :=
  map_m (fun _ => generate_random_solution fuel (settings self))
        (range 0 (population_size self)).

(** [init_population] *)
Definition init_population (fuel : nat) (self : BeesSolver)
  : M world BeesSolver :=
  p <- random_population fuel self ;;
  ret (with_population self p).

(** [find_best_solution]: the result is the returned solution and the
    solver as the call leaves it. *)
Definition find_best_solution (fuel : nat) (self : BeesSolver)
  (iterations : Z) : M world (Solution * BeesSolver) :=
  p <- random_population fuel self ;;
  self' <- for_each (range 0 iterations)
             (fun _ s => simulate_population fuel s)
             (with_population self p) ;;
  best <- of_option IndexError (getitem (population self') 0) ;;
  ret (best, self').

(** [current_cost] *)
Definition current_cost (self : BeesSolver) : M world F :=
  first <- of_option IndexError (getitem (population self) 0) ;;
  lift (cost first (settings self)).

End Floats.

End Algorithm.

(* ===================================================================== *)
(** * The notions the properties are stated with                         *)
(* ===================================================================== *)

Unset Implicit Arguments.

Module Notions.
Import Runtime Model Algorithm.

(** ** Matrices *)

(** Every row has [ncols] cells. *)
Definition rect (m : matrix Z) : Prop :=
  Forall (fun r => length r = ncols m) (rows m).

(** No cell is negative. *)
Definition nonneg (m : matrix Z) : Prop :=
  Forall (Forall (fun x => 0 <= x)) (rows m).

(** [m[i, j] += d] without the wrap-around of the store. *)
Definition add_exact (m : matrix Z) (i j : nat) (d : Z) : matrix Z :=
  match cell m i j with
  | Some x => set_cell m i j (x + d)
  | None => m
  end.

(** [m] distributes the [amounts] over [R] rockets: one row per rocket,
    one cell per module type, no negative cell, and every column sums to
    the amount of its module type (invariant (b) of a solution). *)
Record distributes (amounts : list Z) (R : nat) (m : matrix Z) : Prop := {
  inv_rows : nrows m = R;
  inv_rect : rect m;
  inv_nonneg : nonneg m;
  inv_cols : col_sums m = amounts
}.

(** ** The measure of the repair loop *)

(** The number of non-zero cells of a row. *)
Definition nonzeros (r : list Z) : nat :=
  length (filter (fun x => negb (x =? 0)) r).

(** What a row can still cost the loop: an overloaded row is the source of
    at most one transfer per non-zero cell, a row filled exactly is never
    touched again, a row with room can become any of the two. *)
Definition row_potential (cap : Z) (n : nat) (r : list Z) : nat :=
  if cap <? sumZ r then nonzeros r
  else if sumZ r =? cap then 0%nat
  else n.

Definition potential (cap : Z) (m : matrix Z) : nat :=
  list_sum (map (row_potential cap (ncols m)) (rows m)).

(** ** The random sources *)

(** The world after one draw from numpy's generator. *)
Definition np_advance (w : world) : world :=
  {| np_random := snd (next (np_random w)); py_random := py_random w |}.

(** [w'] is [w] after [n] draws from numpy's generator, and none from
    Python's. *)
Definition np_drawn (n : nat) (w w' : world) : Prop :=
  py_random w' = py_random w
  /\ tape (np_random w') = tape (np_random w)
  /\ cursor (np_random w') = (cursor (np_random w) + n)%nat.

(** The world after one draw from Python's generator. *)
Definition py_advance (w : world) : world :=
  {| np_random := np_random w; py_random := snd (next (py_random w)) |}.

(** The value of the next draw of Python's generator. *)
Definition py_peek (w : world) : Z :=
  tape (py_random w) (cursor (py_random w)).

(** A world whose two generators start on the given tapes. *)
Definition fresh_world (np py : nat -> Z) : world :=
  {| np_random := {| tape := np; cursor := 0 |};
     py_random := {| tape := py; cursor := 0 |} |}.

(** ** Iteration budgets *)

(** A computation that never exhausts an iteration budget. *)
Definition fuel_free {S A} (c : M S A) : Prop :=
  forall s, fst (c s) <> OutOfFuel.

(** ** Sorted lists *)

Section Sorting.
Variables (K A : Type) (lt : K -> K -> bool).

(** No key of [l] is below [k]. *)
Definition lower_bound (k : K) (l : list (K * A)) : Prop :=
  Forall (fun y => lt (fst y) k = false) l.

(** The head of [l] has a least key. *)
Definition head_least (l : list (K * A)) : Prop :=
  match l with
  | [] => True
  | h :: _ => lower_bound (fst h) l
  end.

End Sorting.

(** ** The random generation of an allocation *)

(** What the allocation satisfies while the multinomial draws fill its
    columns, [pre] being the amounts already drawn. *)
Record draws_inv (R M : nat) (pre : list Z) (m : matrix Z) : Prop := {
  di_rows : nrows m = R;
  di_rect : rect m;
  di_cols : ncols m = M;
  di_nonneg : forall j, Forall (fun x => 0 <= x) (column m j);
  di_sums : forall j, (j < length pre)%nat -> sumZ (column m j) = nth j pre 0
}.

(** The body of the loop over [enumerate(settings.module_amounts)]. *)
Definition draw_body (R : Z) (ma : nat * Z) (allocation : matrix Z)
  : M world (matrix Z) :=
  draw <- multinomial (snd ma) R ;;
  if (fst ma <? ncols allocation)%nat
  then ret (set_column allocation (fst ma) draw)
  else raise IndexError.

(** ** Configurations and solutions *)

Section Floats.

Variable F : Type.
Variable fzero : F.
Variables fadd fmul : F -> F -> F.
Variable of_int : Z -> F.
Variable flt : F -> F -> bool.

(** A configuration of the data model, as the program can hold it:
    positive numbers of rockets and of rocket types, one amount per module
    type, and amounts that are not negative and fit the [int32] cells of
    an allocation. *)
Record well_formed (s : Settings F) : Prop := {
  wf_types : 0 < num_rocket_types s;
  wf_rockets : 0 < num_rockets s;
  wf_modules : Z.of_nat (length (module_amounts s)) = num_module_types s;
  wf_amounts : Forall (fun a => 0 <= a < 2 ^ 31) (module_amounts s)
}.

(** The instance has room for its modules: the test at the head of
    [generate_random_modules_allocation] does not fire. *)
Definition feasible (s : Settings F) : Prop :=
  sumZ (module_amounts s) <= num_rockets s * rocket_capacity s.

(** The budget of the repair loop that is always enough. *)
Definition enough_fuel (s : Settings F) : nat :=
  (Z.to_nat (num_rockets s) * Z.to_nat (num_module_types s))%nat.

(** A solution of the data model: one type below [num_rocket_types] per
    rocket, an allocation of non-negative cells with one row per rocket,
    and the two structural invariants. *)
Record feasible_solution (s : Settings F) (sol : Solution) : Prop := {
  fs_types_length :
    length (rocket_type_allocation sol) = Z.to_nat (num_rockets s);
  fs_types_range :
    Forall (fun t => 0 <= t < num_rocket_types s)
           (rocket_type_allocation sol);
  fs_demand :
    distributes (module_amounts s) (Z.to_nat (num_rockets s))
                (module_allocation sol);
  fs_capacity :
    Forall (fun x => x <= rocket_capacity s)
           (row_sums (module_allocation sol))
}.

(** The remaining capacities, as [__mutate_modules_allocation] computes
    them. *)
Definition remaining (s : Settings F) (sol : Solution) : list Z :=
  map (fun x => rocket_capacity s - x) (row_sums (module_allocation sol)).

(** The module type the next draw of Python's generator selects. *)
Definition chosen_module_type (s : Settings F) (w : world) : nat :=
  Z.to_nat (py_peek w mod num_module_types s).

(** The first slot of [p] holds a solution that costs at most [m]. *)
Definition head_within (self : BeesSolver F) (m : F) (p : list Solution)
  : Prop :=
  exists h c, nth_error p 0 = Some h
              /\ calculate_cost fzero fadd fmul of_int h (settings self)
                 = Return c
              /\ flt m c = false.

End Floats.

Arguments well_formed {F} s.
Arguments feasible {F} s.
Arguments enough_fuel {F} s.
Arguments feasible_solution {F} s sol.
Arguments remaining {F} s sol.
Arguments chosen_module_type {F} s w.
Arguments head_within {F} fzero fadd fmul of_int flt self m p.

End Notions.

(* ===================================================================== *)
(** * Concrete instances                                                 *)
(* ===================================================================== *)

Module Scenario.
Import Runtime Model Algorithm Notions.

(** The first scenario of the specification: two rocket types of fuel
    costs 1 and 100, no additional cost, two rockets of capacity 5 and
    four modules of a single type.  Costs are integers here, with exact
    arithmetic and the order of the integers. *)
Definition two_rockets : Settings Z :=
  {| num_rocket_types := 2;
     num_module_types := 1;
     num_rockets := 2;
     rocket_capacity := 5;
     additional_fuel_costs := {| ncols := 1; rows := [[0]; [0]] |};
     fuel_costs := [1; 100];
     module_amounts := [4] |}.


(** Three rockets of capacity 2 for three modules of each of two types:
    the draws can overload a rocket. *)
Definition three_rockets : Settings Z :=
  {| num_rocket_types := 2;
     num_module_types := 2;
     num_rockets := 3;
     rocket_capacity := 2;
     additional_fuel_costs := {| ncols := 2; rows := [[0; 1]; [0; 1]] |};
     fuel_costs := [1; 100];
     module_amounts := [3; 3] |}.

(** All six modules drawn into the first of the three rockets. *)
Definition all_in_first : matrix Z :=
  {| ncols := 2; rows := [[3; 3]; [0; 0]; [0; 0]] |}.

(** Two solutions of [two_rockets]: both rockets of the cheap type (cost
    2), both of the expensive type (cost 200). *)
Definition cheap : Solution :=
  {| rocket_type_allocation := [0; 0];
     module_allocation := {| ncols := 1; rows := [[2]; [2]] |} |}.

Definition expensive : Solution :=
  {| rocket_type_allocation := [1; 1];
     module_allocation := {| ncols := 1; rows := [[0]; [4]] |} |}.

(** The cheap types on an allocation that loads the first rocket only. *)
Definition first_loaded : Solution :=
  {| rocket_type_allocation := [0; 0];
     module_allocation := {| ncols := 1; rows := [[4]; [0]] |} |}.

(** A solution of [two_rockets] with a full rocket and an empty one. *)
Definition lopsided : Solution :=
  {| rocket_type_allocation := [0; 1];
     module_allocation := {| ncols := 1; rows := [[4]; [0]] |} |}.

(** A solution of a variant of [two_rockets] of capacity 2: no rocket has
    room left. *)
Definition tight : Settings Z :=
  {| num_rocket_types := 2;
     num_module_types := 1;
     num_rockets := 2;
     rocket_capacity := 2;
     additional_fuel_costs := {| ncols := 1; rows := [[0]; [0]] |};
     fuel_costs := [1; 100];
     module_amounts := [4] |}.

(** One rocket of capacity [2 ^ 31] for [2 ^ 31] modules of one type: the
    configuration is feasible, the amount is beyond the [int32] cells. *)
Definition oversized : Settings Z :=
  {| num_rocket_types := 1;
     num_module_types := 1;
     num_rockets := 1;
     rocket_capacity := 2 ^ 31;
     additional_fuel_costs := {| ncols := 1; rows := [[0]] |};
     fuel_costs := [1];
     module_amounts := [2 ^ 31] |}.

(** Two rockets of capacity [2 ^ 31] for [2 ^ 31 - 1] modules, the largest
    [int32], and the solution that loads them all into the first
    rocket. *)
Definition brimming : Settings Z :=
  {| num_rocket_types := 2;
     num_module_types := 1;
     num_rockets := 2;
     rocket_capacity := 2 ^ 31;
     additional_fuel_costs := {| ncols := 1; rows := [[0]; [0]] |};
     fuel_costs := [1; 100];
     module_amounts := [2 ^ 31 - 1] |}.

(** Two rockets of capacity [2 ^ 31] for [2 ^ 31] modules, and a solution
    that loads all but one of them into the second rocket. *)
Definition oversized_pair : Settings Z :=
  {| num_rocket_types := 2;
     num_module_types := 1;
     num_rockets := 2;
     rocket_capacity := 2 ^ 31;
     additional_fuel_costs := {| ncols := 1; rows := [[0]; [0]] |};
     fuel_costs := [1; 100];
     module_amounts := [2 ^ 31] |}.

Definition almost_full : Solution :=
  {| rocket_type_allocation := [0; 0];
     module_allocation := {| ncols := 1; rows := [[1]; [2 ^ 31 - 1]] |} |}.

Definition brimful : Solution :=
  {| rocket_type_allocation := [0; 0];
     module_allocation := {| ncols := 1; rows := [[2 ^ 31 - 1]; [0]] |} |}.

(** Costs, the neighbourhood search, a generation and the full run on
    integer costs. *)
Definition cost_of : Solution -> Settings Z -> outcome Z :=
  calculate_cost 0 Z.add Z.mul (fun z => z).

Definition best_neighbour_of
  : BeesSolver Z -> Solution -> Z -> M world Solution :=
  find_best_neighbour 0 Z.add Z.mul (fun z => z) Z.ltb.

Definition generation_of : nat -> BeesSolver Z -> M world (BeesSolver Z) :=
  simulate_population 0 Z.add Z.mul (fun z => z) Z.ltb.

Definition run_of
  : nat -> BeesSolver Z -> Z -> M world (Solution * BeesSolver Z) :=
  find_best_solution 0 Z.add Z.mul (fun z => z) Z.ltb.

(** The result of a run that returns, and a default otherwise. *)
Definition returned {A S} (d : A) (r : outcome A * S) : A :=
  match fst r with
  | Return a => a
  | _ => d
  end.

(** A solver on [s] with the given population and counts. *)
Definition solver_on (s : Settings Z) (population : list Solution)
  (population_size modules_mutations rockets_type_mutations
   elite_sites normal_sites elite_site_size normal_site_size : Z)
  : BeesSolver Z :=
  {| settings := s;
     population_size := population_size;
     modules_mutations := modules_mutations;
     rockets_type_mutations := rockets_type_mutations;
     elite_sites := elite_sites;
     normal_sites := normal_sites;
     elite_site_size := elite_site_size;
     normal_site_size := normal_site_size;
     population := population |}.

(** A solver of [two_rockets] that mutates: one module transfer and one
    type change per neighbour, one elite site of one neighbour. *)
Definition mutating_solver : BeesSolver Z :=
  solver_on two_rockets [] 2 1 1 1 0 1 0.

(** The same solver on a population of two. *)
Definition ranking_solver : BeesSolver Z :=
  solver_on two_rockets [expensive; cheap] 2 1 1 1 0 1 0.

(** The same solver on [brimming]. *)
Definition brimming_solver : BeesSolver Z :=
  solver_on brimming [] 2 1 1 1 0 1 0.

(** The same solver on [oversized_pair]. *)
Definition oversized_solver : BeesSolver Z :=
  solver_on oversized_pair [] 2 1 1 1 0 1 0.

(** The same solver on [tight]. *)
Definition tight_solver : BeesSolver Z :=
  solver_on tight [] 2 1 1 1 0 1 0.

(** A solver of [two_rockets] without mutations: a population of two, one
    elite site of one neighbour, one scout. *)
Definition plain_solver : BeesSolver Z :=
  solver_on two_rockets [] 2 0 0 1 0 1 0.


(** Tapes of the random sources. *)
Definition zeros (_ : nat) : Z := 0.
Definition ones_then_zeros (k : nat) (n : nat) : Z :=
  if (n <? k)%nat then 1 else 0.
Definition counting (n : nat) : Z := Z.of_nat n.
Definition one_at (k : nat) (n : nat) : Z :=
  if (n =? k)%nat then 1 else 0.

End Scenario.

(* ===================================================================== *)
(** * Further notions: cost tables, solvers and populations              *)
(* ===================================================================== *)

Module Terms.
Import Runtime Model Algorithm Notions.

(** [w'] is [w] after [n] draws from Python's generator, and none from
    numpy's. *)
Definition py_drawn (n : nat) (w w' : world) : Prop :=
  np_random w' = np_random w
  /\ tape (py_random w') = tape (py_random w)
  /\ cursor (py_random w') = (cursor (py_random w) + n)%nat.

Section Floats.

Variable F : Type.
Variable fzero : F.
Variables fadd fmul : F -> F -> F.
Variable of_int : Z -> F.
Variable flt : F -> F -> bool.

(** The cost tables have the shape the configuration announces: a row of
    additional costs and a fuel cost per rocket type, an additional cost
    per module type. *)
Record tables_fit (s : Settings F) : Prop := {
  tf_rows :
    length (rows (additional_fuel_costs s)) = Z.to_nat (num_rocket_types s);
  tf_cols : ncols (additional_fuel_costs s) = Z.to_nat (num_module_types s);
  tf_fuel : length (fuel_costs s) = Z.to_nat (num_rocket_types s)
}.

(** [x] is not below zero. *)
Definition not_negative (x : F) : Prop := flt x fzero = false.

(** No cost of the tables is below zero. *)
Record tables_not_negative (s : Settings F) : Prop := {
  tn_additional :
    Forall (Forall not_negative) (rows (additional_fuel_costs s));
  tn_fuel : Forall not_negative (fuel_costs s)
}.

(** Two solvers differ in their populations at most. *)
Definition same_parameters (a b : BeesSolver F) : Prop :=
  settings b = settings a
  /\ population_size b = population_size a
  /\ modules_mutations b = modules_mutations a
  /\ rockets_type_mutations b = rockets_type_mutations a
  /\ elite_sites b = elite_sites a
  /\ normal_sites b = normal_sites a
  /\ elite_site_size b = elite_site_size a
  /\ normal_site_size b = normal_site_size a.

(** What the population satisfies along a generation. *)
Definition sound_population (s : Settings F) (n : nat) (p : list Solution)
  : Prop :=
  Forall (feasible_solution s) p /\ length p = n.

(** The solver along the generations of a run started on [self]. *)
Definition sound_solver (self : BeesSolver F) (s : BeesSolver F) : Prop :=
  same_parameters self s
  /\ length (population s) = Z.to_nat (population_size self)
  /\ Forall (feasible_solution (settings self)) (population s).

(** [b] costs no more than [a]. *)
Definition not_worse (s : Settings F) (a b : Solution) : Prop :=
  exists ca cb,
    calculate_cost fzero fadd fmul of_int a s = Return ca
    /\ calculate_cost fzero fadd fmul of_int b s = Return cb
    /\ flt ca cb = false.

End Floats.

Arguments tables_fit {F} s.
Arguments not_negative {F} fzero flt x.
Arguments tables_not_negative {F} fzero flt s.
Arguments same_parameters {F} a b.
Arguments sound_population {F} s n p.
Arguments sound_solver {F} self s.
Arguments not_worse {F} fzero fadd fmul of_int flt s a b.

End Terms.

(* ===================================================================== *)
(** * Further concrete instances                                         *)
(* ===================================================================== *)

Module Cases.
Import Runtime Model Algorithm Notions Scenario.

(** A solution of [two_rockets] whose second rocket has a type outside
    the cost tables. *)
Definition unknown_type : Solution :=
  {| rocket_type_allocation := [0; 2];
     module_allocation := {| ncols := 1; rows := [[4]; [0]] |} |}.

(** An allocation of [two_rockets] without rocket types. *)
Definition untyped : Solution :=
  {| rocket_type_allocation := [];
     module_allocation := {| ncols := 1; rows := [[4]; [0]] |} |}.

(** A solver of [two_rockets] without population, sites or mutations. *)
Definition empty_solver : BeesSolver Z :=
  solver_on two_rockets [] 0 0 0 0 0 0 0.

(** A solver of [two_rockets] that changes types only: a population of
    two, one elite site of two neighbours, one scout. *)
Definition retyping_solver : BeesSolver Z :=
  solver_on two_rockets [] 2 0 1 1 0 2 0.

(** The mutations, the initial population and the ranking on integer
    costs. *)
Definition population_of : nat -> BeesSolver Z -> M world (list Solution) :=
  @random_population Z.

Definition ranking_of
  : BeesSolver Z -> list Solution -> M world (list Solution) :=
  sorted_by_cost 0 Z.add Z.mul (fun z => z) Z.ltb.

Definition reported_cost_of : BeesSolver Z -> M world Z :=
  current_cost 0 Z.add Z.mul (fun z => z).

End Cases.

(* ===================================================================== *)
(** * Facts on lists, sums and extremal indices                          *)
(* ===================================================================== *)

Module ListFacts.
Import Runtime.

Lemma upd_length A (k : nat) (x : A) l : length (upd k x l) = length l.
Proof.
  revert k; induction l as [|y l IH]; intros [|k]; simpl; auto.
Qed.

Lemma nth_error_upd_eq A (k : nat) (x : A) l :
  (k < length l)%nat -> nth_error (upd k x l) k = Some x.
Proof.
  revert k; induction l as [|y l IH]; intros [|k] H; simpl in *;
    try lia; auto.
  apply IH; lia.
Qed.

Lemma nth_error_upd_neq A (k k' : nat) (x : A) l :
  k <> k' -> nth_error (upd k x l) k' = nth_error l k'.
Proof.
  revert k k'; induction l as [|y l IH]; intros [|k] [|k'] H; simpl;
    auto; try congruence.
Qed.

Lemma nth_upd_eq A (k : nat) (x d : A) l :
  (k < length l)%nat -> nth k (upd k x l) d = x.
Proof.
  revert k; induction l as [|y l IH]; intros [|k] H; simpl in *;
    try lia; auto.
  apply IH; lia.
Qed.

Lemma nth_upd_neq A (k k' : nat) (x d : A) l :
  k <> k' -> nth k' (upd k x l) d = nth k' l d.
Proof.
  revert k k'; induction l as [|y l IH]; intros [|k] [|k'] H; simpl;
    auto; try congruence.
Qed.

Lemma upd_out A (k : nat) (x : A) l : (length l <= k)%nat -> upd k x l = l.
Proof.
  revert k; induction l as [|y l IH]; intros [|k] H; simpl in *;
    try lia; auto.
  f_equal; apply IH; lia.
Qed.

Lemma map_upd A B (f : A -> B) (k : nat) (x : A) l :
  map f (upd k x l) = upd k (f x) (map f l).
Proof.
  revert k; induction l as [|y l IH]; intros [|k]; simpl; auto.
  f_equal; apply IH.
Qed.

Lemma nth_of_nth_error A (l : list A) k x d :
  nth_error l k = Some x -> nth k l d = x.
Proof. intros H; apply nth_error_nth; exact H. Qed.

Lemma sumZ_upd (k : nat) (x : Z) l :
  (k < length l)%nat -> sumZ (upd k x l) = sumZ l - nth k l 0 + x.
Proof.
  revert k; induction l as [|y l IH]; intros [|k] H; simpl in *; try lia.
  rewrite IH by lia. lia.
Qed.

Lemma sumZ_app l1 l2 : sumZ (l1 ++ l2) = sumZ l1 + sumZ l2.
Proof. induction l1 as [|y l IH]; simpl; lia. Qed.

Lemma sumZ_nonneg l : Forall (fun x => 0 <= x) l -> 0 <= sumZ l.
Proof. induction 1; simpl; lia. Qed.

Lemma sumZ_repeat0 n : sumZ (repeat 0 n) = 0.
Proof. induction n; simpl; lia. Qed.

(** In a list of non-negative numbers a cell is at most the sum, and so
    are two cells together. *)
Lemma nth_le_sumZ l k :
  Forall (fun x => 0 <= x) l -> nth k l 0 <= sumZ l.
Proof.
  intros H; revert k; induction H as [|y l Hy H IH]; intros [|k]; simpl;
    try lia.
  - pose proof (sumZ_nonneg _ H); lia.
  - specialize (IH k); lia.
Qed.

Lemma nth_pair_le_sumZ l i k :
  Forall (fun x => 0 <= x) l -> i <> k ->
  nth i l 0 + nth k l 0 <= sumZ l.
Proof.
  intros H; revert i k; induction H as [|y l Hy H IH]; intros [|i] [|k] N;
    simpl; try lia.
  - pose proof (nth_le_sumZ _ k H); lia.
  - pose proof (nth_le_sumZ _ i H); lia.
  - assert (i <> k) as N' by congruence. specialize (IH i k N'); lia.
Qed.

Lemma sumZ_ge_bound c l :
  Forall (fun x => c <= x) l -> c * Z.of_nat (length l) <= sumZ l.
Proof. induction 1; simpl length; simpl sumZ; lia. Qed.

Lemma sumZ_gt_bound c l :
  Forall (fun x => c <= x) l -> Exists (fun x => c < x) l ->
  c * Z.of_nat (length l) < sumZ l.
Proof.
  induction 1 as [|y l Hy H IH]; intros E; inversion E; subst;
    simpl length; simpl sumZ.
  - pose proof (sumZ_ge_bound _ _ H); lia.
  - specialize (IH H1); lia.
Qed.

(** ** [argmax] and [argmin] *)

Section Extremal.
Variable better : Z -> Z -> bool.
Variable R : Z -> Z -> Prop.
Hypothesis R_refl : forall x, R x x.
Hypothesis R_trans : forall x y z, R x y -> R y z -> R x z.
Hypothesis better_true : forall x b, better x b = true -> R b x.
Hypothesis better_false : forall x b, better x b = false -> R x b.

(** [R x b]: [b] is at least as good as [x]. *)
Lemma arg_from_spec pre l best_i best :
  nth_error (pre ++ l) best_i = Some best ->
  Forall (fun x => R x best) pre ->
  exists v, nth_error (pre ++ l)
              (arg_from better best_i best (length pre) l) = Some v
            /\ Forall (fun x => R x v) (pre ++ l).
Proof.
  revert pre best_i best; induction l as [|x l IH]; intros pre bi b Hb Hpre.
  - simpl. exists b. rewrite app_nil_r in *. auto.
  - simpl. destruct (better x b) eqn:E.
    + specialize (IH (pre ++ [x]) (length pre) x).
      rewrite <- app_assoc, length_app in IH. simpl in IH.
      replace (length pre + 1)%nat with (S (length pre)) in IH by lia.
      apply IH.
      * rewrite nth_error_app2 by lia. rewrite Nat.sub_diag. reflexivity.
      * apply Forall_app; split.
        -- eapply Forall_impl; [|exact Hpre]. intros a Ha.
           exact (R_trans _ _ _ Ha (better_true _ _ E)).
        -- constructor; auto.
    + specialize (IH (pre ++ [x]) bi b).
      rewrite <- app_assoc, length_app in IH. simpl in IH.
      replace (length pre + 1)%nat with (S (length pre)) in IH by lia.
      apply IH; auto.
      apply Forall_app; split; auto.
Qed.

End Extremal.

Ltac extremal_side :=
  match goal with
  | |- forall x b, _ = true -> _ =>
      let E := fresh in intros ? ? E; apply Z.ltb_lt in E; lia
  | |- forall x b, _ = false -> _ =>
      let E := fresh in intros ? ? E; apply Z.ltb_ge in E; lia
  | |- Forall _ [_] => constructor; [lia | constructor]
  | |- nth_error _ _ = _ => reflexivity
  | |- _ => intros; lia
  end.

Lemma argmax_spec l k :
  argmax l = Some k ->
  exists v, nth_error l k = Some v /\ Forall (fun x => x <= v) l.
Proof.
  destruct l as [|x l]; simpl; [discriminate|]. intros H; inversion H.
  apply (arg_from_spec (fun y b => b <? y) (fun x b => x <= b)) with
    (pre := [x]) (l := l) (best_i := 0%nat) (best := x); extremal_side.
Qed.

Lemma argmin_spec l k :
  argmin l = Some k ->
  exists v, nth_error l k = Some v /\ Forall (fun x => v <= x) l.
Proof.
  destruct l as [|x l]; simpl; [discriminate|]. intros H; inversion H.
  apply (arg_from_spec (fun y b => y <? b) (fun x b => b <= x)) with
    (pre := [x]) (l := l) (best_i := 0%nat) (best := x); extremal_side.
Qed.

Lemma argmax_some l : l <> [] -> exists k, argmax l = Some k.
Proof. destruct l; [congruence|]; simpl; eauto. Qed.

Lemma argmin_some l : l <> [] -> exists k, argmin l = Some k.
Proof. destruct l; [congruence|]; simpl; eauto. Qed.

End ListFacts.

(* ===================================================================== *)
(** * Facts on integer matrices                                          *)
(* ===================================================================== *)

Module MatrixFacts.
Import Runtime Model Notions ListFacts.


Lemma wrap32_small z : - 2 ^ 31 <= z < 2 ^ 31 -> wrap32 z = z.
Proof.
  intros H. unfold wrap32. rewrite Z.mod_small; lia.
Qed.

Lemma add_cell_exact m i j d x :
  cell m i j = Some x -> - 2 ^ 31 <= x + d < 2 ^ 31 ->
  add_cell m i j d = add_exact m i j d.
Proof.
  intros C H. unfold add_cell, add_exact. rewrite C.
  rewrite wrap32_small; auto.
Qed.

Lemma cell_nth m i j r :
  nth_error (rows m) i = Some r -> (j < length r)%nat ->
  cell m i j = Some (nth j r 0).
Proof.
  intros Hr Hj. unfold cell. rewrite Hr.
  apply nth_error_nth'. exact Hj.
Qed.

Lemma rows_add_exact m i j d r :
  nth_error (rows m) i = Some r -> (j < length r)%nat ->
  rows (add_exact m i j d) = upd i (upd j (nth j r 0 + d) r) (rows m).
Proof.
  intros Hr Hj. unfold add_exact. rewrite (cell_nth _ _ _ _ Hr Hj).
  unfold set_cell; simpl. rewrite Hr. reflexivity.
Qed.

Lemma ncols_add_exact m i j d : ncols (add_exact m i j d) = ncols m.
Proof. unfold add_exact. destruct (cell m i j); reflexivity. Qed.

Lemma nth_error_lt A (l : list A) k x :
  nth_error l k = Some x -> (k < length l)%nat.
Proof. intros H. apply nth_error_Some. congruence. Qed.

Lemma rect_row m i r :
  rect m -> nth_error (rows m) i = Some r -> length r = ncols m.
Proof.
  intros H Hr. unfold rect in H. rewrite Forall_forall in H.
  apply H. eapply nth_error_In; eauto.
Qed.

Lemma Forall_upd A (P : A -> Prop) k x l :
  Forall P l -> P x -> Forall P (upd k x l).
Proof.
  intros H; revert k; induction H; intros [|k] Hx; simpl; auto.
Qed.

Lemma Forall_nth_error A (P : A -> Prop) l k x :
  Forall P l -> nth_error l k = Some x -> P x.
Proof.
  intros H E. rewrite Forall_forall in H. apply H.
  eapply nth_error_In; eauto.
Qed.

Lemma rect_add_exact m i j d : rect m -> rect (add_exact m i j d).
Proof.
  intros H. unfold add_exact, cell.
  destruct (nth_error (rows m) i) as [r|] eqn:Hr; auto.
  destruct (nth_error r j) eqn:Hj; auto.
  unfold rect, set_cell; simpl. rewrite Hr.
  apply Forall_upd; auto. rewrite upd_length.
  eapply rect_row; eauto.
Qed.

Lemma nrows_add_exact m i j d : nrows (add_exact m i j d) = nrows m.
Proof.
  unfold add_exact, cell, nrows.
  destruct (nth_error (rows m) i) as [r|] eqn:Hr; auto.
  destruct (nth_error r j) eqn:Hj; auto.
  unfold set_cell; simpl. rewrite Hr. apply upd_length.
Qed.

(** The column [j'] after [m[i, j] += d]. *)
Lemma column_add_exact m i j d r j' :
  nth_error (rows m) i = Some r -> (j < length r)%nat ->
  column (add_exact m i j d) j' =
  if (j =? j')%nat then upd i (nth j r 0 + d) (column m j')
  else column m j'.
Proof.
  intros Hr Hj. unfold column. rewrite (rows_add_exact _ _ _ _ _ Hr Hj).
  rewrite map_upd.
  destruct (Nat.eqb_spec j j') as [->|N].
  - rewrite nth_upd_eq; auto.
  - rewrite nth_upd_neq by auto.
    clear Hj. revert i Hr. generalize (rows m) as l.
    induction l as [|y l IH]; intros [|i] Hr; simpl in *; try discriminate.
    + inversion Hr; subst; reflexivity.
    + f_equal. apply IH; auto.
Qed.

Lemma column_length m j : length (column m j) = nrows m.
Proof. unfold column, nrows. apply length_map. Qed.

Lemma nth_column m i j r :
  nth_error (rows m) i = Some r -> nth i (column m j) 0 = nth j r 0.
Proof.
  intros Hr. unfold column.
  apply nth_of_nth_error. rewrite nth_error_map, Hr. reflexivity.
Qed.

Lemma col_sum_add_exact m i j d r j' :
  nth_error (rows m) i = Some r -> (j < length r)%nat ->
  sumZ (column (add_exact m i j d) j') =
  sumZ (column m j') + (if (j =? j')%nat then d else 0).
Proof.
  intros Hr Hj. rewrite (column_add_exact _ _ _ _ _ _ Hr Hj).
  destruct (Nat.eqb_spec j j') as [->|N]; [|lia].
  rewrite sumZ_upd.
  - rewrite (nth_column _ _ _ _ Hr). lia.
  - rewrite column_length. eapply nth_error_lt; eauto.
Qed.

(** The cell [nth j' row_i'] after [m[i, j] += d]. *)
Lemma row_add_exact m i j d r :
  nth_error (rows m) i = Some r -> (j < length r)%nat ->
  nth_error (rows (add_exact m i j d)) i = Some (upd j (nth j r 0 + d) r).
Proof.
  intros Hr Hj. rewrite (rows_add_exact _ _ _ _ _ Hr Hj).
  apply nth_error_upd_eq. eapply nth_error_lt; eauto.
Qed.

Lemma row_add_exact_other m i j d i' :
  i <> i' ->
  nth_error (rows (add_exact m i j d)) i' = nth_error (rows m) i'.
Proof.
  intros N. unfold add_exact, cell.
  destruct (nth_error (rows m) i) as [r|] eqn:Hr; auto.
  destruct (nth_error r j) eqn:Hj; auto.
  unfold set_cell; simpl. rewrite Hr. apply nth_error_upd_neq; auto.
Qed.

Lemma nonneg_add_exact m i j d r :
  nonneg m -> nth_error (rows m) i = Some r -> (j < length r)%nat ->
  0 <= nth j r 0 + d -> nonneg (add_exact m i j d).
Proof.
  intros H Hr Hj Hd. unfold nonneg. rewrite (rows_add_exact _ _ _ _ _ Hr Hj).
  apply Forall_upd; auto. apply Forall_upd; auto.
  eapply Forall_nth_error; eauto.
Qed.

Lemma col_sums_ext m m' :
  ncols m = ncols m' ->
  (forall j, sumZ (column m' j) = sumZ (column m j)) ->
  col_sums m' = col_sums m.
Proof.
  intros Hn H. unfold col_sums. rewrite Hn.
  apply map_ext. intros j; apply H.
Qed.

Lemma nth_col_sums m j :
  (j < ncols m)%nat -> nth j (col_sums m) 0 = sumZ (column m j).
Proof.
  intros H. unfold col_sums.
  rewrite (nth_indep _ 0 (sumZ (column m 0))) by
    (rewrite length_map, length_seq; exact H).
  rewrite (map_nth (fun j => sumZ (column m j))).
  rewrite seq_nth; auto.
Qed.

(** The sum of the row sums is the sum of the column sums. *)
Lemma map_nth_seq_id (r : list Z) :
  map (fun j => nth j r 0) (seq 0 (length r)) = r.
Proof.
  induction r as [|x r IH]; simpl; auto.
  f_equal. rewrite <- seq_shift, map_map. simpl. exact IH.
Qed.

Lemma sumZ_map_add A (f g : A -> Z) l :
  sumZ (map (fun a => f a + g a) l) = sumZ (map f l) + sumZ (map g l).
Proof. induction l; simpl; lia. Qed.

Lemma total_by_rows_or_columns m :
  rect m -> sumZ (row_sums m) = sumZ (col_sums m).
Proof.
  unfold rect, row_sums, col_sums, column. generalize (ncols m) as n.
  intros n. induction (rows m) as [|r rs IH]; intros H.
  - simpl. induction (seq 0 n); simpl; lia.
  - inversion H; subst. simpl map at 1. simpl sumZ at 1.
    rewrite IH by auto.
    rewrite <- (map_nth_seq_id r) at 1.
    rewrite <- sumZ_map_add. reflexivity.
Qed.

End MatrixFacts.

(* ===================================================================== *)
(** * The capacity-repair loop                                           *)
(* ===================================================================== *)

Module RepairFacts.
Import Runtime Model Notions ListFacts MatrixFacts.


Lemma nonzeros_le_length r : (nonzeros r <= length r)%nat.
Proof. unfold nonzeros. apply filter_length_le. Qed.

Lemma nonzeros_upd j x r :
  (j < length r)%nat ->
  (nonzeros (upd j x r) + (if Z.eqb (nth j r 0%Z) 0%Z then 0 else 1) =
   nonzeros r + (if Z.eqb x 0%Z then 0 else 1))%nat.
Proof.
  unfold nonzeros. revert j; induction r as [|y r IH]; intros [|j] H;
    simpl in *; try lia.
  - destruct (y =? 0), (x =? 0); simpl; lia.
  - specialize (IH j ltac:(lia)).
    destruct (y =? 0); simpl; lia.
Qed.

Lemma row_potential_le cap r : (row_potential cap (length r) r <= length r)%nat.
Proof.
  unfold row_potential. pose proof (nonzeros_le_length r).
  destruct (cap <? sumZ r); auto. destruct (sumZ r =? cap); lia.
Qed.

Lemma list_sum_map_upd A (f : A -> nat) i x l old :
  nth_error l i = Some old ->
  (list_sum (map f (upd i x l)) + f old = list_sum (map f l) + f x)%nat.
Proof.
  revert i; induction l as [|y l IH]; intros [|i] H; simpl in *;
    try discriminate.
  - inversion H; subst; lia.
  - specialize (IH i H). lia.
Qed.

Lemma list_sum_map_le A (f : A -> nat) n l :
  Forall (fun a => (f a <= n)%nat) l ->
  (list_sum (map f l) <= length l * n)%nat.
Proof. induction 1; simpl; lia. Qed.

Lemma potential_le cap m :
  rect m -> (potential cap m <= nrows m * ncols m)%nat.
Proof.
  intros H. unfold potential, nrows. apply list_sum_map_le.
  eapply Forall_impl; [|exact H]. intros r Hr; simpl in Hr.
  rewrite <- Hr. apply row_potential_le.
Qed.

Lemma sumZ_le_bound c l :
  Forall (fun x => x <= c) l -> sumZ l <= c * Z.of_nat (length l).
Proof. induction 1; simpl length; simpl sumZ; lia. Qed.

Lemma column_nonneg m j : nonneg m -> Forall (fun x => 0 <= x) (column m j).
Proof.
  unfold nonneg, column. intros H. induction H as [|r rs Hr H IH]; simpl;
    constructor; auto.
  destruct (Nat.lt_ge_cases j (length r)) as [L|L].
  - rewrite Forall_forall in Hr. apply Hr. apply nth_In; exact L.
  - rewrite nth_overflow by lia. lia.
Qed.

Lemma existsb_gt_Exists cap l :
  existsb (fun s => cap <? s) l = true -> Exists (fun s => cap < s) l.
Proof.
  intros H. apply existsb_exists in H. destruct H as (s & Hin & Hs).
  apply Exists_exists. exists s. split; auto. apply Z.ltb_lt; exact Hs.
Qed.

Section Repair.

Variable cap : Z.
Variable amounts : list Z.
Variable R : nat.
Hypothesis amounts_int32 : Forall (fun a => a < 2 ^ 31) amounts.
Hypothesis feasible : sumZ amounts <= Z.of_nat R * cap.

Lemma col_sum_int32 m j :
  distributes amounts R m -> (j < ncols m)%nat ->
  sumZ (column m j) < 2 ^ 31.
Proof.
  intros [_ _ _ Hc] Hj. rewrite <- (nth_col_sums m j Hj), Hc.
  rewrite Forall_forall in amounts_int32. apply amounts_int32.
  apply nth_In. rewrite <- Hc. unfold col_sums.
  rewrite length_map, length_seq. exact Hj.
Qed.

(** Moving [t] units of module [j] from rocket [i] to another rocket [k]
    wraps no cell, keeps the invariant, and changes rows [i] and [k]
    only. *)
Lemma transfer_exact m i k j t ri rk :
  distributes amounts R m ->
  nth_error (rows m) i = Some ri -> nth_error (rows m) k = Some rk ->
  i <> k -> (j < ncols m)%nat -> 0 <= t <= nth j ri 0 ->
  let m' := add_cell (add_cell m i j (- t)) k j t in
  distributes amounts R m'
  /\ rows m' = upd k (upd j (nth j rk 0 + t) rk)
                 (upd i (upd j (nth j ri 0 - t) ri) (rows m))
  /\ ncols m' = ncols m.
Proof.
  intros Inv Hi Hk Nik Hj Ht.
  pose proof Inv as [Hrows Hrect Hnn Hcols].
  assert (Li : length ri = ncols m) by (eapply rect_row; eauto).
  assert (Lk : length rk = ncols m) by (eapply rect_row; eauto).
  assert (Ci : cell m i j = Some (nth j ri 0))
    by (apply cell_nth; auto; lia).
  assert (Bcol : nth j ri 0 + nth j rk 0 <= sumZ (column m j)).
  { rewrite <- (nth_column m i j ri Hi), <- (nth_column m k j rk Hk).
    apply nth_pair_le_sumZ; auto. apply column_nonneg; auto. }
  assert (Bj : sumZ (column m j) < 2 ^ 31) by (apply col_sum_int32; auto).
  assert (Pk : 0 <= nth j rk 0).
  { assert (Forall (fun x => 0 <= x) rk) as F
      by (eapply Forall_nth_error; eauto).
    rewrite Forall_forall in F. apply F. apply nth_In. lia. }
  assert (E1 : add_cell m i j (- t) = add_exact m i j (- t)).
  { eapply add_cell_exact; eauto. lia. }
  set (m1 := add_exact m i j (- t)) in *.
  assert (Hk1 : nth_error (rows m1) k = Some rk).
  { unfold m1. rewrite row_add_exact_other; auto. }
  assert (Ck : cell m1 k j = Some (nth j rk 0))
    by (apply cell_nth; auto; lia).
  assert (E2 : add_cell m1 k j t = add_exact m1 k j t).
  { eapply add_cell_exact; eauto. lia. }
  cbv zeta. rewrite E1. fold m1. rewrite E2.
  assert (Hr1 : rows m1 = upd i (upd j (nth j ri 0 - t) ri) (rows m)).
  { unfold m1. rewrite (rows_add_exact m i j (- t) ri Hi) by lia.
    reflexivity. }
  split; [|split].
  - constructor.
    + rewrite nrows_add_exact. unfold m1. rewrite nrows_add_exact. auto.
    + apply rect_add_exact. apply rect_add_exact. auto.
    + eapply nonneg_add_exact; eauto; try lia.
      unfold m1. eapply nonneg_add_exact; eauto; lia.
    + rewrite <- Hcols. apply col_sums_ext.
      * rewrite ncols_add_exact. unfold m1. rewrite ncols_add_exact. auto.
      * intros j'. rewrite (col_sum_add_exact m1 k j t rk j' Hk1) by lia.
        unfold m1.
        rewrite (col_sum_add_exact m i j (- t) ri j' Hi) by lia.
        destruct (j =? j')%nat; lia.
  - rewrite (rows_add_exact m1 k j t rk Hk1) by lia. rewrite Hr1.
    reflexivity.
  - rewrite ncols_add_exact. unfold m1. rewrite ncols_add_exact. auto.
Qed.

(** One iteration: it raises nothing, keeps the invariant and lowers the
    potential. *)
Lemma repair_step_progress m :
  distributes amounts R m ->
  existsb (fun s => cap <? s) (row_sums m) = true ->
  exists m', repair_step cap m = Return m'
             /\ distributes amounts R m'
             /\ (potential cap m' < potential cap m)%nat.
Proof.
  intros Inv G. pose proof Inv as [Hrows Hrect Hnn Hcols].
  apply existsb_gt_Exists in G.
  assert (NE : row_sums m <> []) by (intros E; rewrite E in G; inversion G).
  destruct (argmax_some _ NE) as [i Hi].
  destruct (argmin_some _ NE) as [k Hk].
  destruct (argmax_spec _ _ Hi) as (vmax & Ei & Hmax).
  destruct (argmin_spec _ _ Hk) as (vmin & Ek & Hmin).
  (* the largest count is over the capacity *)
  assert (Gmax : cap < vmax).
  { apply Exists_exists in G. destruct G as (s & Hin & Hs).
    rewrite Forall_forall in Hmax. specialize (Hmax s Hin). lia. }
  (* the totals *)
  assert (Tot : sumZ (row_sums m) <= Z.of_nat R * cap).
  { rewrite total_by_rows_or_columns by auto. rewrite Hcols. exact feasible. }
  assert (LR : length (row_sums m) = R).
  { unfold row_sums. rewrite length_map. exact Hrows. }
  (* the smallest count is under the capacity *)
  assert (Gmin : vmin < cap).
  { destruct (Z.lt_ge_cases vmin cap) as [L|L]; auto. exfalso.
    assert (cap * Z.of_nat (length (row_sums m)) < sumZ (row_sums m)).
    { apply sumZ_gt_bound; auto.
      eapply Forall_impl; [|exact Hmin]. intros; simpl in *; lia. }
    rewrite LR in *. lia. }
  assert (Nik : i <> k) by (intros ->; rewrite Ei in Ek; inversion Ek; lia).
  (* the capacity is not negative *)
  assert (Rpos : (0 < R)%nat).
  { rewrite <- LR. destruct (row_sums m); [congruence|simpl; lia]. }
  assert (Cap0 : 0 <= cap).
  { assert (0 <= sumZ (row_sums m)).
    { apply sumZ_nonneg. unfold row_sums. apply Forall_map.
      eapply Forall_impl; [|exact Hnn]. intros r Hr. apply sumZ_nonneg; auto. }
    nia. }
  (* the two rows *)
  unfold row_sums in Ei, Ek. rewrite nth_error_map in Ei, Ek.
  destruct (nth_error (rows m) i) as [ri|] eqn:Hri; [|discriminate].
  destruct (nth_error (rows m) k) as [rk|] eqn:Hrk; [|discriminate].
  simpl in Ei, Ek. inversion Ei as [Si]. inversion Ek as [Sk]. clear Ei Ek.
  assert (Li : length ri = ncols m) by (eapply rect_row; eauto).
  assert (Lk : length rk = ncols m) by (eapply rect_row; eauto).
  assert (NEi : ri <> []) by (intros ->; simpl in Si; lia).
  destruct (argmax_some _ NEi) as [j Hj].
  destruct (argmax_spec _ _ Hj) as (a & Ej & Ha).
  assert (Lj : (j < length ri)%nat) by (eapply nth_error_lt; eauto).
  assert (Nj : nth j ri 0 = a) by (apply nth_of_nth_error; auto).
  assert (Apos : 0 < a).
  { destruct (Z.lt_ge_cases 0 a) as [L|L]; auto. exfalso.
    pose proof (sumZ_le_bound a ri Ha). nia. }
  (* the step *)
  unfold repair_step. rewrite Hi, Hk, Hri, Hj.
  assert (Nmax : nth i (row_sums m) 0 = vmax).
  { apply nth_of_nth_error. unfold row_sums. rewrite nth_error_map, Hri.
    simpl. congruence. }
  rewrite Nmax, Nj.
  set (t := Z.min a (vmax - cap)).
  assert (Ht : 1 <= t <= a) by (unfold t; lia).
  destruct (transfer_exact m i k j t ri rk Inv Hri Hrk Nik) as (Inv' & Hrows' & Hn');
    try lia.
  eexists; split; [reflexivity|]. split; [exact Inv'|].
  (* the potential *)
  unfold potential. rewrite Hn', Hrows'. rewrite Nj.
  set (f := row_potential cap (ncols m)).
  set (ri' := upd j (a - t) ri). set (rk' := upd j (nth j rk 0 + t) rk).
  assert (Hk1 : nth_error (upd i ri' (rows m)) k = Some rk).
  { rewrite nth_error_upd_neq; auto. }
  pose proof (list_sum_map_upd _ f k rk' _ rk Hk1) as P2.
  pose proof (list_sum_map_upd _ f i ri' _ ri Hri) as P1.
  assert (Fk : f rk = ncols m).
  { unfold f, row_potential.
    destruct (Z.ltb_spec cap (sumZ rk)); [lia|].
    destruct (Z.eqb_spec (sumZ rk) cap); [lia|]. reflexivity. }
  assert (Fk' : (f rk' <= ncols m)%nat).
  { unfold f, rk'. rewrite <- Lk.
    rewrite <- (upd_length _ j (nth j rk 0 + t) rk).
    apply row_potential_le. }
  assert (Fi : (f ri' < f ri)%nat).
  { assert (Sum' : sumZ ri' = vmax - t).
    { unfold ri'. rewrite sumZ_upd by auto. lia. }
    assert (NZ : (1 <= nonzeros ri)%nat).
    { pose proof (nonzeros_upd j 0 ri Lj) as Q. rewrite Nj in Q.
      destruct (Z.eqb_spec a 0); [lia|]. simpl in Q. lia. }
    unfold f, row_potential. rewrite Sum'.
    destruct (Z.ltb_spec cap (sumZ ri)); [|lia].
    destruct (Z.ltb_spec cap (vmax - t)).
    - assert (t = a) as Eq by (unfold t in *; lia).
      unfold ri'. rewrite Eq, Z.sub_diag.
      pose proof (nonzeros_upd j 0 ri Lj) as Q. rewrite Nj in Q.
      destruct (Z.eqb_spec a 0); [lia|]. simpl in Q. lia.
    - destruct (Z.eqb_spec (vmax - t) cap); [lia|].
      unfold t in *. lia. }
  lia.
Qed.

(** The loop returns within [potential] iterations. *)
Lemma repair_loop_terminates fuel : forall m done,
  distributes amounts R m ->
  (potential cap m <= fuel)%nat ->
  exists m' n,
    repair_loop fuel cap m done = Return (m', n)
    /\ distributes amounts R m'
    /\ existsb (fun s => cap <? s) (row_sums m') = false
    /\ (n <= done + potential cap m)%nat.
Proof.
  induction fuel as [|fuel IH]; intros m done Inv Hf.
  - simpl. destruct (existsb _ (row_sums m)) eqn:G.
    + destruct (repair_step_progress m Inv G) as (m' & _ & _ & L). lia.
    + exists m, done. split; [reflexivity|]. split; [exact Inv|].
      split; [exact G|lia].
  - simpl. destruct (existsb _ (row_sums m)) eqn:G.
    + destruct (repair_step_progress m Inv G) as (m' & E & Inv' & L).
      rewrite E.
      destruct (IH m' (S done) Inv') as (m'' & n & E' & Inv'' & G' & Hn);
        [lia|].
      exists m'', n. split; [exact E'|]. split; [exact Inv''|].
      split; [exact G'|lia].
    + exists m, done. split; [reflexivity|]. split; [exact Inv|].
      split; [exact G|lia].
Qed.

End Repair.

End RepairFacts.

(* ===================================================================== *)
(** * The random generator of model.py                                   *)
(* ===================================================================== *)

Module GeneratorFacts.
Import Runtime Model Notions ListFacts MatrixFacts RepairFacts.

(** ** Running a computation *)

Lemma bind_run S A B (c : M S A) (k : A -> M S B) s :
  bind c k s =
  match c s with
  | (Return a, s') => k a s'
  | (Raise e, s') => (Raise e, s')
  | (OutOfFuel, s') => (OutOfFuel, s')
  end.
Proof. reflexivity. Qed.

Lemma bind_return S A B (c : M S A) (k : A -> M S B) s a s' :
  c s = (Return a, s') -> bind c k s = k a s'.
Proof. intros E. rewrite bind_run, E. reflexivity. Qed.

Lemma bind_raise S A B (c : M S A) (k : A -> M S B) s e s' :
  c s = (Raise e, s') -> bind c k s = (Raise e, s').
Proof. intros E. rewrite bind_run, E. reflexivity. Qed.

(** ** The draws *)


Lemma np_draw_run w :
  np_draw w = (Return (tape (np_random w) (cursor (np_random w))),
               np_advance w).
Proof. reflexivity. Qed.


(** [np.random.randint] returns [size] values below [high], after as
    many draws. *)
Lemma randint_cells high (xs : list nat) : forall w,
  0 < high ->
  exists v w',
    map_m (fun _ : nat => z <- np_draw ;; ret (z mod high)) xs w
    = (Return v, w')
    /\ length v = length xs
    /\ Forall (fun t => 0 <= t < high) v
    /\ np_drawn (length xs) w w'.
Proof.
  induction xs as [|x xs IH]; intros w H.
  - exists [], w. simpl. unfold ret, np_drawn. repeat split; auto.
  - destruct (IH (np_advance w) H) as (v & w' & E & L & Fv & P1 & P2 & P3).
    simpl map_m.
    rewrite (bind_return _ _ _ _ _ w _ (np_advance w)
               (bind_return _ _ _ _ _ w _ _ (np_draw_run w))).
    rewrite (bind_return _ _ _ _ _ _ _ _ E). unfold ret.
    eexists; eexists; split; [reflexivity|].
    split; [simpl; lia|]. split.
    + constructor; auto. apply Z.mod_pos_bound; lia.
    + unfold np_drawn. rewrite P1, P2, P3. simpl. repeat split; lia.
Qed.

Lemma np_randint_spec high size w :
  0 < high -> 0 <= size ->
  exists v w',
    np_randint high size w = (Return v, w')
    /\ length v = Z.to_nat size
    /\ Forall (fun t => 0 <= t < high) v
    /\ np_drawn (Z.to_nat size) w w'.
Proof.
  intros H S. unfold np_randint.
  destruct (Z.leb_spec high 0); [lia|]. destruct (Z.ltb_spec size 0); [lia|].
  simpl. destruct (randint_cells high (seq 0 (Z.to_nat size)) w H)
    as (v & w' & E & L & Fv & P).
  exists v, w'. rewrite length_seq in L, P. auto.
Qed.


(** The trials of a multinomial draw: each adds one to a cell. *)
Lemma multinomial_trials d (xs : list nat) : forall counts w,
  0 < d -> length counts = Z.to_nat d ->
  Forall (fun x => 0 <= x) counts ->
  exists v w',
    for_each xs
      (fun (_ : nat) counts =>
         z <- np_draw ;;
         let k := Z.to_nat (z mod d) in
         ret (upd k (nth k counts 0 + 1) counts)) counts w
    = (Return v, w')
    /\ length v = Z.to_nat d
    /\ Forall (fun x => 0 <= x) v
    /\ sumZ v = sumZ counts + Z.of_nat (length xs)
    /\ py_random w' = py_random w.
Proof.
  induction xs as [|x xs IH]; intros counts w Hd L Fc.
  - exists counts, w. simpl. unfold ret. repeat split; auto. lia.
  - set (k := Z.to_nat (tape (np_random w) (cursor (np_random w)) mod d)).
    assert (Hk : (k < length counts)%nat).
    { unfold k. pose proof (Z.mod_pos_bound
        (tape (np_random w) (cursor (np_random w))) d Hd). lia. }
    assert (Pk : 0 <= nth k counts 0).
    { rewrite Forall_forall in Fc. apply Fc. apply nth_In; auto. }
    destruct (IH (upd k (nth k counts 0 + 1) counts) (np_advance w) Hd)
      as (v & w' & E & L' & Fv & Sv & P).
    + rewrite upd_length; auto.
    + apply Forall_upd; auto. lia.
    + simpl for_each.
      rewrite (bind_return _ _ _ _ _ w _ (np_advance w)
                 (bind_return _ _ _ _ _ w _ _ (np_draw_run w))).
      exists v, w'. split; [exact E|]. split; [exact L'|].
      split; [exact Fv|]. split; [|exact P].
      rewrite Sv, sumZ_upd by auto. simpl length. lia.
Qed.

Lemma multinomial_spec n d w :
  0 < d -> 0 <= n ->
  exists v w',
    multinomial n d w = (Return v, w')
    /\ length v = Z.to_nat d
    /\ Forall (fun x => 0 <= x) v
    /\ sumZ v = n
    /\ py_random w' = py_random w.
Proof.
  intros Hd Hn. unfold multinomial.
  destruct (Z.leb_spec d 0); [lia|]. destruct (Z.ltb_spec n 0); [lia|].
  simpl.
  destruct (multinomial_trials d (seq 0 (Z.to_nat n))
              (repeat 0 (Z.to_nat d)) w Hd) as (v & w' & E & L & Fv & Sv & P).
  - apply repeat_length.
  - apply Forall_forall. intros x Hx. apply repeat_spec in Hx. lia.
  - exists v, w'. rewrite sumZ_repeat0, length_seq in Sv.
    repeat split; auto. lia.
Qed.

(** ** Storing a column *)

Lemma rows_set_column_length m j v :
  length v = nrows m -> nrows (set_column m j v) = nrows m.
Proof.
  intros L. unfold nrows, set_column; simpl.
  rewrite length_map, length_combine. unfold nrows in L. lia.
Qed.

Lemma rect_set_column m j v : rect m -> rect (set_column m j v).
Proof.
  unfold rect, set_column; simpl. intros H.
  revert v; induction H as [|r rs Hr H IH]; intros [|x v]; simpl;
    constructor; auto.
  rewrite upd_length. exact Hr.
Qed.

Lemma column_set_column m j v j' :
  rect m -> length v = nrows m -> (j < ncols m)%nat ->
  column (set_column m j v) j' =
  if (j =? j')%nat then map wrap32 v else column m j'.
Proof.
  unfold rect, nrows, column, set_column; simpl.
  generalize (ncols m) as n. intros n H.
  revert v; induction H as [|r rs Hr H IH]; intros [|x v] L Hj;
    simpl in *; try discriminate.
  - destruct (j =? j')%nat; reflexivity.
  - specialize (IH v ltac:(lia) Hj).
    destruct (Nat.eqb_spec j j') as [->|N].
    + rewrite nth_upd_eq by lia. f_equal. exact IH.
    + rewrite nth_upd_neq by auto. f_equal. exact IH.
Qed.

Lemma map_wrap32_id v n :
  Forall (fun x => 0 <= x) v -> sumZ v = n -> n < 2 ^ 31 ->
  map wrap32 v = v.
Proof.
  intros Fv S B. rewrite <- (map_id v) at 2. apply map_ext_in.
  intros x Hx. apply wrap32_small.
  destruct (In_nth v x 0 Hx) as (k & Hk & <-).
  pose proof (nth_le_sumZ v k Fv).
  rewrite Forall_forall in Fv. specialize (Fv _ (nth_In v 0 Hk)). lia.
Qed.

(** A matrix whose columns hold no negative cell holds none. *)
Lemma nonneg_by_columns m :
  rect m -> (forall j, Forall (fun x => 0 <= x) (column m j)) -> nonneg m.
Proof.
  intros Hr Hc. unfold nonneg. apply Forall_forall. intros r Hin.
  apply Forall_forall. intros x Hx.
  destruct (In_nth _ _ [] Hin) as (i & Hi & Ei).
  destruct (In_nth _ _ 0 Hx) as (j & Hj & Ej).
  specialize (Hc j). rewrite Forall_forall in Hc. apply Hc.
  assert (nth_error (rows m) i = Some r) as E.
  { rewrite <- Ei. apply nth_error_nth'. exact Hi. }
  rewrite <- Ej, <- (nth_column m i j r E).
  apply nth_In. rewrite column_length. exact Hi.
Qed.


Section Generator.

Variable F : Type.


Lemma draws_loop R (HR : 0 < R) M l : forall pre m w,
  draws_inv (Z.to_nat R) M pre m ->
  M = (length pre + length l)%nat ->
  Forall (fun a => 0 <= a < 2 ^ 31) l ->
  exists m' w',
    for_each (combine (seq (length pre) (length l)) l) (draw_body R) m w
    = (Return m', w')
    /\ draws_inv (Z.to_nat R) M (pre ++ l) m'.
Proof.
  induction l as [|a l IH]; intros pre m w Inv HM Fl.
  - exists m, w. simpl. unfold ret. rewrite app_nil_r. auto.
  - inversion Fl as [|? ? Ha Fl']; subst.
    pose proof Inv as [Hrows Hrect Hcols Hnn Hsums].
    destruct (multinomial_spec a R w HR) as (v & w1 & E & Lv & Fv & Sv & _);
      [lia|].
    assert (Hp : (length pre < ncols m)%nat) by (simpl in Hcols; lia).
    assert (Lv' : length v = nrows m) by lia.
    assert (Inv1 : draws_inv (Z.to_nat R) (length pre + length (a :: l))
                     (pre ++ [a]) (set_column m (length pre) v)).
    { constructor.
      - rewrite rows_set_column_length; auto.
      - apply rect_set_column; auto.
      - simpl. exact Hcols.
      - intros j. rewrite column_set_column by auto.
        destruct (length pre =? j)%nat; auto.
        rewrite (map_wrap32_id v (sumZ v)); auto. lia.
      - intros j Hj. rewrite column_set_column by auto.
        rewrite length_app in Hj. simpl in Hj.
        destruct (Nat.eqb_spec (length pre) j) as [<-|N].
        + rewrite (map_wrap32_id v (sumZ v)); auto; try lia.
          rewrite app_nth2, Nat.sub_diag by lia. simpl. lia.
        + rewrite app_nth1 by lia. apply Hsums. lia. }
    destruct (IH (pre ++ [a]) (set_column m (length pre) v) w1 Inv1)
      as (m' & w' & E' & Inv').
    + rewrite length_app. simpl. lia.
    + exact Fl'.
    + exists m', w'. rewrite <- app_assoc in Inv'. simpl in Inv'.
      split; [|exact Inv'].
      simpl length. simpl seq. simpl combine. simpl for_each.
      rewrite (bind_return _ _ _ _ _ w (set_column m (length pre) v) w1).
      * rewrite length_app in E'. simpl in E'.
        replace (length pre + 1)%nat with (S (length pre)) in E' by lia.
        exact E'.
      * unfold draw_body. simpl fst. simpl snd.
        rewrite (bind_return _ _ _ _ _ _ _ _ E).
        apply Nat.ltb_lt in Hp. rewrite Hp. reflexivity.
Qed.

Lemma zeros_inv R M :
  draws_inv R M []
    {| ncols := M; rows := repeat (repeat 0 M) R |}.
Proof.
  constructor; simpl; try lia.
  - unfold nrows; simpl. apply repeat_length.
  - unfold rect; simpl. apply Forall_forall. intros r Hr.
    apply repeat_spec in Hr. subst. apply repeat_length.
  - intros j. unfold column; simpl. apply Forall_forall. intros x Hx.
    apply in_map_iff in Hx. destruct Hx as (r & <- & Hr).
    apply repeat_spec in Hr. subst.
    destruct (Nat.lt_ge_cases j M) as [L|L].
    + rewrite nth_repeat_lt by auto. lia.
    + rewrite nth_overflow by (rewrite repeat_length; lia). lia.
Qed.

Lemma draws_done R amounts m :
  draws_inv R (length amounts) amounts m -> distributes amounts R m.
Proof.
  intros [Hrows Hrect Hcols Hnn Hsums]. constructor; auto.
  - apply nonneg_by_columns; auto.
  - unfold col_sums. rewrite Hcols.
    rewrite <- (map_nth_seq_id amounts) at 2.
    apply map_ext_in. intros j Hj. apply in_seq in Hj. apply Hsums. lia.
Qed.

Lemma all_eq_refl x : all_eq x x = true.
Proof. induction x; simpl; auto. rewrite Z.eqb_refl. auto. Qed.

Lemma no_overload_valid cap l :
  existsb (fun s => cap <? s) l = false ->
  forallb (fun s => s <=? cap) l = true.
Proof.
  induction l as [|x l IH]; simpl; auto. intros H.
  apply orb_false_iff in H. destruct H as [H1 H2].
  rewrite IH by auto. apply Z.ltb_ge in H1.
  apply andb_true_iff; split; auto. apply Z.leb_le; auto.
Qed.


Lemma np_zeros_run S r c (w : S) :
  0 <= r -> 0 <= c ->
  np_zeros r c w =
  (Return {| ncols := Z.to_nat c;
             rows := repeat (repeat 0 (Z.to_nat c)) (Z.to_nat r) |}, w).
Proof.
  intros Hr Hc. unfold np_zeros.
  destruct (Z.ltb_spec r 0); [lia|]. destruct (Z.ltb_spec c 0); [lia|].
  reflexivity.
Qed.

Lemma drawn_allocation_spec (s : Settings F) w :
  well_formed s ->
  exists m w',
    for_each (enumerate (module_amounts s))
      (fun ma allocation =>
         let module_type := fst ma in
         let amount := snd ma in
         draw <- multinomial amount (num_rockets s) ;;
         if (module_type <? ncols allocation)%nat
         then ret (set_column allocation module_type draw)
         else raise IndexError)
      {| ncols := Z.to_nat (num_module_types s);
         rows := repeat (repeat 0 (Z.to_nat (num_module_types s)))
                        (Z.to_nat (num_rockets s)) |} w
    = (Return m, w')
    /\ distributes (module_amounts s) (Z.to_nat (num_rockets s)) m
    /\ ncols m = Z.to_nat (num_module_types s).
Proof.
  intros [Ht Hr Hm Ha].
  assert (EM : Z.to_nat (num_module_types s) = length (module_amounts s))
    by lia.
  rewrite EM.
  destruct (draws_loop (num_rockets s) Hr (length (module_amounts s))
              (module_amounts s) [] _ w
              (zeros_inv (Z.to_nat (num_rockets s)) (length (module_amounts s))))
    as (m & w' & E & Inv); auto.
  exists m, w'. split; [exact E|]. simpl in Inv. split.
  - apply draws_done; auto.
  - destruct Inv; auto.
Qed.

Lemma generate_random_modules_allocation_spec fuel (s : Settings F) w :
  well_formed s -> feasible s -> (enough_fuel s <= fuel)%nat ->
  exists m w',
    generate_random_modules_allocation fuel s w = (Return m, w')
    /\ distributes (module_amounts s) (Z.to_nat (num_rockets s)) m
    /\ existsb (fun x => rocket_capacity s <? x) (row_sums m) = false.
Proof.
  intros WF Fe Hf. unfold generate_random_modules_allocation.
  unfold feasible in Fe.
  destruct (Z.ltb_spec (num_rockets s * rocket_capacity s)
                       (sumZ (module_amounts s))); [lia|].
  destruct (drawn_allocation_spec s w WF) as (m & w1 & E & Inv & Hn).
  pose proof WF as [Ht Hr Hm Ha].
  destruct (repair_loop_terminates (rocket_capacity s) (module_amounts s)
              (Z.to_nat (num_rockets s))) with (fuel := fuel) (m := m)
              (done := 0%nat)
    as (m' & n & E' & Inv' & G & Hn'); auto.
  - eapply Forall_impl; [|exact Ha]. intros a Hb; simpl in Hb; lia.
  - rewrite Z2Nat.id by lia. exact Fe.
  - pose proof (potential_le (rocket_capacity s) m (inv_rect _ _ _ Inv)).
    rewrite (inv_rows _ _ _ Inv), Hn in *. unfold enough_fuel in Hf. lia.
  - exists m', w1. split; [|split; auto].
    assert (Z0 := np_zeros_run world (num_rockets s) (num_module_types s) w
                    ltac:(lia) ltac:(lia)).
    rewrite (bind_return _ _ _ _ _ w _ w Z0).
    rewrite (bind_return _ _ _ _ _ w _ w1 E).
    rewrite (bind_return _ _ _ _ _ w1 (m', n) w1).
    + reflexivity.
    + unfold lift. rewrite E'. reflexivity.
Qed.

(** [generate_random_solution] returns a valid solution. *)
Lemma generate_random_solution_spec fuel (s : Settings F) w :
  well_formed s -> feasible s -> (enough_fuel s <= fuel)%nat ->
  exists sol w',
    generate_random_solution fuel s w = (Return sol, w')
    /\ is_valid_capacity sol s = true
    /\ is_valid_module_total sol s = true
    /\ distributes (module_amounts s) (Z.to_nat (num_rockets s))
         (module_allocation sol)
    /\ length (rocket_type_allocation sol) = Z.to_nat (num_rockets s)
    /\ Forall (fun t => 0 <= t < num_rocket_types s)
         (rocket_type_allocation sol).
Proof.
  intros WF Fe Hf. pose proof WF as [Ht Hr Hm Ha].
  unfold generate_random_solution, generate_random_rockets_type_allocation.
  destruct (np_randint_spec (num_rocket_types s) (num_rockets s) w Ht)
    as (types & w1 & E1 & L1 & F1 & _); [lia|].
  destruct (generate_random_modules_allocation_spec fuel s w1 WF Fe Hf)
    as (m & w2 & E2 & Inv & G).
  rewrite (bind_return _ _ _ _ _ _ _ _ E1).
  rewrite (bind_return _ _ _ _ _ _ _ _ E2).
  assert (V1 : is_valid_capacity
                 {| rocket_type_allocation := types; module_allocation := m |}
                 s = true).
  { unfold is_valid_capacity; simpl. apply no_overload_valid; auto. }
  assert (V2 : is_valid_module_total
                 {| rocket_type_allocation := types; module_allocation := m |}
                 s = true).
  { unfold is_valid_module_total; simpl. rewrite (inv_cols _ _ _ Inv).
    apply all_eq_refl. }
  rewrite V1, V2. simpl negb. cbv iota. unfold ret.
  eexists; eexists; split; [reflexivity|]. simpl. auto.
Qed.


(** On one rocket and one module type, an amount that does not fit an
    [int32] is stored wrapped: the generator's own check of the column
    sums fails on a feasible configuration. *)
Lemma generate_random_solution_wraps (s : Settings F) fuel n w :
  num_rocket_types s = 1 -> num_module_types s = 1 -> num_rockets s = 1 ->
  module_amounts s = [n] -> 2 ^ 31 <= n -> n <= rocket_capacity s ->
  exists w', generate_random_solution fuel s w = (Raise RuntimeError, w').
Proof.
  intros Ht Hm Hr Ha Hn Hc.
  unfold generate_random_solution, generate_random_rockets_type_allocation.
  rewrite Ht, Hr.
  destruct (np_randint_spec 1 1 w) as (types & w1 & E1 & _); [lia|lia|].
  rewrite (bind_return _ _ _ _ _ _ _ _ E1).
  destruct (multinomial_spec n 1 w1) as (v & w2 & E2 & L & _ & Sv & _);
    [lia|lia|].
  destruct v as [|x [|y v]]; simpl in L; try discriminate.
  simpl in Sv. assert (x = n) by lia. subst x. clear L Sv.
  assert (Ea : generate_random_modules_allocation fuel s w1
               = (Return {| ncols := 1; rows := [[wrap32 n]] |}, w2)).
  { unfold generate_random_modules_allocation. rewrite Hr, Hm, Ha.
    replace (1 * rocket_capacity s <? sumZ [n]) with false
      by (symmetry; apply Z.ltb_ge; change (sumZ [n]) with (n + 0); lia).
    rewrite (bind_return _ _ _ _ _ _ _ _ (np_zeros_run world 1 1 w1
               ltac:(lia) ltac:(lia))).
    unfold enumerate. cbn [length seq combine for_each fst snd].
    set (zeros := {| ncols := Z.to_nat 1;
                     rows := repeat (repeat 0 (Z.to_nat 1)) (Z.to_nat 1) |}).
    assert (A : (draw <- multinomial n 1 ;;
                 (if (0 <? ncols zeros)%nat
                  then ret (set_column zeros 0 draw)
                  else raise IndexError)) w1
                = (Return {| ncols := 1; rows := [[wrap32 n]] |}, w2))
      by (rewrite (bind_return _ _ _ _ _ _ _ _ E2); reflexivity).
    rewrite (bind_return _ _ _ _ _ _ _ _
               (bind_return _ _ _ _ (fun acc' => ret acc') _ _ _ A)).
    rewrite bind_run. unfold lift.
    assert (R : repair_loop fuel (rocket_capacity s)
                  {| ncols := 1; rows := [[wrap32 n]] |} 0
                = Return ({| ncols := 1; rows := [[wrap32 n]] |}, 0%nat)).
    { assert (G : existsb (fun x => rocket_capacity s <? x)
                    (row_sums {| ncols := 1; rows := [[wrap32 n]] |})
                  = false).
      { unfold row_sums. cbn [rows map sumZ existsb fold_right].
        rewrite orb_false_r. apply Z.ltb_ge.
        pose proof (Z.mod_pos_bound (n + 2 ^ 31) (2 ^ 32) ltac:(lia)).
        unfold wrap32. lia. }
      destruct fuel; cbn [repair_loop]; rewrite G; reflexivity. }
    rewrite R. reflexivity. }
  rewrite (bind_return _ _ _ _ _ _ _ _ Ea). cbv zeta.
  assert (V : is_valid_module_total
                {| rocket_type_allocation := types;
                   module_allocation :=
                     {| ncols := 1; rows := [[wrap32 n]] |} |} s = false).
  { unfold is_valid_module_total. rewrite Ha.
    unfold col_sums, column.
    cbn [ncols rows seq map module_allocation nth sumZ all_eq fold_right].
    rewrite andb_true_r. apply Z.eqb_neq.
    pose proof (Z.mod_pos_bound (n + 2 ^ 31) (2 ^ 32) ltac:(lia)).
    unfold wrap32. lia. }
  rewrite V, andb_false_r. simpl negb. cbv iota.
  exists w2. reflexivity.
Qed.
End Generator.

End GeneratorFacts.

(* ===================================================================== *)
(** * Sorting by cost, neighbourhood search and generations              *)
(* ===================================================================== *)

Module SearchFacts.
Import Runtime Model Algorithm Notions ListFacts GeneratorFacts.

(** ** Loops *)

(** A property of the accumulator that every iteration keeps holds when
    the loop returns. *)
Lemma for_each_invariant S A B (P : B -> Prop) (body : A -> B -> M S B) :
  forall xs acc s r s',
    (forall x a t a' t', In x xs -> P a -> body x a t = (Return a', t') ->
                         P a') ->
    P acc -> for_each xs body acc s = (Return r, s') -> P r.
Proof.
  induction xs as [|x xs IH]; intros acc s r s' Hb Hacc E.
  - simpl in E. unfold ret in E. inversion E; subst; auto.
  - simpl in E. rewrite bind_run in E.
    destruct (body x acc s) as [[a| |] t] eqn:Eb; try discriminate.
    eapply IH; [| |exact E].
    + intros; eapply Hb; eauto. right; auto.
    + eapply Hb; eauto. left; auto.
Qed.

Lemma map_m_results S A B (f : A -> M S B) :
  forall xs s ys s',
    map_m f xs s = (Return ys, s') ->
    Forall2 (fun x y => exists t t', f x t = (Return y, t')) xs ys.
Proof.
  induction xs as [|x xs IH]; intros s ys s' E.
  - simpl in E. unfold ret in E. inversion E; subst. constructor.
  - simpl in E. rewrite bind_run in E.
    destruct (f x s) as [[y| |] t] eqn:Ef; try discriminate.
    rewrite bind_run in E.
    destruct (map_m f xs t) as [[ys'| |] t'] eqn:Em; try discriminate.
    unfold ret in E. inversion E; subst. constructor; eauto.
Qed.

(** ** The stable sort *)

Section Sorting.

Variables (K A : Type) (lt : K -> K -> bool).
Hypothesis lt_irrefl : forall a, lt a a = false.
Hypothesis lt_asym : forall a b, lt a b = true -> lt b a = false.
Hypothesis lt_negtrans :
  forall a b c, lt a b = false -> lt b c = false -> lt a c = false.


Lemma in_insert_keyed (x y : K * A) l :
  In y (insert_keyed lt x l) <-> y = x \/ In y l.
Proof.
  induction l as [|h l IH]; simpl.
  - intuition.
  - destruct (lt (fst h) (fst x)); simpl; rewrite ?IH; intuition.
Qed.

Lemma in_sort_keyed (y : K * A) l : In y (sort_keyed lt l) <-> In y l.
Proof.
  induction l as [|h l IH]; simpl.
  - tauto.
  - rewrite in_insert_keyed, IH. intuition.
Qed.

Lemma length_insert_keyed (x : K * A) l :
  length (insert_keyed lt x l) = S (length l).
Proof.
  induction l as [|h l IH]; simpl; auto.
  destruct (lt (fst h) (fst x)); simpl; auto.
Qed.

Lemma length_sort_keyed (l : list (K * A)) : length (sort_keyed lt l) = length l.
Proof.
  induction l as [|h l IH]; simpl; auto.
  rewrite length_insert_keyed, IH. reflexivity.
Qed.

Lemma head_least_insert (x : K * A) l :
  head_least K A lt l -> head_least K A lt (insert_keyed lt x l).
Proof.
  destruct l as [|h l]; simpl; intros H.
  - constructor; auto.
  - destruct (lt (fst h) (fst x)) eqn:E; simpl.
    + unfold lower_bound in *. inversion H; subst.
      constructor; auto.
      apply Forall_forall. intros y Hy. apply in_insert_keyed in Hy.
      destruct Hy as [->|Hy]; auto.
      rewrite Forall_forall in H3. auto.
    + unfold lower_bound in *. constructor; auto. constructor; auto.
      inversion H; subst.
      eapply Forall_impl; [|exact H3]. intros y Hy; simpl in *.
      eapply lt_negtrans; eauto.
Qed.

Lemma head_least_sort (l : list (K * A)) :
  head_least K A lt (sort_keyed lt l).
Proof.
  induction l as [|h l IH]; simpl; auto. apply head_least_insert; auto.
Qed.

(** The first element of the sorted list is an element of the list, and
    no element has a smaller key. *)
Lemma sort_keyed_head (l : list (K * A)) h rest :
  sort_keyed lt l = h :: rest ->
  In h l /\ forall y, In y l -> lt (fst y) (fst h) = false.
Proof.
  intros E. split.
  - apply in_sort_keyed. rewrite E. left; auto.
  - intros y Hy. pose proof (head_least_sort l) as H. rewrite E in H.
    simpl in H. unfold lower_bound in H. rewrite Forall_forall in H.
    apply H. rewrite <- E. apply in_sort_keyed; auto.
Qed.

(** What [sorted] returns: the keys were computed, and the result is the
    stable sort of the keyed elements. *)
Lemma sorted_run S (key : A -> outcome K) l (s : S) r s' :
  sorted lt key l s = (Return r, s') ->
  exists keyed,
    r = map snd (sort_keyed lt keyed)
    /\ map snd keyed = l
    /\ Forall (fun ka => key (snd ka) = Return (fst ka)) keyed
    /\ s' = s.
Proof.
  unfold sorted. intros E. rewrite bind_run in E.
  destruct (map_m _ l s) as [[keyed| |] t] eqn:Em; try discriminate.
  unfold ret in E. inversion E; subst. exists keyed.
  split; auto.
  clear E. revert s keyed s' Em.
  induction l as [|a l IH]; intros s keyed s' Em.
  - simpl in Em. unfold ret in Em. inversion Em; subst. auto.
  - simpl in Em. rewrite bind_run in Em. rewrite bind_run in Em.
    unfold lift in Em.
    destruct (key a) as [k| |] eqn:Ek; try discriminate.
    unfold ret at 1 in Em. rewrite bind_run in Em.
    destruct (map_m _ l s) as [[keyed'| |] t] eqn:Em'; try discriminate.
    unfold ret in Em. inversion Em; subst.
    destruct (IH _ _ _ Em') as (E1 & E2 & E3).
    simpl. rewrite E1. repeat split; auto.
Qed.

End Sorting.


(** ** Python indices and ranges *)

Lemma getitem_0 A (l : list A) x :
  getitem l 0 = Some x -> exists rest, l = x :: rest.
Proof.
  unfold getitem, norm_index. destruct l as [|y l]; simpl.
  - discriminate.
  - intros E. inversion E; subst. eauto.
Qed.

Lemma norm_index_lt len i k :
  norm_index len i = Some k -> (k < len)%nat.
Proof.
  unfold norm_index.
  destruct (Z.leb_spec 0 i), (Z.ltb_spec i (Z.of_nat len)); simpl;
    try (intros E; inversion E; lia);
    destruct (Z.leb_spec (- Z.of_nat len) i), (Z.ltb_spec i 0); simpl;
    intros E; inversion E; lia.
Qed.

Lemma norm_index_pos len i k :
  1 <= i -> norm_index len i = Some k -> (1 <= k)%nat.
Proof.
  unfold norm_index. intros Hi.
  destruct (Z.leb_spec 0 i), (Z.ltb_spec i (Z.of_nat len)); simpl;
    try (intros E; inversion E; lia);
    destruct (Z.leb_spec (- Z.of_nat len) i), (Z.ltb_spec i 0); simpl;
    intros E; inversion E; lia.
Qed.

Lemma norm_index_none len i :
  Z.of_nat len <= i -> norm_index len i = None.
Proof.
  unfold norm_index. intros Hi.
  destruct (Z.leb_spec 0 i), (Z.ltb_spec i (Z.of_nat len)); simpl; try lia;
    destruct (Z.leb_spec (- Z.of_nat len) i), (Z.ltb_spec i 0); simpl;
    auto; lia.
Qed.

Lemma in_range a b x : In x (range a b) <-> a <= x < b.
Proof.
  unfold range. rewrite in_map_iff. split.
  - intros (k & <- & Hk). apply in_seq in Hk. lia.
  - intros H. exists (Z.to_nat (x - a)). split; [lia|].
    apply in_seq. lia.
Qed.

Lemma range_nil a b : b <= a -> range a b = [].
Proof.
  intros H. unfold range. replace (Z.to_nat (b - a)) with 0%nat by lia.
  reflexivity.
Qed.

Lemma range_cons a b : a < b -> range a b = a :: range (a + 1) b.
Proof.
  intros H. unfold range.
  replace (Z.to_nat (b - a)) with (S (Z.to_nat (b - (a + 1)))) by lia.
  simpl. f_equal; [lia|]. rewrite <- seq_shift, map_map.
  apply map_ext. intros k. lia.
Qed.

Lemma of_option_return S A e (o : option A) (s : S) a s' :
  of_option e o s = (Return a, s') -> o = Some a /\ s' = s.
Proof.
  destruct o; simpl; unfold ret, raise; intros E; inversion E; auto.
Qed.

Section Search.

Variable F : Type.
Variable fzero : F.
Variables fadd fmul : F -> F -> F.
Variable of_int : Z -> F.
Variable flt : F -> F -> bool.

(** Of [<] on floats: what holds of IEEE doubles other than NaN. *)
Hypothesis flt_irrefl : forall a, flt a a = false.
Hypothesis flt_asym : forall a b, flt a b = true -> flt b a = false.
Hypothesis flt_negtrans :
  forall a b c, flt a b = false -> flt b c = false -> flt a c = false.

Local Abbreviation cost := (calculate_cost fzero fadd fmul of_int).
Local Abbreviation head_within :=
  (Notions.head_within fzero fadd fmul of_int flt).
Local Abbreviation find_best_neighbour :=
  (Algorithm.find_best_neighbour fzero fadd fmul of_int flt).
Local Abbreviation exploit_site :=
  (Algorithm.exploit_site fzero fadd fmul of_int flt).
Local Abbreviation simulate_population :=
  (Algorithm.simulate_population fzero fadd fmul of_int flt).

(** What a ranking by cost returns first. *)
Lemma sorted_by_cost_run (self : BeesSolver F) l w r w' :
  sorted_by_cost fzero fadd fmul of_int flt self l w = (Return r, w') ->
  w' = w /\ length r = length l
  /\ (forall s, In s l -> exists c, cost s (settings self) = Return c)
  /\ (forall h rest, r = h :: rest ->
        In h l /\
        exists ch, cost h (settings self) = Return ch
          /\ forall s, In s l ->
               exists c, cost s (settings self) = Return c
                         /\ flt c ch = false).
Proof.
  unfold sorted_by_cost. intros E.
  apply sorted_run in E. destruct E as (keyed & Er & El & Fk & Ew).
  rewrite Forall_forall in Fk.
  assert (Hkey : forall s, In s l -> exists c, In (c, s) keyed).
  { intros s Hs. rewrite <- El in Hs. apply in_map_iff in Hs.
    destruct Hs as ([c s'] & <- & Hin). exists c; auto. }
  split; [exact Ew|]. split; [|split].
  - rewrite Er, length_map, length_sort_keyed, <- El, length_map.
    reflexivity.
  - intros s Hs. destruct (Hkey s Hs) as (c & Hc). exists c.
    apply (Fk _ Hc).
  - intros h rest Eh. rewrite Er in Eh.
    destruct (sort_keyed flt keyed) as [|[kh h'] srest] eqn:Es;
      simpl in Eh; [discriminate|]. inversion Eh; subst h' rest.
    destruct (sort_keyed_head F Solution flt flt_irrefl flt_asym
                flt_negtrans keyed _ _ Es) as (Hin & Hmin).
    split.
    + rewrite <- El. apply in_map_iff. exists (kh, h); auto.
    + exists kh. split; [apply (Fk _ Hin)|].
      intros s Hs. destruct (Hkey s Hs) as (c & Hc). exists c. split.
      * apply (Fk _ Hc).
      * apply (Hmin _ Hc).
Qed.

(** The neighbourhood search returns a solution that costs no more than
    the one it was given. *)
Lemma find_best_neighbour_not_worse (self : BeesSolver F) s k w best w' :
  find_best_neighbour self s k w = (Return best, w') ->
  exists cb cs,
    cost best (settings self) = Return cb
    /\ cost s (settings self) = Return cs
    /\ flt cs cb = false.
Proof.
  unfold Algorithm.find_best_neighbour. intros E.
  rewrite bind_run in E.
  destruct (map_m _ _ w) as [[neighbours| |] w1] eqn:Em; try discriminate.
  rewrite bind_run in E.
  destruct (sorted_by_cost _ _ _ _ _ _ _ w1) as [[ranked| |] w2] eqn:Es;
    try discriminate.
  apply of_option_return in E. destruct E as [E _].
  apply getitem_0 in E. destruct E as (rest & ->).
  apply sorted_by_cost_run in Es. destruct Es as (_ & _ & _ & Hhead).
  destruct (Hhead best rest eq_refl) as (_ & cb & Hcb & Hmin).
  destruct (Hmin s) as (cs & Hcs & Hle).
  { apply in_or_app. right. left. reflexivity. }
  exists cb, cs. auto.
Qed.

(** ** One generation *)

Lemma exploit_site_run self size i p w p' w' :
  exploit_site self size i p w = (Return p', w') ->
  exists k s best w1,
    norm_index (length p) i = Some k
    /\ nth_error p k = Some s
    /\ find_best_neighbour self s size w = (Return best, w1)
    /\ p' = upd k best p.
Proof.
  unfold Algorithm.exploit_site. intros E. rewrite bind_run in E.
  destruct (of_option IndexError (getitem p i) w) as [[s| |] w0] eqn:Eg;
    try discriminate.
  apply of_option_return in Eg. destruct Eg as [Eg ->].
  rewrite bind_run in E.
  destruct (Algorithm.find_best_neighbour _ _ _ _ _ self s size w)
    as [[best| |] w1] eqn:Ef; try discriminate.
  apply of_option_return in E. destruct E as [E _].
  unfold getitem in Eg. unfold setitem in E.
  destruct (norm_index (length p) i) as [k|]; [|discriminate].
  inversion E; subst. exists k, s, best, w1. auto.
Qed.

Lemma scout_site_run fuel (self : BeesSolver F) i p w p' w' :
  scout_site fuel self i p w = (Return p', w') ->
  exists k s, norm_index (length p) i = Some k /\ p' = upd k s p.
Proof.
  unfold scout_site. intros E. rewrite bind_run in E.
  destruct (generate_random_solution fuel (settings self) w)
    as [[s| |] w1]; try discriminate.
  apply of_option_return in E. destruct E as [E _].
  unfold setitem in E.
  destruct (norm_index (length p) i) as [k|]; [|discriminate].
  inversion E; subst. eauto.
Qed.

Lemma exploit_site_empty self size i w :
  exploit_site self size i [] w = (Raise IndexError, w).
Proof.
  unfold Algorithm.exploit_site. rewrite bind_run.
  unfold getitem. simpl length.
  replace (norm_index 0 i) with (@None nat); [reflexivity|].
  unfold norm_index. change (Z.of_nat 0) with 0. change (- 0) with 0.
  destruct (Z.leb_spec 0 i), (Z.ltb_spec i 0); simpl; auto; lia.
Qed.


Lemma exploit_keeps_head self m size i p w p' w' :
  head_within self m p ->
  exploit_site self size i p w = (Return p', w') ->
  head_within self m p'.
Proof.
  intros (h & c & Hh & Hc & Hm) E.
  apply exploit_site_run in E.
  destruct E as (k & s & best & w1 & Hk & Hs & Ef & ->).
  destruct k as [|k].
  - rewrite Hh in Hs. inversion Hs; subst s.
    apply find_best_neighbour_not_worse in Ef.
    destruct Ef as (cb & cs & Hcb & Hcs & Hle).
    rewrite Hc in Hcs. inversion Hcs; subst cs.
    exists best, cb. split; [|split; auto].
    + destruct p; simpl in *; [discriminate|reflexivity].
    + eapply flt_negtrans; eauto.
  - exists h, c. split; auto.
    rewrite nth_error_upd_neq by lia. exact Hh.
Qed.

Lemma scout_keeps_head fuel self m i p w p' w' :
  1 <= i ->
  head_within self m p ->
  scout_site fuel self i p w = (Return p', w') ->
  head_within self m p'.
Proof.
  intros Hi (h & c & Hh & Hc & Hm) E.
  apply scout_site_run in E. destruct E as (k & s & Hk & ->).
  pose proof (norm_index_pos _ _ _ Hi Hk).
  exists h, c. split; auto.
  rewrite nth_error_upd_neq by lia. exact Hh.
Qed.

(** With at least one exploited site, a generation that completes leaves
    in the first slot a solution that costs no more than any solution of
    the population it started from. *)
Lemma simulate_population_best fuel (self : BeesSolver F) w self' w' :
  1 <= elite_sites self + normal_sites self ->
  simulate_population fuel self w = (Return self', w') ->
  exists best cb,
    nth_error (population self') 0 = Some best
    /\ cost best (settings self) = Return cb
    /\ forall s, In s (population self) ->
         exists cs, cost s (settings self) = Return cs
                    /\ flt cs cb = false.
Proof.
  intros Hsites E. unfold Algorithm.simulate_population in E.
  rewrite bind_run in E.
  destruct (sorted_by_cost _ _ _ _ _ self (population self) w)
    as [[p0| |] w0] eqn:Es; try discriminate.
  rewrite bind_run in E.
  destruct (for_each (range 0 (elite_sites self)) _ p0 w0)
    as [[p1| |] w1] eqn:E1; try discriminate.
  rewrite bind_run in E.
  destruct (for_each (range (elite_sites self) _) _ p1 w1)
    as [[p2| |] w2] eqn:E2; try discriminate.
  rewrite bind_run in E.
  destruct (for_each (range (elite_sites self + normal_sites self) _) _ p2 w2)
    as [[p3| |] w3] eqn:E3; try discriminate.
  unfold ret in E. inversion E; subst self' w'. simpl. clear E.
  apply sorted_by_cost_run in Es. destruct Es as (_ & _ & _ & Hhead).
  destruct p0 as [|h0 rest0].
  - (* an empty population: the first exploited site raises *)
    exfalso.
    destruct (Z.lt_ge_cases 0 (elite_sites self)) as [L|L].
    + rewrite range_cons in E1 by lia. simpl in E1.
      rewrite bind_run, exploit_site_empty in E1. discriminate.
    + rewrite range_nil in E1 by lia. simpl in E1. unfold ret in E1.
      inversion E1; subst p1 w1.
      rewrite range_cons in E2 by lia. simpl in E2.
      rewrite bind_run, exploit_site_empty in E2. discriminate.
  - destruct (Hhead h0 rest0 eq_refl) as (_ & m & Hm & Hmin).
    assert (P0 : head_within self m (h0 :: rest0)).
    { exists h0, m. auto. }
    assert (P1 : head_within self m p1).
    { eapply for_each_invariant; [| exact P0 | exact E1].
      intros x a t a' t' _ Pa Eb. eapply exploit_keeps_head; eauto. }
    assert (P2 : head_within self m p2).
    { eapply for_each_invariant; [| exact P1 | exact E2].
      intros x a t a' t' _ Pa Eb. eapply exploit_keeps_head; eauto. }
    assert (P3 : head_within self m p3).
    { eapply for_each_invariant; [| exact P2 | exact E3].
      intros x a t a' t' Hx Pa Eb. apply in_range in Hx.
      eapply scout_keeps_head; [| exact Pa | exact Eb]. lia. }
    destruct P3 as (best & cb & Hb & Hcb & Hle).
    exists best, cb. split; [exact Hb|]. split; [exact Hcb|].
    intros s Hs. destruct (Hmin s Hs) as (cs & Hcs & Hsm).
    exists cs. split; [exact Hcs|]. eapply flt_negtrans; eauto.
Qed.

End Search.

End SearchFacts.

(* ===================================================================== *)
(** * The mutation operators                                             *)
(* ===================================================================== *)

Module MutationFacts.
Import Runtime Model Algorithm Notions ListFacts MatrixFacts RepairFacts
       GeneratorFacts SearchFacts.

(** ** Python's random source *)


Lemma randrange_run n w :
  0 < n -> randrange n w = (Return (py_peek w mod n), py_advance w).
Proof.
  intros H. unfold randrange. destruct (Z.leb_spec n 0); [lia|].
  reflexivity.
Qed.

Lemma randrange_raise n w :
  n <= 0 -> randrange n w = (Raise ValueError, w).
Proof.
  intros H. unfold randrange. destruct (Z.leb_spec n 0); [|lia].
  reflexivity.
Qed.

Lemma randint_run a b w :
  a <= b ->
  randint a b w = (Return (a + py_peek w mod (b + 1 - a)), py_advance w).
Proof.
  intros H. unfold randint. destruct (Z.leb_spec (b + 1 - a) 0); [lia|].
  reflexivity.
Qed.

Lemma randrange_return n w v w' :
  randrange n w = (Return v, w') -> v = py_peek w mod n /\ w' = py_advance w.
Proof.
  unfold randrange. destruct (n <=? 0); [discriminate|].
  intros E. inversion E. auto.
Qed.

(** A draw between [a] and a numpy scalar whose successor fits an
    [int32] is the draw of [random.randint] on Python integers. *)
Lemma randint_np_run t a b w :
  a <= b -> - 2 ^ 31 <= b + 1 < 2 ^ 31 ->
  randint_np t a b w
  = (Return (a + py_peek w mod (b + 1 - a)), py_advance w).
Proof.
  intros H B. unfold randint_np.
  replace (match t with int32 => wrap32 (b + 1) | int64 => b + 1 end)
    with (b + 1) by (destruct t; [rewrite wrap32_small by exact B|];
                     reflexivity).
  cbv zeta. destruct (Z.leb_spec (b + 1 - a) 0); [lia|]. reflexivity.
Qed.

(** At the largest [int32] the end of the range wraps below its start. *)
Lemma randint_np_wraps a w :
  - 2 ^ 31 < a ->
  randint_np int32 a (2 ^ 31 - 1) w = (Raise ValueError, w).
Proof.
  intros H. unfold randint_np.
  replace (wrap32 (2 ^ 31 - 1 + 1)) with (- 2 ^ 31) by reflexivity.
  cbv zeta. destruct (Z.leb_spec (- 2 ^ 31 - a) 0); [reflexivity|lia].
Qed.

Lemma randint_np_return t a b w v w' :
  randint_np t a b w = (Return v, w') ->
  w' = py_advance w
  /\ a <= v
  /\ (t = int64 -> v <= b)
  /\ (t = int32 -> - 2 ^ 31 <= b < 2 ^ 31 -> v <= b).
Proof.
  unfold randint_np. cbv zeta.
  destruct (Z.leb_spec
              (match t with int32 => wrap32 (b + 1) | int64 => b + 1 end - a)
              0) as [L|L]; [discriminate|].
  intros E. inversion E; subst. split; [reflexivity|].
  pose proof (Z.mod_pos_bound (py_peek w) _ L) as B. unfold py_peek in B.
  split; [lia|]. split.
  - intros ->. lia.
  - intros -> Hb. destruct (Z.eq_dec b (2 ^ 31 - 1)) as [->|N].
    + replace (wrap32 (2 ^ 31 - 1 + 1)) with (- 2 ^ 31) in *
        by reflexivity. lia.
    + rewrite wrap32_small in * by lia. lia.
Qed.

Lemma choice_run A (seq : list A) w :
  seq <> [] ->
  exists a, choice seq w = (Return a, py_advance w) /\ In a seq.
Proof.
  intros H. destruct seq as [|x seq]; [congruence|].
  unfold choice. rewrite (bind_return _ _ _ _ _ w (py_peek w) (py_advance w))
    by reflexivity.
  set (l := x :: seq).
  pose proof (Z.mod_pos_bound (py_peek w) (Z.of_nat (length l))
                ltac:(simpl; lia)) as B.
  destruct (nth_error l (Z.to_nat (py_peek w mod Z.of_nat (length l))))
    as [a|] eqn:E.
  - exists a. split; [reflexivity|]. eapply nth_error_In; eauto.
  - apply nth_error_None in E. lia.
Qed.

Lemma choice_empty A w : @choice A [] w = (Raise IndexError, w).
Proof. reflexivity. Qed.

Lemma choice_return A (seq : list A) w a w' :
  choice seq w = (Return a, w') -> w' = py_advance w /\ In a seq.
Proof.
  destruct seq as [|x seq]; [discriminate|].
  unfold choice.
  rewrite (bind_return _ _ _ _ _ w (py_peek w) (py_advance w) eq_refl).
  intros E. apply of_option_return in E. destruct E as [E ->].
  split; [reflexivity|]. eapply nth_error_In; exact E.
Qed.

Lemma in_world_run X A (c : M world A) (w : world) (x : X) :
  in_world c (w, x) = (fst (c w), (snd (c w), x)).
Proof. unfold in_world. simpl. destruct (c w); reflexivity. Qed.

(** ** [np.argwhere] *)

Lemma in_argwhere_from p l : forall i k,
  In k (argwhere_from p i l) <->
  (i <= k < i + length l)%nat /\ p (nth (k - i) l 0) = true.
Proof.
  induction l as [|x l IH]; intros i k; simpl.
  - split; [tauto|lia].
  - destruct (p x) eqn:Px; simpl; rewrite IH.
    + split.
      * intros [<-|[H1 H2]].
        -- rewrite Nat.sub_diag. split; [lia|auto].
        -- destruct (k - i)%nat as [|d] eqn:D; [lia|].
           replace (k - S i)%nat with d in H2 by lia. split; [lia|auto].
      * intros [H1 H2]. destruct (k - i)%nat as [|d] eqn:D.
        -- left; lia.
        -- right. replace (k - S i)%nat with d by lia. split; [lia|auto].
    + split.
      * intros [H1 H2]. destruct (k - i)%nat as [|d] eqn:D; [lia|].
        replace (k - S i)%nat with d in H2 by lia. split; [lia|auto].
      * intros [H1 H2]. destruct (k - i)%nat as [|d] eqn:D.
        -- congruence.
        -- replace (k - S i)%nat with d by lia. split; [lia|auto].
Qed.

Lemma in_argwhere p l k :
  In k (argwhere p l) <-> (k < length l)%nat /\ p (nth k l 0) = true.
Proof.
  unfold argwhere. rewrite in_argwhere_from. rewrite Nat.sub_0_r.
  split; intros [H1 H2]; split; auto; lia.
Qed.

(** ** Moving modules inside one rocket *)

Lemma upd_upd A k (x y : A) l : upd k x (upd k y l) = upd k x l.
Proof.
  revert k; induction l as [|z l IH]; intros [|k]; simpl; auto.
  f_equal; apply IH.
Qed.

Lemma upd_same A k (x : A) l : nth_error l k = Some x -> upd k x l = l.
Proof.
  revert k; induction l as [|z l IH]; intros [|k] H; simpl in *;
    try discriminate; auto.
  - inversion H; reflexivity.
  - f_equal; apply IH; auto.
Qed.

Lemma transfer_same m i j t r :
  nth_error (rows m) i = Some r -> (j < length r)%nat ->
  0 <= t <= nth j r 0 -> nth j r 0 < 2 ^ 31 ->
  add_cell (add_cell m i j (- t)) i j t = m.
Proof.
  intros Hr Hj Ht B.
  assert (C : cell m i j = Some (nth j r 0)) by (apply cell_nth; auto).
  rewrite (add_cell_exact m i j (- t) _ C) by lia.
  pose proof (row_add_exact m i j (- t) r Hr Hj) as Hr1.
  set (m1 := add_exact m i j (- t)) in *.
  assert (L1 : length (upd j (nth j r 0 + - t) r) = length r)
    by apply upd_length.
  assert (C1 : cell m1 i j = Some (nth j r 0 + - t)).
  { rewrite (cell_nth m1 i j _ Hr1) by lia. rewrite nth_upd_eq; auto. }
  rewrite (add_cell_exact m1 i j t _ C1) by lia.
  unfold add_exact at 1. rewrite C1.
  unfold set_cell. rewrite Hr1.
  unfold m1. rewrite (rows_add_exact m i j (- t) r Hr Hj).
  rewrite !upd_upd. rewrite ncols_add_exact.
  replace (nth j r 0 + - t + t) with (nth j r 0) by lia.
  rewrite (upd_same _ j (nth j r 0) r) by (apply nth_error_nth'; auto).
  rewrite (upd_same _ i r (rows m) Hr).
  destruct m; reflexivity.
Qed.


Section Mutation.

Variable F : Type.


Lemma forallb_le cap l :
  Forall (fun x => x <= cap) l <-> forallb (fun x => x <=? cap) l = true.
Proof.
  rewrite forallb_forall, Forall_forall. split; intros H x Hx.
  - apply Z.leb_le; auto.
  - apply Z.leb_le; auto.
Qed.



(** The run of a module-transfer mutation that finds a destination and a
    source. *)
Lemma mutate_modules_allocation_run (self : BeesSolver F) sol w :
  let s := settings self in
  let j := chosen_module_type s w in
  0 < num_module_types s ->
  (j < ncols (module_allocation sol))%nat ->
  argwhere (fun c => 0 <? c) (remaining s sol) <> [] ->
  argwhere (fun a => 0 <? a) (column (module_allocation sol) j) <> [] ->
  Forall (fun a => a < 2 ^ 31 - 1) (column (module_allocation sol) j) ->
  exists to from amount w',
    In to (argwhere (fun c => 0 <? c) (remaining s sol))
    /\ In from (argwhere (fun a => 0 <? a)
                         (column (module_allocation sol) j))
    /\ 1 <= amount
    /\ amount <= nth j (nth from (rows (module_allocation sol)) []) 0
    /\ amount <= nth to (remaining s sol) 0
    /\ mutate_modules_allocation self (w, sol) =
       (Return tt,
        (w', {| rocket_type_allocation := rocket_type_allocation sol;
                module_allocation :=
                  add_cell (add_cell (module_allocation sol) from j (- amount))
                           to j amount |})).
Proof.
  intros s j HM Hj Hto Hfrom Hsmall.
  destruct (choice_run _ _ (py_advance w) Hto) as (to & Eto & Ito).
  destruct (choice_run _ _ (py_advance (py_advance w)) Hfrom)
    as (from & Efrom & Ifrom).
  set (mx := Z.min (nth j (nth from (rows (module_allocation sol)) []) 0)
                   (nth to (remaining s sol) 0)).
  assert (Hmx : 1 <= mx < 2 ^ 31 - 1).
  { apply in_argwhere in Ito, Ifrom. destruct Ito as [_ Ito].
    destruct Ifrom as [Lf Ifrom]. apply Z.ltb_lt in Ito, Ifrom.
    assert (nth from (column (module_allocation sol) j) 0 =
            nth j (nth from (rows (module_allocation sol)) []) 0) as Ec.
    { unfold column.
      rewrite (nth_indep _ 0 (nth j [] 0)) by exact Lf.
      rewrite (map_nth (fun r => nth j r 0)). reflexivity. }
    rewrite Forall_forall in Hsmall.
    pose proof (Hsmall _ (nth_In _ 0 Lf)) as Hs. rewrite Ec in Hs.
    unfold mx. lia. }
  assert (Eamt : forall t,
            randint_np t 1 mx (py_advance (py_advance (py_advance w)))
            = (Return (1 + py_peek (py_advance (py_advance (py_advance w)))
                           mod (mx + 1 - 1)),
               py_advance (py_advance (py_advance (py_advance w)))))
    by (intros t; apply randint_np_run; lia).
  set (amount := 1 + py_peek (py_advance (py_advance (py_advance w)))
                     mod (mx + 1 - 1)) in *.
  assert (Hamt : 1 <= amount <= mx).
  { unfold amount.
    pose proof (Z.mod_pos_bound
                  (py_peek (py_advance (py_advance (py_advance w))))
                  (mx + 1 - 1) ltac:(lia)). lia. }
  exists to, from, amount, (py_advance (py_advance (py_advance (py_advance w)))).
  split; [exact Ito|]. split; [exact Ifrom|].
  split; [lia|]. split; [unfold mx in Hamt; lia|].
  split; [unfold mx in Hamt; lia|].
  unfold mutate_modules_allocation.
  rewrite (bind_return _ _ _ this _ (w, sol) sol (w, sol) eq_refl).
  cbv zeta.
  rewrite (bind_return _ _ _ _ _ (w, sol)
             (py_peek w mod num_module_types (settings self))
             (py_advance w, sol))
    by (rewrite in_world_run, randrange_run by exact HM; reflexivity).
  rewrite (bind_return _ _ _ _ _ (py_advance w, sol) to
             (py_advance (py_advance w), sol))
    by (rewrite in_world_run; unfold remaining, s in Eto; rewrite Eto;
        reflexivity).
  fold s. fold (chosen_module_type s w). fold j.
  apply Nat.ltb_lt in Hj. rewrite Hj.
  rewrite (bind_return _ _ _ _ _ (py_advance (py_advance w), sol) from
             (py_advance (py_advance (py_advance w)), sol))
    by (rewrite in_world_run, Efrom; reflexivity).
  rewrite (bind_return _ _ _ _ _
             (py_advance (py_advance (py_advance w)), sol) amount
             (py_advance (py_advance (py_advance (py_advance w))), sol))
    by (rewrite in_world_run; fold (remaining s sol); fold mx;
        rewrite Eamt; reflexivity).
  reflexivity.
Qed.

Lemma nth_map_lt A B (f : A -> B) l k d d' :
  (k < length l)%nat -> nth k (map f l) d' = f (nth k l d).
Proof.
  intros H. rewrite (nth_indep _ d' (f d)) by (rewrite length_map; exact H).
  apply map_nth.
Qed.

Lemma argwhere_nonempty p l k :
  (k < length l)%nat -> p (nth k l 0) = true -> argwhere p l <> [].
Proof.
  intros H1 H2 E.
  assert (In k (argwhere p l)) as Hin by (apply in_argwhere; auto).
  rewrite E in Hin. inversion Hin.
Qed.

(** Moving [amount] modules of type [j] between two rockets, no more than
    the source holds and the destination has room for, keeps a solution
    feasible. *)
Lemma transfer_feasible (s : Settings F) sol to from j amount :
  well_formed s -> feasible_solution s sol ->
  (j < ncols (module_allocation sol))%nat ->
  (to < length (rows (module_allocation sol)))%nat ->
  (from < length (rows (module_allocation sol)))%nat ->
  1 <= amount ->
  amount <= nth j (nth from (rows (module_allocation sol)) []) 0 ->
  amount <= nth to (remaining s sol) 0 ->
  feasible_solution s
    {| rocket_type_allocation := rocket_type_allocation sol;
       module_allocation :=
         add_cell (add_cell (module_allocation sol) from j (- amount))
                  to j amount |}.
Proof.
  intros WF FS Hj Lto Lfrom A1 A2 A3. unfold remaining in A3.
  remember (module_allocation sol) as alloc eqn:Ealloc in *.
  pose proof FS as [Tl Tr Inv Cap]. rewrite <- Ealloc in Inv, Cap.
  pose proof Inv as [Hrows Hrect Hnn Hcols].
  pose proof WF as [Wt Wr Wm Wa].
  assert (Hint : Forall (fun a => a < 2 ^ 31) (module_amounts s)).
  { eapply Forall_impl; [|exact Wa]. intros a Ha; simpl in Ha; lia. }
  destruct (nth_error (rows alloc) from) as [rf|] eqn:Ef;
    [|apply nth_error_None in Ef; lia].
  destruct (nth_error (rows alloc) to) as [rt|] eqn:Et;
    [|apply nth_error_None in Et; lia].
  rewrite (nth_of_nth_error _ _ _ _ [] Ef) in A2.
  assert (Srt : nth to (map (fun x => rocket_capacity s - x) (row_sums alloc)) 0
                = rocket_capacity s - sumZ rt).
  { rewrite (nth_map_lt _ _ _ _ _ 0)
      by (unfold row_sums; rewrite length_map; exact Lto).
    f_equal. apply nth_of_nth_error. unfold row_sums.
    rewrite nth_error_map, Et. reflexivity. }
  rewrite Srt in A3.
  assert (Lrf : length rf = ncols alloc) by (eapply rect_row; eauto).
  assert (Lrt : length rt = ncols alloc) by (eapply rect_row; eauto).
  destruct (Nat.eq_dec from to) as [->|N].
  - (* the rocket gives to itself: nothing changes *)
    assert (B : nth j rf 0 < 2 ^ 31).
    { pose proof (col_sum_int32 _ _ Hint alloc j Inv Hj) as Q1.
      pose proof (nth_le_sumZ (column alloc j) to (column_nonneg _ _ Hnn))
        as Q2.
      rewrite (nth_column alloc to j rf Ef) in Q2. lia. }
    rewrite (transfer_same alloc to j amount rf Ef) by lia.
    rewrite Ealloc. destruct sol; exact FS.
  - destruct (transfer_exact _ _ Hint alloc from to j amount rf rt
                Inv Ef Et N Hj) as (Inv' & Hrows' & Hn'); [lia|].
    constructor; simpl; auto.
    unfold row_sums. rewrite Hrows'. rewrite !map_upd.
    apply Forall_upd; [apply Forall_upd|]; auto.
    + rewrite sumZ_upd by lia.
      assert (sumZ rf <= rocket_capacity s).
      { rewrite Forall_forall in Cap. apply Cap. unfold row_sums.
        apply in_map. eapply nth_error_In; eauto. }
      lia.
    + rewrite sumZ_upd by lia. lia.
Qed.

(** In a feasible solution the cells of a column are at most its
    amount. *)
Lemma column_le_amount (s : Settings F) sol j :
  feasible_solution s sol -> (j < ncols (module_allocation sol))%nat ->
  Forall (fun a => a <= nth j (module_amounts s) 0)
         (column (module_allocation sol) j).
Proof.
  intros [_ _ [_ _ Hnn Hcols] _] Hj.
  apply Forall_forall. intros a Ha. apply (In_nth _ _ 0) in Ha.
  destruct Ha as (k & _ & <-).
  pose proof (nth_le_sumZ (column (module_allocation sol) j) k
                (column_nonneg _ j Hnn)) as Le.
  rewrite <- (nth_col_sums _ j Hj), Hcols in Le. exact Le.
Qed.

Lemma column_lt_bound (s : Settings F) sol j b :
  feasible_solution s sol -> Forall (fun a => a < b) (module_amounts s) ->
  (j < ncols (module_allocation sol))%nat ->
  Forall (fun a => a < b) (column (module_allocation sol) j).
Proof.
  intros FS Hb Hj.
  assert (Hin : In (nth j (module_amounts s) 0) (module_amounts s)).
  { apply nth_In. destruct FS as [_ _ [_ _ _ Hcols] _]. rewrite <- Hcols.
    unfold col_sums. rewrite length_map, length_seq. exact Hj. }
  rewrite Forall_forall in Hb. specialize (Hb _ Hin).
  eapply Forall_impl; [|exact (column_le_amount s sol j FS Hj)].
  intros a Ha. simpl in Ha. lia.
Qed.

(** A module-transfer mutation that finds a destination and a source keeps
    the solution feasible; the amounts are below the largest [int32], so
    that the end of the range of the draw does not wrap. *)
Lemma mutate_modules_allocation_feasible (self : BeesSolver F) sol w :
  let s := settings self in
  well_formed s ->
  Forall (fun a => a < 2 ^ 31 - 1) (module_amounts s) ->
  feasible_solution s sol ->
  Exists (fun x => x < rocket_capacity s)
         (row_sums (module_allocation sol)) ->
  Exists (fun r => 0 < nth (chosen_module_type s w) r 0)
         (rows (module_allocation sol)) ->
  exists w' sol',
    mutate_modules_allocation self (w, sol) = (Return tt, (w', sol'))
    /\ feasible_solution s sol'.
Proof.
  cbv zeta. intros WF Hlim FS H1 H2.
  pose proof (mutate_modules_allocation_run self sol w) as Run.
  cbv zeta in Run.
  remember (settings self) as s eqn:Es in *.
  remember (chosen_module_type s w) as j eqn:Ej in *.
  pose proof FS as [Tl Tr Inv Cap].
  pose proof Inv as [Hrows Hrect Hnn Hcols].
  pose proof WF as [Wt Wr Wm Wa].
  (* a source exists: the chosen type is a column *)
  apply Exists_nth in H2. destruct H2 as (f0 & d0 & Lf0 & Hf0).
  assert (Ef0 : nth_error (rows (module_allocation sol)) f0
                = Some (nth f0 (rows (module_allocation sol)) d0))
    by (apply nth_error_nth'; exact Lf0).
  assert (Hj : (j < ncols (module_allocation sol))%nat).
  { rewrite <- (rect_row _ _ _ Hrect Ef0).
    destruct (Nat.lt_ge_cases j
                (length (nth f0 (rows (module_allocation sol)) d0))); auto.
    rewrite nth_overflow in Hf0 by auto. lia. }
  assert (Ncols : ncols (module_allocation sol) = length (module_amounts s)).
  { rewrite <- Hcols. unfold col_sums. rewrite length_map, length_seq.
    reflexivity. }
  assert (HM : 0 < num_module_types s) by lia.
  assert (Hfrom : argwhere (fun a => 0 <? a)
                    (column (module_allocation sol) j) <> []).
  { apply (argwhere_nonempty _ _ f0).
    - rewrite column_length. exact Lf0.
    - rewrite (nth_column _ _ _ _ Ef0). apply Z.ltb_lt. exact Hf0. }
  (* a destination exists *)
  apply Exists_nth in H1. destruct H1 as (t0 & d1 & Lt0 & Ht0).
  assert (Hto : argwhere (fun c => 0 <? c) (remaining s sol) <> []).
  { unfold remaining. apply (argwhere_nonempty _ _ t0).
    - rewrite length_map. exact Lt0.
    - rewrite (nth_map_lt _ _ _ _ _ d1) by exact Lt0.
      apply Z.ltb_lt. lia. }
  destruct (Run HM Hj Hto Hfrom (column_lt_bound s sol j _ FS Hlim Hj))
    as (to & from & amount & w' & Ito & Ifrom & A1 & A2 & A3 & E).
  clear Run.
  exists w'. eexists. split; [exact E|].
  apply in_argwhere in Ito, Ifrom.
  destruct Ito as [Lto _]. destruct Ifrom as [Lfrom _].
  unfold remaining in Lto. rewrite length_map in Lto.
  rewrite column_length in Lfrom.
  unfold nrows in Lfrom. unfold row_sums in Lto. rewrite length_map in Lto.
  apply transfer_feasible; auto.
Qed.

(** A module-transfer mutation that returns has moved modules of the
    drawn type from a rocket that holds some to a rocket with room, no
    more than the one holds and the other has room for. *)
Lemma mutate_modules_allocation_return (self : BeesSolver F)
  sol w u w' sol' :
  let s := settings self in
  let j := chosen_module_type s w in
  ((j < ncols (module_allocation sol))%nat ->
   Forall (fun a => a < 2 ^ 31) (column (module_allocation sol) j)) ->
  mutate_modules_allocation self (w, sol) = (Return u, (w', sol')) ->
  exists to from amount,
    (j < ncols (module_allocation sol))%nat
    /\ In to (argwhere (fun c => 0 <? c) (remaining s sol))
    /\ In from (argwhere (fun a => 0 <? a)
                         (column (module_allocation sol) j))
    /\ 1 <= amount
    /\ amount <= nth j (nth from (rows (module_allocation sol)) []) 0
    /\ amount <= nth to (remaining s sol) 0
    /\ sol' = {| rocket_type_allocation := rocket_type_allocation sol;
                 module_allocation :=
                   add_cell
                     (add_cell (module_allocation sol) from j (- amount))
                     to j amount |}.
Proof.
  cbv zeta. unfold mutate_modules_allocation. intros Hcol E.
  rewrite (bind_return _ _ _ this _ (w, sol) sol (w, sol) eq_refl) in E.
  cbv zeta in E.
  rewrite bind_run, in_world_run in E.
  destruct (randrange _ w) as [[mti|e1|] w1] eqn:E1; simpl in E;
    try discriminate.
  apply randrange_return in E1. destruct E1 as [-> ->].
  rewrite bind_run, in_world_run in E.
  destruct (choice _ (py_advance w)) as [[to|e2|] w2] eqn:E2; simpl in E;
    try discriminate.
  apply choice_return in E2. destruct E2 as [-> Ito].
  fold (chosen_module_type (settings self) w) in E.
  fold (remaining (settings self) sol) in E, Ito.
  set (j := chosen_module_type (settings self) w) in *.
  destruct (j <? ncols (module_allocation sol))%nat eqn:Hj;
    [|discriminate].
  apply Nat.ltb_lt in Hj. specialize (Hcol Hj).
  rewrite bind_run, in_world_run in E.
  destruct (choice _ _) as [[from|e3|] w3] eqn:E3; simpl in E;
    try discriminate.
  apply choice_return in E3. destruct E3 as [-> Ifrom].
  rewrite bind_run, in_world_run in E.
  set (held := nth j (nth from (rows (module_allocation sol)) []) 0) in *.
  set (room := nth to (remaining (settings self) sol) 0) in *.
  destruct (randint_np _ _ _ _) as [[amount|e4|] w4] eqn:E4; simpl in E;
    try discriminate.
  apply randint_np_return in E4. destruct E4 as (-> & A1 & A64 & A32).
  assert (Hheld : 0 < held < 2 ^ 31).
  { pose proof Ifrom as Ifrom'. apply in_argwhere in Ifrom'.
    destruct Ifrom' as [Lf Pf]. apply Z.ltb_lt in Pf.
    assert (Ec : nth from (column (module_allocation sol) j) 0 = held).
    { unfold column, held.
      rewrite (nth_indep _ 0 (nth j [] 0)) by exact Lf.
      rewrite (map_nth (fun r => nth j r 0)). reflexivity. }
    rewrite Forall_forall in Hcol.
    pose proof (Hcol _ (nth_In _ 0 Lf)) as Hs. simpl in Hs. lia. }
  assert (Hamt : amount <= Z.min held room).
  { destruct (Z.ltb_spec room held) as [L|L].
    - apply A64. reflexivity.
    - apply A32; [reflexivity|]. lia. }
  exists to, from, amount.
  split; [exact Hj|]. split; [exact Ito|]. split; [exact Ifrom|].
  split; [exact A1|]. split; [lia|]. split; [lia|].
  inversion E; subst. reflexivity.
Qed.

(** ** Type mutation *)

Lemma norm_index_in len i :
  0 <= i < Z.of_nat len -> norm_index len i = Some (Z.to_nat i).
Proof.
  intros H. unfold norm_index.
  destruct (Z.leb_spec 0 i), (Z.ltb_spec i (Z.of_nat len)); simpl; auto; lia.
Qed.

Lemma mutate_rockets_type_allocation_run (self : BeesSolver F) sol w :
  0 < num_rockets (settings self) ->
  0 < num_rocket_types (settings self) ->
  length (rocket_type_allocation sol) = Z.to_nat (num_rockets (settings self)) ->
  mutate_rockets_type_allocation self (w, sol) =
  (Return tt,
   (py_advance (py_advance w),
    {| rocket_type_allocation :=
         upd (Z.to_nat (py_peek w mod num_rockets (settings self)))
             (py_peek (py_advance w) mod num_rocket_types (settings self))
             (rocket_type_allocation sol);
       module_allocation := module_allocation sol |})).
Proof.
  intros HR HT L. unfold mutate_rockets_type_allocation.
  rewrite (bind_return _ _ _ _ _ (w, sol)
             (py_peek w mod num_rockets (settings self))
             (py_advance w, sol))
    by (rewrite in_world_run, randrange_run by exact HR; reflexivity).
  rewrite (bind_return _ _ _ _ _ (py_advance w, sol)
             (py_peek (py_advance w) mod num_rocket_types (settings self))
             (py_advance (py_advance w), sol))
    by (rewrite in_world_run, randrange_run by exact HT; reflexivity).
  rewrite (bind_return _ _ _ this _ (py_advance (py_advance w), sol) sol
             (py_advance (py_advance w), sol) eq_refl).
  unfold setitem. rewrite norm_index_in.
  - reflexivity.
  - pose proof (Z.mod_pos_bound (py_peek w) _ HR). lia.
Qed.

(** ** The failing path of the module-transfer mutation *)

(** Whenever the mutation raises, the solution is as it was. *)
Lemma mutate_modules_allocation_atomic (self : BeesSolver F) sol w e st :
  mutate_modules_allocation self (w, sol) = (Raise e, st) -> snd st = sol.
Proof.
  unfold mutate_modules_allocation. intros E.
  rewrite (bind_return _ _ _ this _ (w, sol) sol (w, sol) eq_refl) in E.
  cbv zeta in E.
  rewrite bind_run, in_world_run in E.
  destruct (randrange _ w) as [[mti|e1|] w1]; simpl in E;
    [|inversion E; reflexivity|discriminate].
  rewrite bind_run, in_world_run in E.
  destruct (choice _ w1) as [[to|e2|] w2]; simpl in E;
    [|inversion E; reflexivity|discriminate].
  destruct (Z.to_nat mti <? ncols (module_allocation sol))%nat;
    [|unfold raise in E; inversion E; reflexivity].
  rewrite bind_run, in_world_run in E.
  destruct (choice _ w2) as [[from|e3|] w3]; simpl in E;
    [|inversion E; reflexivity|discriminate].
  rewrite bind_run, in_world_run in E.
  destruct (randint_np _ _ _ w3) as [[amount|e4|] w4]; simpl in E;
    [|inversion E; reflexivity|discriminate].
  discriminate.
Qed.

(** Without a destination, or without a source for the chosen module
    type, the mutation raises. *)
Lemma mutate_modules_allocation_stuck (self : BeesSolver F) sol w :
  argwhere (fun c => 0 <? c) (remaining (settings self) sol) = []
  \/ argwhere (fun a => 0 <? a)
       (column (module_allocation sol)
               (chosen_module_type (settings self) w)) = [] ->
  exists e st, mutate_modules_allocation self (w, sol) = (Raise e, st).
Proof.
  intros H. unfold mutate_modules_allocation.
  rewrite (bind_return _ _ _ this _ (w, sol) sol (w, sol) eq_refl).
  cbv zeta.
  destruct (Z.leb_spec (num_module_types (settings self)) 0) as [LM|LM].
  - eexists; eexists. apply bind_raise.
    rewrite in_world_run, randrange_raise by exact LM. reflexivity.
  - rewrite (bind_return _ _ _ _ _ (w, sol)
               (py_peek w mod num_module_types (settings self))
               (py_advance w, sol))
      by (rewrite in_world_run, randrange_run by exact LM; reflexivity).
    fold (remaining (settings self) sol).
    destruct (argwhere (fun c => 0 <? c) (remaining (settings self) sol))
      as [|t0 ts] eqn:Eto.
    + eexists; eexists. apply bind_raise.
      rewrite in_world_run, choice_empty. reflexivity.
    + destruct H as [H|H]; [discriminate|].
      destruct (choice_run _ (t0 :: ts) (py_advance w) ltac:(discriminate))
        as (to & Eto' & _).
      rewrite (bind_return _ _ _ _ _ (py_advance w, sol) to
                 (py_advance (py_advance w), sol))
        by (rewrite in_world_run, Eto'; reflexivity).
      fold (chosen_module_type (settings self) w).
      destruct (chosen_module_type (settings self) w
                <? ncols (module_allocation sol))%nat.
      * rewrite H. eexists; eexists. apply bind_raise.
        rewrite in_world_run, choice_empty. reflexivity.
      * eexists; eexists. reflexivity.
Qed.

End Mutation.

End MutationFacts.

(* ===================================================================== *)
(** * Computations that need no iteration budget                         *)
(* ===================================================================== *)

Module FuelFacts.
Import Runtime Model Algorithm Notions ListFacts GeneratorFacts SearchFacts
       MutationFacts.

Lemma ff_ret S A (a : A) : fuel_free (@ret S A a).
Proof. intros s; simpl; discriminate. Qed.

Lemma ff_raise S A e : fuel_free (@raise S A e).
Proof. intros s; simpl; discriminate. Qed.

Lemma ff_bind S A B (c : M S A) (k : A -> M S B) :
  fuel_free c -> (forall a, fuel_free (k a)) -> fuel_free (bind c k).
Proof.
  intros Hc Hk s. rewrite bind_run. specialize (Hc s).
  destruct (c s) as [[a|e|] s']; simpl in *.
  - apply Hk.
  - discriminate.
  - congruence.
Qed.

Lemma ff_for_each S A B (body : A -> B -> M S B) xs :
  (forall x acc, fuel_free (body x acc)) ->
  forall acc, fuel_free (for_each xs body acc).
Proof.
  intros Hb. induction xs as [|x xs IH]; intros acc; simpl.
  - apply ff_ret.
  - apply ff_bind; auto.
Qed.

Lemma ff_map_m S A B (f : A -> M S B) xs :
  (forall x, fuel_free (f x)) -> fuel_free (map_m f xs).
Proof.
  intros Hf. induction xs as [|x xs IH]; simpl.
  - apply ff_ret.
  - apply ff_bind; auto. intros y. apply ff_bind; auto.
    intros ys. apply ff_ret.
Qed.

Lemma ff_of_option S A e (o : option A) : fuel_free (@of_option S A e o).
Proof. destruct o; [apply ff_ret|apply ff_raise]. Qed.

Lemma ff_lift S A (o : outcome A) : o <> OutOfFuel -> fuel_free (@lift S A o).
Proof. intros H s; exact H. Qed.

Lemma ff_in_world X A (c : M world A) :
  fuel_free c -> fuel_free (@in_world X A c).
Proof.
  intros H [w x]. rewrite in_world_run. simpl. apply H.
Qed.

Lemma ff_in_place X (c : M (world * X) unit) x :
  fuel_free c -> fuel_free (in_place c x).
Proof.
  intros H w. unfold in_place. specialize (H (w, x)).
  destruct (c (w, x)) as [[u|e|] [w' x']]; simpl in *; congruence.
Qed.

Lemma ff_py_draw : fuel_free py_draw.
Proof. intros w; simpl; discriminate. Qed.

Lemma ff_randrange n : fuel_free (randrange n).
Proof.
  unfold randrange. destruct (n <=? 0); [apply ff_raise|].
  apply ff_bind; [apply ff_py_draw|]. intros z; apply ff_ret.
Qed.

Lemma ff_randint a b : fuel_free (randint a b).
Proof.
  unfold randint. destruct (b + 1 - a <=? 0); [apply ff_raise|].
  apply ff_bind; [apply ff_py_draw|]. intros z; apply ff_ret.
Qed.

Lemma ff_randint_np t a b : fuel_free (randint_np t a b).
Proof.
  unfold randint_np. cbv zeta.
  destruct (_ <=? 0); [apply ff_raise|].
  apply ff_bind; [apply ff_py_draw|]. intros z. apply ff_ret.
Qed.

Lemma ff_choice A (seq : list A) : fuel_free (choice seq).
Proof.
  unfold choice. destruct seq; [apply ff_raise|].
  apply ff_bind; [apply ff_py_draw|]. intros z; apply ff_of_option.
Qed.

Lemma ff_this X : fuel_free (@this X).
Proof. intros s; simpl; discriminate. Qed.

Lemma ff_assign X (x : X) : fuel_free (assign x).
Proof. intros s; simpl; discriminate. Qed.

Section Search.

Variable F : Type.
Variable fzero : F.
Variables fadd fmul : F -> F -> F.
Variable of_int : Z -> F.
Variable flt : F -> F -> bool.

Local Abbreviation cost := (calculate_cost fzero fadd fmul of_int).
Local Abbreviation find_best_neighbour :=
  (Algorithm.find_best_neighbour fzero fadd fmul of_int flt).
Local Abbreviation exploit_site :=
  (Algorithm.exploit_site fzero fadd fmul of_int flt).
Local Abbreviation simulate_population :=
  (Algorithm.simulate_population fzero fadd fmul of_int flt).

Lemma cost_fuel_free sol (s : Settings F) : cost sol s <> OutOfFuel.
Proof.
  unfold calculate_cost.
  destruct (take_items _ _); [|discriminate].
  destruct (_ && _); [|discriminate].
  destruct (take_items _ _); discriminate.
Qed.

Lemma ff_mutate_rockets_type_allocation (self : BeesSolver F) :
  fuel_free (mutate_rockets_type_allocation self).
Proof.
  unfold mutate_rockets_type_allocation.
  apply ff_bind; [apply ff_in_world, ff_randrange|]. intros i.
  apply ff_bind; [apply ff_in_world, ff_randrange|]. intros v.
  apply ff_bind; [apply ff_this|]. intros sol.
  destruct (setitem _ _ _); [apply ff_assign|apply ff_raise].
Qed.

Lemma ff_add_to_allocation i j d : fuel_free (add_to_allocation i j d).
Proof.
  unfold add_to_allocation. apply ff_bind; [apply ff_this|].
  intros sol. apply ff_assign.
Qed.

Lemma ff_mutate_modules_allocation (self : BeesSolver F) :
  fuel_free (mutate_modules_allocation self).
Proof.
  unfold mutate_modules_allocation.
  apply ff_bind; [apply ff_this|]. intros sol. cbv zeta.
  apply ff_bind; [apply ff_in_world, ff_randrange|]. intros mti.
  apply ff_bind; [apply ff_in_world, ff_choice|]. intros to.
  destruct (_ <? _)%nat; [|apply ff_raise].
  apply ff_bind; [apply ff_in_world, ff_choice|]. intros from.
  apply ff_bind; [apply ff_in_world, ff_randint_np|]. intros amount.
  apply ff_bind; [apply ff_add_to_allocation|]. intros _.
  apply ff_add_to_allocation.
Qed.

Lemma ff_mutate_solution (self : BeesSolver F) :
  fuel_free (mutate_solution self).
Proof.
  unfold mutate_solution. apply ff_bind.
  - apply ff_for_each. intros _ _. apply ff_mutate_modules_allocation.
  - intros _. apply ff_for_each. intros _ _.
    apply ff_mutate_rockets_type_allocation.
Qed.

Lemma ff_sorted_by_cost (self : BeesSolver F) l :
  fuel_free (sorted_by_cost fzero fadd fmul of_int flt self l).
Proof.
  unfold sorted_by_cost, sorted. apply ff_bind.
  - apply ff_map_m. intros a. apply ff_bind.
    + apply ff_lift. apply cost_fuel_free.
    + intros k. apply ff_ret.
  - intros keyed. apply ff_ret.
Qed.

Lemma ff_find_best_neighbour (self : BeesSolver F) s k :
  fuel_free (find_best_neighbour self s k).
Proof.
  unfold Algorithm.find_best_neighbour. apply ff_bind.
  - apply ff_map_m. intros x. apply ff_in_place. apply ff_mutate_solution.
  - intros ns. apply ff_bind; [apply ff_sorted_by_cost|].
    intros ranked. apply ff_of_option.
Qed.

Lemma ff_exploit_site (self : BeesSolver F) size i p :
  fuel_free (exploit_site self size i p).
Proof.
  unfold Algorithm.exploit_site. apply ff_bind; [apply ff_of_option|].
  intros s. apply ff_bind; [apply ff_find_best_neighbour|].
  intros best. apply ff_of_option.
Qed.

Lemma sorted_by_cost_length (self : BeesSolver F) l w r w' :
  sorted_by_cost fzero fadd fmul of_int flt self l w = (Return r, w') ->
  length r = length l.
Proof.
  unfold sorted_by_cost. intros E. apply sorted_run in E.
  destruct E as (keyed & -> & <- & _).
  rewrite !length_map. apply length_sort_keyed.
Qed.

(** The sites a loop of exploitations has visited when it returns are
    slots of the population, which keeps its length. *)
Lemma exploit_loop_run (self : BeesSolver F) size xs : forall p w p' w',
  for_each xs (exploit_site self size) p w = (Return p', w') ->
  length p' = length p
  /\ forall x, In x xs -> norm_index (length p) x <> None.
Proof.
  induction xs as [|x xs IH]; intros p w p' w' E.
  - simpl in E. unfold ret in E. inversion E; subst.
    split; [reflexivity|]. intros x [].
  - simpl in E. rewrite bind_run in E.
    destruct (exploit_site self size x p w) as [[p1| |] w1] eqn:E1;
      try discriminate.
    apply exploit_site_run in E1.
    destruct E1 as (k & s & best & w2 & Hk & _ & _ & ->).
    destruct (IH _ _ _ _ E) as [L Hin]. rewrite upd_length in L, Hin.
    split; [exact L|]. intros y [<-|Hy]; [congruence|auto].
Qed.

(** A generation on a population with fewer slots than sites raises. *)
Lemma simulate_population_short fuel (self : BeesSolver F) w :
  Z.of_nat (length (population self))
  < elite_sites self + normal_sites self ->
  exists e w', simulate_population fuel self w = (Raise e, w').
Proof.
  intros H. unfold Algorithm.simulate_population.
  rewrite bind_run.
  pose proof (ff_sorted_by_cost self (population self) w) as N0.
  destruct (sorted_by_cost _ _ _ _ _ self (population self) w)
    as [[p0|e0|] w0] eqn:E0; simpl in N0; [|eauto|congruence].
  apply sorted_by_cost_length in E0. rename E0 into L0.
  rewrite bind_run.
  pose proof (ff_for_each _ _ _ (exploit_site self (elite_site_size self))
                (range 0 (elite_sites self))
                (fun x acc => ff_exploit_site self _ x acc) p0 w0) as N1.
  destruct (for_each (range 0 (elite_sites self)) _ p0 w0)
    as [[p1|e1|] w1] eqn:E1; simpl in N1; [|eauto|congruence].
  apply exploit_loop_run in E1. destruct E1 as [L1 I1].
  rewrite bind_run.
  pose proof (ff_for_each _ _ _ (exploit_site self (normal_site_size self))
                (range (elite_sites self)
                       (elite_sites self + normal_sites self))
                (fun x acc => ff_exploit_site self _ x acc) p1 w1) as N2.
  destruct (for_each (range (elite_sites self) _) _ p1 w1)
    as [[p2|e2|] w2] eqn:E2; simpl in N2; [|eauto|congruence].
  apply exploit_loop_run in E2. destruct E2 as [L2 I2].
  exfalso.
  destruct (Z.le_gt_cases (elite_sites self)
                          (Z.of_nat (length (population self)))) as [C|C].
  - apply (I2 (elite_sites self + normal_sites self - 1)).
    + apply in_range. lia.
    + apply norm_index_none. lia.
  - apply (I1 (Z.of_nat (length (population self)))).
    + apply in_range. lia.
    + apply norm_index_none. lia.
Qed.

End Search.

End FuelFacts.

(* ===================================================================== *)
(** * The cost of a solution                                             *)
(* ===================================================================== *)

Module CostFacts.
Import Runtime Model Algorithm Notions Scenario Terms ListFacts MatrixFacts
       GeneratorFacts SearchFacts MutationFacts.

Lemma take_items_some A (a : list A) idx :
  Forall (fun t => 0 <= t < Z.of_nat (length a)) idx ->
  exists xs, take_items a idx = Some xs
             /\ length xs = length idx
             /\ Forall (fun x => In x a) xs.
Proof.
  induction 1 as [|t idx Ht H IH].
  - exists []. simpl. auto.
  - destruct IH as (xs & E & L & Hin). simpl.
    unfold getitem. rewrite norm_index_in by exact Ht.
    destruct (nth_error a (Z.to_nat t)) as [x|] eqn:Ex.
    + rewrite E. exists (x :: xs). simpl. repeat split; auto.
      constructor; auto. eapply nth_error_In; eauto.
    + apply nth_error_None in Ex. lia.
Qed.

Lemma take_items_in A (a : list A) idx xs :
  take_items a idx = Some xs -> Forall (fun x => In x a) xs.
Proof.
  revert xs; induction idx as [|t idx IH]; intros xs E; simpl in E.
  - inversion E. constructor.
  - unfold getitem in E.
    destruct (norm_index (length a) t) as [k|]; [|discriminate].
    destruct (nth_error a k) as [x|] eqn:Ex; [|discriminate].
    destruct (take_items a idx) as [ys|]; [|discriminate].
    inversion E; subst. constructor; auto. eapply nth_error_In; eauto.
Qed.

Lemma take_items_none A (a : list A) idx :
  Exists (fun t => t < - Z.of_nat (length a) \/ Z.of_nat (length a) <= t) idx ->
  take_items a idx = None.
Proof.
  induction 1 as [t idx Ht|t idx H IH]; simpl.
  - unfold getitem.
    replace (norm_index (length a) t) with (@None nat); [reflexivity|].
    unfold norm_index.
    destruct (Z.leb_spec 0 t), (Z.ltb_spec t (Z.of_nat (length a)));
      simpl; try lia;
      destruct (Z.leb_spec (- Z.of_nat (length a)) t), (Z.ltb_spec t 0);
      simpl; auto; lia.
  - rewrite IH. destruct (getitem a t); reflexivity.
Qed.

Section Cost.

Variable F : Type.
Variable fzero : F.
Variables fadd fmul : F -> F -> F.
Variable of_int : Z -> F.
Variable flt : F -> F -> bool.

Local Abbreviation cost := (calculate_cost fzero fadd fmul of_int).
Local Abbreviation nn := (not_negative fzero flt).

(** The cost of a feasible solution is defined. *)
Lemma cost_defined (s : Settings F) sol :
  well_formed s -> tables_fit s -> feasible_solution s sol ->
  exists c, cost sol s = Return c.
Proof.
  intros [Wt Wr Wm Wa] [Tr Tc Tf] [Sl Sr Sd Sc].
  unfold calculate_cost.
  destruct (take_items_some _ (rows (additional_fuel_costs s))
              (rocket_type_allocation sol)) as (picked & E1 & L1 & _).
  { eapply Forall_impl; [|exact Sr]. intros t Ht; simpl in Ht. lia. }
  destruct (take_items_some _ (fuel_costs s) (rocket_type_allocation sol))
    as (fuels & E2 & _ & _).
  { eapply Forall_impl; [|exact Sr]. intros t Ht; simpl in Ht. lia. }
  rewrite E1, E2.
  assert (N : ncols (module_allocation sol) = length (module_amounts s)).
  { rewrite <- (inv_cols _ _ _ Sd). unfold col_sums.
    rewrite length_map, length_seq. reflexivity. }
  replace (length picked =? nrows (module_allocation sol))%nat with true.
  - replace (ncols (additional_fuel_costs s)
             =? ncols (module_allocation sol))%nat with true.
    + simpl. eauto.
    + symmetry. apply Nat.eqb_eq. lia.
  - symmetry. apply Nat.eqb_eq. rewrite (inv_rows _ _ _ Sd). lia.
Qed.

(** A rocket type outside the table of additional costs makes the cost
    raise [IndexError]. *)
Lemma cost_index_error (s : Settings F) sol :
  Exists (fun t => t < - Z.of_nat (nrows (additional_fuel_costs s))
                   \/ Z.of_nat (nrows (additional_fuel_costs s)) <= t)
         (rocket_type_allocation sol) ->
  cost sol s = Raise IndexError.
Proof.
  intros H. unfold calculate_cost. unfold nrows in H.
  rewrite (take_items_none _ _ _ H). reflexivity.
Qed.

Hypothesis zero_nn : nn fzero.
Hypothesis add_nn : forall a b, nn a -> nn b -> nn (fadd a b).
Hypothesis mul_nn : forall a b, nn a -> nn b -> nn (fmul a b).
Hypothesis of_int_nn : forall z, 0 <= z -> nn (of_int z).

Lemma fsum_nn l : Forall nn l -> nn (fsum fzero fadd l).
Proof. induction 1; simpl; auto. Qed.

Lemma row_product_nn r c :
  Forall (fun x => 0 <= x) r -> Forall nn c ->
  Forall nn (row_product fmul of_int r c).
Proof.
  intros Hr; revert c; induction Hr as [|a r Ha Hr IH]; intros c Hc.
  - constructor.
  - destruct Hc as [|x c Hx Hc]; simpl; constructor; auto.
Qed.

(** With cost tables and an allocation without negative cells, the cost
    is not below zero. *)
Lemma cost_not_negative (s : Settings F) sol c :
  tables_not_negative fzero flt s -> nonneg (module_allocation sol) ->
  cost sol s = Return c -> nn c.
Proof.
  intros [Ta Tf] Hn E. unfold calculate_cost in E.
  destruct (take_items _ _) as [picked|] eqn:E1; [|discriminate].
  destruct (_ && _); [|discriminate].
  destruct (take_items (fuel_costs s) _) as [fuels|] eqn:E2;
    [|discriminate].
  inversion E; subst c. apply add_nn.
  - apply fsum_nn. apply Forall_concat. apply Forall_map.
    assert (Hp : Forall (Forall nn) picked).
    { apply take_items_in in E1. rewrite Forall_forall in *.
      intros x Hx. apply Ta. apply E1. exact Hx. }
    unfold nonneg in Hn. revert Hp. generalize picked.
    induction Hn as [|r rs Hr Hn IH]; intros [|p ps] Hp; simpl;
      constructor.
    + simpl. inversion Hp; subst. apply row_product_nn; auto.
    + inversion Hp; subst. apply IH; auto.
  - apply fsum_nn. apply take_items_in in E2. rewrite Forall_forall in *.
    intros x Hx. apply Tf. apply E2. exact Hx.
Qed.

End Cost.

End CostFacts.

(* ===================================================================== *)
(** * Feasibility along the search                                       *)
(* ===================================================================== *)

Module FeasibilityFacts.
Import Runtime Model Algorithm Notions Scenario Terms ListFacts MatrixFacts
       RepairFacts GeneratorFacts SearchFacts MutationFacts FuelFacts
       CostFacts.

(** ** Loops on a state *)

(** A property of the state that every iteration keeps holds when the
    loop returns. *)
Lemma for_each_state_invariant S A B (P : S -> Prop)
  (body : A -> B -> M S B) :
  forall xs acc s r s',
    (forall x a t a' t', P t -> body x a t = (Return a', t') -> P t') ->
    P s -> for_each xs body acc s = (Return r, s') -> P s'.
Proof.
  induction xs as [|x xs IH]; intros acc s r s' Hb Hs E.
  - simpl in E. unfold ret in E. inversion E; subst; auto.
  - simpl in E. rewrite bind_run in E.
    destruct (body x acc s) as [[a| |] t] eqn:Eb; try discriminate.
    eapply IH; [exact Hb| |exact E]. eapply Hb; eauto.
Qed.

Lemma map_m_length S A B (f : A -> M S B) :
  forall xs s ys s', map_m f xs s = (Return ys, s') -> length ys = length xs.
Proof.
  intros xs s ys s' E. apply map_m_results in E.
  induction E; simpl; auto.
Qed.

(** A loop whose iterations all return returns. *)
Lemma map_m_total S A B (P : B -> Prop) (f : A -> M S B) :
  (forall x s, exists y s', f x s = (Return y, s') /\ P y) ->
  forall xs s, exists ys s',
    map_m f xs s = (Return ys, s') /\ Forall P ys /\ length ys = length xs.
Proof.
  intros Hf. induction xs as [|x xs IH]; intros s.
  - exists [], s. simpl. unfold ret. auto.
  - destruct (Hf x s) as (y & s1 & E1 & Py).
    destruct (IH s1) as (ys & s2 & E2 & Pys & L).
    exists (y :: ys), s2. simpl.
    rewrite (bind_return _ _ _ _ _ _ _ _ E1).
    rewrite (bind_return _ _ _ _ _ _ _ _ E2). unfold ret.
    split; [reflexivity|]. split; [constructor; auto|simpl; lia].
Qed.

(** ** The generator *)

Section Repair.

Variable cap : Z.
Variable amounts : list Z.
Variable R : nat.
Hypothesis amounts_int32 : Forall (fun a => a < 2 ^ 31) amounts.
Hypothesis feasible : sumZ amounts <= Z.of_nat R * cap.

(** Whatever its budget, a repair loop that returns has kept the amounts
    and left no rocket overloaded. *)
Lemma repair_loop_return fuel : forall m done m' n,
  distributes amounts R m ->
  repair_loop fuel cap m done = Return (m', n) ->
  distributes amounts R m'
  /\ existsb (fun s => cap <? s) (row_sums m') = false.
Proof.
  induction fuel as [|fuel IH]; intros m done m' n Inv E; simpl in E;
    destruct (existsb _ (row_sums m)) eqn:G; try discriminate.
  - inversion E; subst. auto.
  - destruct (repair_step_progress cap amounts R amounts_int32 feasible
                m Inv G) as (m1 & E1 & Inv1 & _).
    rewrite E1 in E. eapply IH; eauto.
  - inversion E; subst. auto.
Qed.

End Repair.

Section Search.

Variable F : Type.
Variable fzero : F.
Variables fadd fmul : F -> F -> F.
Variable of_int : Z -> F.
Variable flt : F -> F -> bool.

Local Abbreviation cost := (calculate_cost fzero fadd fmul of_int).
Local Abbreviation find_best_neighbour :=
  (Algorithm.find_best_neighbour fzero fadd fmul of_int flt).
Local Abbreviation exploit_site :=
  (Algorithm.exploit_site fzero fadd fmul of_int flt).
Local Abbreviation simulate_population :=
  (Algorithm.simulate_population fzero fadd fmul of_int flt).
Local Abbreviation find_best_solution :=
  (Algorithm.find_best_solution fzero fadd fmul of_int flt).

(** Whatever the budget of the repair loop, a solution the generator
    returns is feasible. *)
Lemma generate_random_solution_return fuel (s : Settings F) w sol w' :
  well_formed s ->
  generate_random_solution fuel s w = (Return sol, w') ->
  feasible_solution s sol.
Proof.
  intros WF E. pose proof WF as [Ht Hr Hm Ha].
  unfold generate_random_solution,
    generate_random_rockets_type_allocation in E.
  destruct (np_randint_spec (num_rocket_types s) (num_rockets s) w Ht)
    as (types & w1 & E1 & L1 & F1 & _); [lia|].
  rewrite (bind_return _ _ _ _ _ _ _ _ E1) in E.
  rewrite bind_run in E.
  destruct (generate_random_modules_allocation fuel s w1)
    as [[m| |] w2] eqn:E2; try discriminate.
  destruct (negb _) eqn:V; [discriminate|].
  unfold ret in E. inversion E; subst sol w'. clear E.
  apply negb_false_iff, andb_true_iff in V. destruct V as [V1 V2].
  unfold generate_random_modules_allocation in E2.
  destruct (Z.ltb_spec (num_rockets s * rocket_capacity s)
                       (sumZ (module_amounts s))) as [L|L];
    [discriminate|].
  assert (Z0 := np_zeros_run world (num_rockets s) (num_module_types s) w1
                  ltac:(lia) ltac:(lia)).
  rewrite (bind_return _ _ _ _ _ w1 _ w1 Z0) in E2.
  destruct (drawn_allocation_spec F s w1 WF) as (m0 & w3 & E3 & Inv & _).
  rewrite (bind_return _ _ _ _ _ w1 _ w3 E3) in E2.
  rewrite bind_run in E2. unfold lift in E2.
  destruct (repair_loop fuel (rocket_capacity s) m0 0)
    as [[m1 n]| |] eqn:E4; try discriminate.
  unfold ret in E2. inversion E2; subst m w2. simpl in *.
  destruct (repair_loop_return (rocket_capacity s) (module_amounts s)
              (Z.to_nat (num_rockets s))) with (fuel := fuel) (m := m0)
              (done := 0%nat) (m' := m1) (n := n) as [Inv1 G]; auto.
  - eapply Forall_impl; [|exact Ha]. intros a Hb; simpl in Hb; lia.
  - rewrite Z2Nat.id by lia. lia.
  - constructor; simpl; auto.
    apply forallb_le. exact V1.
Qed.

(** ** The mutations *)

Lemma mutate_rockets_type_allocation_keeps (self : BeesSolver F)
  sol w u w' sol' :
  well_formed (settings self) -> feasible_solution (settings self) sol ->
  mutate_rockets_type_allocation self (w, sol) = (Return u, (w', sol')) ->
  feasible_solution (settings self) sol'.
Proof.
  intros WF FS E. pose proof WF as [Ht Hr _ _].
  pose proof FS as [Tl Tr Sd Sc].
  rewrite (mutate_rockets_type_allocation_run F self sol w Hr Ht Tl) in E.
  inversion E; subst. constructor; simpl; auto.
  - rewrite upd_length. exact Tl.
  - apply Forall_upd; auto. apply Z.mod_pos_bound. exact Ht.
Qed.

Lemma argwhere_Exists p l :
  argwhere p l <> [] -> Exists (fun x => p x = true) l.
Proof.
  intros H. destruct (argwhere p l) as [|k ks] eqn:E; [congruence|].
  assert (In k (argwhere p l)) as Hin by (rewrite E; left; auto).
  apply in_argwhere in Hin. destruct Hin as [L Hp].
  apply Exists_exists. exists (nth k l 0). split; auto.
  apply nth_In; exact L.
Qed.

Lemma mutate_modules_allocation_keeps (self : BeesSolver F)
  sol w u w' sol' :
  well_formed (settings self) -> feasible_solution (settings self) sol ->
  mutate_modules_allocation self (w, sol) = (Return u, (w', sol')) ->
  feasible_solution (settings self) sol'.
Proof.
  intros WF FS E.
  assert (Hint : Forall (fun a => a < 2 ^ 31)
                        (module_amounts (settings self))).
  { destruct WF as [_ _ _ Wa]. eapply Forall_impl; [|exact Wa].
    intros a Ha; simpl in Ha; lia. }
  destruct (mutate_modules_allocation_return F self sol w u w' sol'
              (fun Hj => column_lt_bound F (settings self) sol _ _
                           FS Hint Hj) E)
    as (to & from & amount & Hj & Ito & Ifrom & A1 & A2 & A3 & ->).
  apply in_argwhere in Ito, Ifrom.
  destruct Ito as [Lto _]. destruct Ifrom as [Lfrom _].
  unfold remaining in Lto. rewrite length_map in Lto.
  rewrite column_length in Lfrom.
  unfold nrows in Lfrom. unfold row_sums in Lto. rewrite length_map in Lto.
  apply (transfer_feasible F); auto.
Qed.

(** A mutation pass that returns has kept the solution feasible. *)
Lemma mutate_solution_keeps (self : BeesSolver F) sol w u w' sol' :
  well_formed (settings self) -> feasible_solution (settings self) sol ->
  mutate_solution self (w, sol) = (Return u, (w', sol')) ->
  feasible_solution (settings self) sol'.
Proof.
  intros WF FS E. unfold mutate_solution in E. rewrite bind_run in E.
  destruct (for_each (range 0 (modules_mutations self)) _ tt (w, sol))
    as [[u1| |] [w1 sol1]] eqn:E1; try discriminate.
  assert (FS1 : feasible_solution (settings self) sol1).
  { change (snd (w1, sol1)) with sol1.
    refine (for_each_state_invariant _ _ _
              (fun st => feasible_solution (settings self) (snd st))
              _ _ _ _ _ (w1, sol1) _ _ E1); [|exact FS].
    intros x a [t1 t2] a' [t1' t2'] Pt Eb. simpl in *.
    eapply mutate_modules_allocation_keeps; eauto. }
  refine (for_each_state_invariant _ _ _
            (fun st => feasible_solution (settings self) (snd st))
            _ _ _ _ _ (w', sol') _ _ E); [|exact FS1].
  intros x a [t1 t2] a' [t1' t2'] Pt Eb. simpl in *.
  eapply mutate_rockets_type_allocation_keeps; eauto.
Qed.

End Search.

End FeasibilityFacts.

(* ===================================================================== *)
(** * Populations along a generation                                     *)
(* ===================================================================== *)

Module PopulationFacts.
Import Runtime Model Algorithm Notions Scenario Terms ListFacts MatrixFacts
       RepairFacts GeneratorFacts SearchFacts MutationFacts FuelFacts
       CostFacts FeasibilityFacts.

Lemma in_place_return X (c : M (world * X) unit) x w y w' :
  in_place c x w = (Return y, w') ->
  exists u, c (w, x) = (Return u, (w', y)).
Proof.
  unfold in_place. intros E.
  destruct (c (w, x)) as [[u| |] [w1 x1]]; inversion E; subst. eauto.
Qed.

Lemma Forall_upd_list A (P : A -> Prop) k x l :
  Forall P l -> P x -> Forall P (upd k x l).
Proof. apply Forall_upd. Qed.

Section Search.

Variable F : Type.
Variable fzero : F.
Variables fadd fmul : F -> F -> F.
Variable of_int : Z -> F.
Variable flt : F -> F -> bool.

Local Abbreviation cost := (calculate_cost fzero fadd fmul of_int).
Local Abbreviation find_best_neighbour :=
  (Algorithm.find_best_neighbour fzero fadd fmul of_int flt).
Local Abbreviation exploit_site :=
  (Algorithm.exploit_site fzero fadd fmul of_int flt).
Local Abbreviation simulate_population :=
  (Algorithm.simulate_population fzero fadd fmul of_int flt).
Local Abbreviation find_best_solution :=
  (Algorithm.find_best_solution fzero fadd fmul of_int flt).
Local Abbreviation sorted_by_cost :=
  (Algorithm.sorted_by_cost fzero fadd fmul of_int flt).

(** A ranking by cost returns the solutions it was given, and draws
    nothing. *)
Lemma sorted_by_cost_same (self : BeesSolver F) l w r w' :
  sorted_by_cost self l w = (Return r, w') ->
  w' = w /\ length r = length l /\ forall x, In x r <-> In x l.
Proof.
  intros E. pose proof (sorted_by_cost_length F _ _ _ _ _ _ _ _ _ _ E) as L.
  unfold Algorithm.sorted_by_cost in E. apply sorted_run in E.
  destruct E as (keyed & -> & <- & _ & ->).
  split; [reflexivity|]. split; [exact L|].
  intros x. rewrite !in_map_iff. split; intros (y & Hy & Hin); exists y;
    (split; [exact Hy|]); apply (in_sort_keyed _ _ flt); exact Hin.
Qed.

(** The neighbourhood search returns the solution it was given or one of
    its mutated copies. *)
Lemma find_best_neighbour_in (self : BeesSolver F) s k w best w' :
  find_best_neighbour self s k w = (Return best, w') ->
  best = s
  \/ exists t u t', mutate_solution self (t, s) = (Return u, (t', best)).
Proof.
  unfold Algorithm.find_best_neighbour. intros E. rewrite bind_run in E.
  destruct (map_m _ _ w) as [[neighbours| |] w1] eqn:Em; try discriminate.
  rewrite bind_run in E.
  destruct (Algorithm.sorted_by_cost _ _ _ _ _ _ _ w1)
    as [[ranked| |] w2] eqn:Es; try discriminate.
  apply of_option_return in E. destruct E as [E _].
  apply getitem_0 in E. destruct E as (rest & ->).
  apply sorted_by_cost_same in Es. destruct Es as (_ & _ & Hin).
  assert (Hb : In best (neighbours ++ [s])) by (apply Hin; left; auto).
  apply in_app_or in Hb. destruct Hb as [Hb|[Hb|[]]]; [right|left; auto].
  apply map_m_results in Em.
  assert (G : forall xs ys,
             Forall2 (fun x y => exists t t',
                        in_place (mutate_solution self) x t = (Return y, t'))
                     xs ys ->
             Forall (fun x => x = s) xs -> In best ys ->
             exists t u t',
               mutate_solution self (t, s) = (Return u, (t', best))).
  { induction 1 as [|x y xs ys (t & t' & Hxy) H IH]; intros Hs Hy.
    - inversion Hy.
    - inversion Hs; subst. destruct Hy as [->|Hy]; [|auto].
      apply in_place_return in Hxy. destruct Hxy as (u & Hu). eauto. }
  apply (G _ _ Em); auto.
  apply Forall_forall. intros x Hx. apply in_map_iff in Hx.
  destruct Hx as (i & <- & _). reflexivity.
Qed.

(** The neighbourhood search of a feasible solution returns a feasible
    solution. *)
Lemma find_best_neighbour_feasible (self : BeesSolver F) s k w best w' :
  well_formed (settings self) -> feasible_solution (settings self) s ->
  find_best_neighbour self s k w = (Return best, w') ->
  feasible_solution (settings self) best.
Proof.
  intros WF FS E. apply find_best_neighbour_in in E.
  destruct E as [->|(t & u & t' & E)]; auto.
  eapply mutate_solution_keeps; eauto.
Qed.

Lemma exploit_site_keeps (self : BeesSolver F) n size i p w p' w' :
  well_formed (settings self) ->
  sound_population (settings self) n p ->
  exploit_site self size i p w = (Return p', w') ->
  sound_population (settings self) n p'.
Proof.
  intros WF [Hp Hl] E. apply exploit_site_run in E.
  destruct E as (k & s & best & w1 & _ & Hs & Ef & ->).
  split; [|rewrite upd_length; exact Hl].
  apply Forall_upd; auto.
  eapply find_best_neighbour_feasible; eauto.
  eapply Forall_nth_error; eauto.
Qed.

Lemma scout_site_keeps fuel (self : BeesSolver F) n i p w p' w' :
  well_formed (settings self) ->
  sound_population (settings self) n p ->
  scout_site fuel self i p w = (Return p', w') ->
  sound_population (settings self) n p'.
Proof.
  intros WF [Hp Hl] E. unfold scout_site in E. rewrite bind_run in E.
  destruct (generate_random_solution fuel (settings self) w)
    as [[s| |] w1] eqn:Eg; try discriminate.
  apply of_option_return in E. destruct E as [E _].
  unfold setitem in E.
  destruct (norm_index (length p) i) as [k|]; [|discriminate].
  inversion E; subst p'.
  split; [|rewrite upd_length; exact Hl].
  apply Forall_upd; auto.
  eapply generate_random_solution_return; eauto.
Qed.

(** A generation that completes keeps the size of the population, the
    feasibility of its solutions and the parameters of the solver. *)
Lemma simulate_population_keeps fuel (self : BeesSolver F) w self' w' :
  well_formed (settings self) ->
  Forall (feasible_solution (settings self)) (population self) ->
  simulate_population fuel self w = (Return self', w') ->
  Forall (feasible_solution (settings self)) (population self')
  /\ length (population self') = length (population self)
  /\ same_parameters self self'.
Proof.
  intros WF Hp E. unfold Algorithm.simulate_population in E.
  rewrite bind_run in E.
  destruct (Algorithm.sorted_by_cost _ _ _ _ _ self (population self) w)
    as [[p0| |] w0] eqn:Es; try discriminate.
  rewrite bind_run in E.
  destruct (for_each (range 0 (elite_sites self)) _ p0 w0)
    as [[p1| |] w1] eqn:E1; try discriminate.
  rewrite bind_run in E.
  destruct (for_each (range (elite_sites self) _) _ p1 w1)
    as [[p2| |] w2] eqn:E2; try discriminate.
  rewrite bind_run in E.
  destruct (for_each (range (elite_sites self + normal_sites self) _) _ p2 w2)
    as [[p3| |] w3] eqn:E3; try discriminate.
  unfold ret in E. inversion E; subst self' w'. simpl. clear E.
  apply sorted_by_cost_same in Es. destruct Es as (_ & L0 & In0).
  set (n := length (population self)).
  assert (P0 : sound_population (settings self) n p0).
  { split; [|exact L0]. rewrite Forall_forall in *. intros x Hx.
    apply Hp. apply In0. exact Hx. }
  assert (P1 : sound_population (settings self) n p1).
  { eapply for_each_invariant; [| exact P0 | exact E1].
    intros x a t a' t' _ Pa Eb. eapply exploit_site_keeps; eauto. }
  assert (P2 : sound_population (settings self) n p2).
  { eapply for_each_invariant; [| exact P1 | exact E2].
    intros x a t a' t' _ Pa Eb. eapply exploit_site_keeps; eauto. }
  assert (P3 : sound_population (settings self) n p3).
  { eapply for_each_invariant; [| exact P2 | exact E3].
    intros x a t a' t' _ Pa Eb. eapply scout_site_keeps; eauto. }
  destruct P3 as [H3 L3]. split; [exact H3|]. split; [exact L3|].
  unfold same_parameters. simpl. repeat split; reflexivity.
Qed.

End Search.

End PopulationFacts.

(* ===================================================================== *)
(** * Ranking, ties and the reported cost                                *)
(* ===================================================================== *)

Module RunFacts.
Import Runtime Model Algorithm Notions Scenario Terms ListFacts MatrixFacts
       RepairFacts GeneratorFacts SearchFacts MutationFacts FuelFacts
       CostFacts FeasibilityFacts PopulationFacts.

Lemma range_length a b : length (range a b) = Z.to_nat (b - a).
Proof. unfold range. rewrite length_map, length_seq. reflexivity. Qed.

(** The head of a stable sort is the first element of the list with a
    least key: every element before it has a greater key. *)
Lemma sort_keyed_first K A (lt : K -> K -> bool) (l : list (K * A)) h rest :
  sort_keyed lt l = h :: rest ->
  exists pre post,
    l = pre ++ h :: post
    /\ Forall (fun y => lt (fst h) (fst y) = true) pre.
Proof.
  revert h rest; induction l as [|x l IH]; intros h rest E; simpl in E.
  - discriminate.
  - destruct (sort_keyed lt l) as [|h' rest'] eqn:Es; simpl in E.
    + inversion E; subst. exists [], l. split; [reflexivity|constructor].
    + destruct (lt (fst h') (fst x)) eqn:C.
      * inversion E; subst h rest.
        destruct (IH h' rest' eq_refl) as (pre & post & -> & Hpre).
        exists (x :: pre), post. split; [reflexivity|].
        constructor; auto.
      * inversion E; subst h rest.
        exists [], l. split; [reflexivity|constructor].
Qed.

Section Search.

Variable F : Type.
Variable fzero : F.
Variables fadd fmul : F -> F -> F.
Variable of_int : Z -> F.
Variable flt : F -> F -> bool.

Local Abbreviation cost := (calculate_cost fzero fadd fmul of_int).
Local Abbreviation find_best_neighbour :=
  (Algorithm.find_best_neighbour fzero fadd fmul of_int flt).
Local Abbreviation simulate_population :=
  (Algorithm.simulate_population fzero fadd fmul of_int flt).
Local Abbreviation find_best_solution :=
  (Algorithm.find_best_solution fzero fadd fmul of_int flt).
Local Abbreviation sorted_by_cost :=
  (Algorithm.sorted_by_cost fzero fadd fmul of_int flt).
Local Abbreviation current_cost :=
  (Algorithm.current_cost fzero fadd fmul of_int).

(** ** The random population *)

Lemma random_population_return fuel (self : BeesSolver F) w p w' :
  well_formed (settings self) ->
  random_population fuel self w = (Return p, w') ->
  Forall (feasible_solution (settings self)) p
  /\ length p = Z.to_nat (population_size self).
Proof.
  intros WF E. unfold random_population in E. split.
  - apply map_m_results in E.
    induction E as [|x y xs ys (t & t' & Hxy) H IH]; constructor; auto.
    eapply generate_random_solution_return; eauto.
  - apply map_m_length in E. rewrite E, range_length. f_equal. lia.
Qed.

Lemma random_population_total fuel (self : BeesSolver F) w :
  well_formed (settings self) -> feasible (settings self) ->
  (enough_fuel (settings self) <= fuel)%nat ->
  exists p w', random_population fuel self w = (Return p, w').
Proof.
  intros WF Fe Hf. unfold random_population.
  destruct (map_m_total _ _ _ (fun _ => True)
              (fun _ : Z => generate_random_solution fuel (settings self)))
    with (xs := range 0 (population_size self)) (s := w)
    as (p & w' & E & _).
  - intros x s.
    destruct (generate_random_solution_spec F fuel (settings self) s
                WF Fe Hf) as (sol & s' & E & _).
    exists sol, s'. auto.
  - eauto.
Qed.

(** ** The ranking of the candidates *)

(** Without neighbours the search returns the solution it was given when
    its cost is defined, raises what the cost raises otherwise, and draws
    nothing. *)
Lemma find_best_neighbour_no_neighbour (self : BeesSolver F) s k w :
  k <= 0 ->
  find_best_neighbour self s k w =
  (match cost s (settings self) with
   | Return _ => Return s
   | Raise e => Raise e
   | OutOfFuel => OutOfFuel
   end, w).
Proof.
  intros H. unfold Algorithm.find_best_neighbour.
  rewrite range_nil by lia. simpl map. simpl map_m.
  rewrite (bind_return _ _ _ (ret []) _ w [] w eq_refl). simpl app.
  unfold Algorithm.sorted_by_cost, sorted. simpl map_m.
  rewrite !bind_run. unfold lift.
  destruct (cost s (settings self)) as [c|e|]; reflexivity.
Qed.

(** ** The cost of the first slot *)

Hypothesis flt_irrefl : forall a, flt a a = false.
Hypothesis flt_asym : forall a b, flt a b = true -> flt b a = false.
Hypothesis flt_negtrans :
  forall a b c, flt a b = false -> flt b c = false -> flt a c = false.

(** ** The ranking of the candidates *)

(** The neighbourhood search returns the first of the cheapest
    candidates, the candidates being the mutated copies followed by the
    solution it was given: every candidate before the returned one costs
    more, and no candidate after it costs less. *)
Lemma find_best_neighbour_first (self : BeesSolver F) s k w best w' :
  find_best_neighbour self s k w = (Return best, w') ->
  exists neighbours pre post cb,
    map_m (in_place (mutate_solution self))
          (map (fun _ => deepcopy s) (range 0 k)) w
    = (Return neighbours, w')
    /\ neighbours ++ [s] = pre ++ best :: post
    /\ cost best (settings self) = Return cb
    /\ Forall (fun y => exists cy, cost y (settings self) = Return cy
                                   /\ flt cb cy = true) pre
    /\ Forall (fun y => exists cy, cost y (settings self) = Return cy
                                   /\ flt cy cb = false) post.
Proof.
  unfold Algorithm.find_best_neighbour. intros E. rewrite bind_run in E.
  destruct (map_m _ _ w) as [[neighbours| |] w1] eqn:Em; try discriminate.
  rewrite bind_run in E.
  destruct (Algorithm.sorted_by_cost _ _ _ _ _ _ _ w1)
    as [[ranked| |] w2] eqn:Es; try discriminate.
  apply of_option_return in E. destruct E as [E <-].
  apply getitem_0 in E. destruct E as (rest & ->).
  unfold Algorithm.sorted_by_cost in Es. apply sorted_run in Es.
  destruct Es as (keyed & Er & El & Fk & ->).
  destruct (sort_keyed flt keyed) as [|[cb b] srest] eqn:Ek;
    simpl in Er; [discriminate|]. inversion Er; subst b rest.
  destruct (sort_keyed_head F Solution flt flt_irrefl flt_asym
              flt_negtrans keyed _ _ Ek) as (_ & Hmin).
  destruct (sort_keyed_first _ _ flt keyed _ _ Ek) as (pre & post & -> & Hp).
  rewrite map_app in El. simpl in El.
  exists neighbours, (map snd pre), (map snd post), cb.
  split; [reflexivity|]. split; [symmetry; exact El|].
  rewrite Forall_app in Fk. destruct Fk as [Fpre Fpost].
  inversion Fpost as [|? ? Hb Fpost']; subst. simpl in Hb.
  split; [exact Hb|]. split.
  - apply Forall_map. rewrite Forall_forall in *. intros [cy y] Hy. simpl.
    exists cy. split; [apply (Fpre _ Hy)|apply (Hp _ Hy)].
  - apply Forall_map. rewrite Forall_forall in *. intros [cy y] Hy. simpl.
    exists cy. split; [apply (Fpost' _ Hy)|].
    apply (Hmin (cy, y)). apply in_or_app. right. right. exact Hy.
Qed.

(** With at least one exploited site, the cost [current_cost] reports
    after a generation is not above the cost it reported before. *)
Lemma current_cost_not_above fuel (self : BeesSolver F) w self' w' u c u' :
  1 <= elite_sites self + normal_sites self ->
  simulate_population fuel self w = (Return self', w') ->
  current_cost self u = (Return c, u') ->
  exists c', (forall v, current_cost self' v = (Return c', v))
             /\ flt c c' = false.
Proof.
  intros Hs E Ec.
  destruct (simulate_population_best F fzero fadd fmul of_int flt
              flt_irrefl flt_asym flt_negtrans fuel self w self' w' Hs E)
    as (best & cb & Hb & Hcb & Hmin).
  assert (Eset : settings self' = settings self).
  { unfold Algorithm.simulate_population in E.
    repeat (rewrite bind_run in E;
            match type of E with
            | context [match ?c with _ => _ end] =>
                destruct c as [[?| |] ?]; try discriminate
            end).
    unfold ret in E. inversion E; subst. reflexivity. }
  unfold Algorithm.current_cost in Ec. rewrite bind_run in Ec.
  destruct (of_option IndexError (getitem (population self) 0) u)
    as [[first| |] u1] eqn:Eg; try discriminate.
  apply of_option_return in Eg. destruct Eg as [Eg ->].
  apply getitem_0 in Eg. destruct Eg as (rest & Ep).
  unfold lift in Ec.
  destruct (cost first (settings self)) as [c0| |] eqn:E0;
    inversion Ec; subst c0 u'.
  destruct (Hmin first) as (cs & Hcs & Hle).
  { rewrite Ep. left; auto. }
  rewrite E0 in Hcs. inversion Hcs; subst cs.
  exists cb. split; [|exact Hle].
  intros v. unfold Algorithm.current_cost.
  assert (G : getitem (population self') 0 = Some best).
  { destruct (population self') as [|x xs]; simpl in Hb; [discriminate|].
    inversion Hb; subst. reflexivity. }
  rewrite G. simpl of_option.
  rewrite (bind_return _ _ _ _ _ v best v eq_refl).
  unfold lift. rewrite Eset, Hcb. reflexivity.
Qed.

End Search.

End RunFacts.

(* ===================================================================== *)
(** * The full run                                                       *)
(* ===================================================================== *)

Module FullRunFacts.
Import Runtime Model Algorithm Notions Scenario Terms ListFacts MatrixFacts
       RepairFacts GeneratorFacts SearchFacts MutationFacts FuelFacts
       CostFacts FeasibilityFacts PopulationFacts RunFacts.

(** ** Loops whose iterations all return *)

Lemma for_each_total S A B (P : B -> Prop) (body : A -> B -> M S B) :
  forall xs,
    (forall x acc s, In x xs -> P acc ->
                     exists acc' s', body x acc s = (Return acc', s')
                                     /\ P acc') ->
    forall acc s, P acc ->
      exists r s', for_each xs body acc s = (Return r, s') /\ P r.
Proof.
  induction xs as [|x xs IH]; intros Hb acc s Pa.
  - exists acc, s. simpl. unfold ret. auto.
  - destruct (Hb x acc s (or_introl eq_refl) Pa) as (a1 & s1 & E1 & P1).
    destruct (IH (fun y a t Hy => Hb y a t (or_intror Hy)) a1 s1 P1)
      as (r & s' & E & Pr).
    exists r, s'. simpl. rewrite (bind_return _ _ _ _ _ _ _ _ E1). auto.
Qed.

Lemma for_each_state_total S A B (P : S -> Prop) (body : A -> B -> M S B) :
  (forall x acc s, P s ->
                   exists acc' s', body x acc s = (Return acc', s') /\ P s') ->
  forall xs acc s, P s ->
    exists r s', for_each xs body acc s = (Return r, s') /\ P s'.
Proof.
  intros Hb. induction xs as [|x xs IH]; intros acc s Ps.
  - exists acc, s. simpl. unfold ret. auto.
  - destruct (Hb x acc s Ps) as (a1 & s1 & E1 & P1).
    destruct (IH a1 s1 P1) as (r & s' & E & Pr).
    exists r, s'. simpl. rewrite (bind_return _ _ _ _ _ _ _ _ E1). auto.
Qed.

Lemma map_m_total_on S A B (Q : A -> Prop) (P : B -> Prop) (f : A -> M S B) :
  (forall x s, Q x -> exists y s', f x s = (Return y, s') /\ P y) ->
  forall xs s, Forall Q xs ->
    exists ys s',
      map_m f xs s = (Return ys, s') /\ Forall P ys
      /\ length ys = length xs.
Proof.
  intros Hf. induction xs as [|x xs IH]; intros s Hq.
  - exists [], s. simpl. unfold ret. auto.
  - inversion Hq; subst.
    destruct (Hf x s) as (y & s1 & E1 & Py); auto.
    destruct (IH s1) as (ys & s2 & E2 & Pys & L); auto.
    exists (y :: ys), s2. simpl.
    rewrite (bind_return _ _ _ _ _ _ _ _ E1).
    rewrite (bind_return _ _ _ _ _ _ _ _ E2). unfold ret.
    split; [reflexivity|]. split; [constructor; auto|simpl; lia].
Qed.

Lemma norm_index_some len i :
  0 <= i < Z.of_nat len -> exists k, norm_index len i = Some k
                                     /\ (k < len)%nat.
Proof.
  intros H. exists (Z.to_nat i). split; [apply norm_index_in; exact H|lia].
Qed.

Section Search.

Variable F : Type.
Variable fzero : F.
Variables fadd fmul : F -> F -> F.
Variable of_int : Z -> F.
Variable flt : F -> F -> bool.

Local Abbreviation cost := (calculate_cost fzero fadd fmul of_int).
Local Abbreviation find_best_neighbour :=
  (Algorithm.find_best_neighbour fzero fadd fmul of_int flt).
Local Abbreviation exploit_site :=
  (Algorithm.exploit_site fzero fadd fmul of_int flt).
Local Abbreviation simulate_population :=
  (Algorithm.simulate_population fzero fadd fmul of_int flt).
Local Abbreviation find_best_solution :=
  (Algorithm.find_best_solution fzero fadd fmul of_int flt).
Local Abbreviation sorted_by_cost :=
  (Algorithm.sorted_by_cost fzero fadd fmul of_int flt).

(** ** [init_population] *)

(** On a feasible configuration [init_population] returns: the solver has
    its parameters, and a population of [population_size] feasible
    solutions (none for a size that is not positive). *)
Lemma init_population_sound fuel (self : BeesSolver F) w :
  well_formed (settings self) -> feasible (settings self) ->
  (enough_fuel (settings self) <= fuel)%nat ->
  exists self' w',
    init_population fuel self w = (Return self', w')
    /\ same_parameters self self'
    /\ length (population self') = Z.to_nat (population_size self)
    /\ Forall (feasible_solution (settings self)) (population self').
Proof.
  intros WF Fe Hf.
  destruct (random_population_total F fuel self w WF Fe Hf)
    as (p & w' & E).
  destruct (random_population_return F fuel self w p w' WF E) as [Hp L].
  exists (with_population self p), w'. unfold init_population.
  rewrite (bind_return _ _ _ _ _ _ _ _ E). unfold ret.
  split; [reflexivity|]. split; [|split]; [|exact L|exact Hp].
  unfold same_parameters. simpl. repeat split; reflexivity.
Qed.

(** ** What [find_best_solution] returns *)

Lemma simulate_population_sound fuel (self s : BeesSolver F) w s' w' :
  well_formed (settings self) -> sound_solver self s ->
  simulate_population fuel s w = (Return s', w') ->
  sound_solver self s'.
Proof.
  intros WF (Hs & L & Hp) E.
  pose proof Hs as (E0 & E1 & E2 & E3 & E4 & E5 & E6 & E7).
  rewrite <- E0 in WF, Hp.
  destruct (simulate_population_keeps F fzero fadd fmul of_int flt fuel
              s w s' w' WF Hp E) as (Hp' & L' & Hs').
  destruct Hs' as (D0 & D1 & D2 & D3 & D4 & D5 & D6 & D7).
  split; [|split].
  - unfold same_parameters. repeat split; congruence.
  - congruence.
  - rewrite <- E0. exact Hp'.
Qed.

(** A run that returns hands back the first slot of its last population;
    this solution is feasible, as are the others of the population, which
    has [population_size] slots. *)
Lemma find_best_solution_return fuel (self : BeesSolver F) iterations w
  best self' w' :
  well_formed (settings self) ->
  find_best_solution fuel self iterations w = (Return (best, self'), w') ->
  nth_error (population self') 0 = Some best
  /\ feasible_solution (settings self) best
  /\ sound_solver self self'.
Proof.
  intros WF E. unfold Algorithm.find_best_solution in E.
  rewrite bind_run in E.
  destruct (random_population fuel self w) as [[p| |] w0] eqn:Ep;
    try discriminate.
  destruct (random_population_return F fuel self w p w0 WF Ep) as [Hp L].
  rewrite bind_run in E.
  destruct (for_each (range 0 iterations) _ (with_population self p) w0)
    as [[s1| |] w1] eqn:El; try discriminate.
  rewrite bind_run in E.
  destruct (of_option IndexError (getitem (population s1) 0) w1)
    as [[b| |] w2] eqn:Eg; try discriminate.
  unfold ret in E. inversion E; subst b s1 w2. clear E.
  apply of_option_return in Eg. destruct Eg as [Eg _].
  apply getitem_0 in Eg. destruct Eg as (rest & Epop).
  assert (S0 : sound_solver self (with_population self p)).
  { split; [|split]; [|exact L|exact Hp].
    unfold same_parameters. simpl. repeat split; reflexivity. }
  assert (S1 : sound_solver self self').
  { eapply for_each_invariant; [| exact S0 | exact El].
    intros x a t a' t' _ Pa Eb.
    exact (simulate_population_sound fuel self a t a' t' WF Pa Eb). }
  split; [rewrite Epop; reflexivity|]. split; [|exact S1].
  destruct S1 as (_ & _ & Hall). rewrite Epop in Hall.
  inversion Hall; auto.
Qed.

(** ** The empty population *)

Lemma simulate_population_empty fuel (self : BeesSolver F) w :
  population self = [] -> 0 <= elite_sites self -> 0 <= normal_sites self ->
  simulate_population fuel self w = (Raise IndexError, w)
  \/ simulate_population fuel self w = (Return self, w).
Proof.
  intros Hp He Hn. unfold Algorithm.simulate_population. rewrite Hp.
  assert (S : sorted_by_cost self [] w = (Return [], w)) by reflexivity.
  rewrite (bind_return _ _ _ _ _ _ _ _ S).
  destruct (Z.eq_dec (elite_sites self) 0) as [E0|E0].
  - rewrite E0. simpl (range 0 0). simpl for_each.
    rewrite (bind_return _ _ _ (ret []) _ w [] w eq_refl).
    destruct (Z.eq_dec (normal_sites self) 0) as [N0|N0].
    + rewrite N0. simpl (range 0 (0 + 0)). simpl for_each.
      rewrite (bind_return _ _ _ (ret []) _ w [] w eq_refl).
      simpl. right. unfold bind, ret. simpl.
      destruct self; simpl in *; subst; reflexivity.
    + left. simpl (0 + normal_sites self).
      rewrite (range_cons 0 (normal_sites self)) by lia. simpl for_each.
      apply bind_raise. apply bind_raise. apply exploit_site_empty.
  - left. rewrite (range_cons 0 (elite_sites self)) by lia. simpl for_each.
    apply bind_raise. apply bind_raise. apply exploit_site_empty.
Qed.

(** A run on a population size that is not positive raises [IndexError],
    and draws nothing. *)
Lemma find_best_solution_empty fuel (self : BeesSolver F) iterations w :
  population_size self <= 0 ->
  0 <= elite_sites self -> 0 <= normal_sites self ->
  find_best_solution fuel self iterations w = (Raise IndexError, w).
Proof.
  intros Hs He Hn. unfold Algorithm.find_best_solution.
  unfold random_population. rewrite range_nil by lia. simpl map_m.
  rewrite (bind_return _ _ _ (ret []) _ w [] w eq_refl).
  set (s0 := with_population self []).
  assert (G : forall xs,
             for_each xs (fun (_ : Z) s => simulate_population fuel s) s0 w
             = (Raise IndexError, w)
             \/ for_each xs (fun (_ : Z) s => simulate_population fuel s) s0 w
                = (Return s0, w)).
  { induction xs as [|x xs IH]; simpl.
    - right. reflexivity.
    - destruct (simulate_population_empty fuel s0 w eq_refl He Hn)
        as [E|E].
      + left. apply bind_raise. exact E.
      + rewrite (bind_return _ _ _ _ _ _ _ _ E). exact IH. }
  destruct (G (range 0 iterations)) as [E|E].
  - apply bind_raise. exact E.
  - rewrite (bind_return _ _ _ _ _ _ _ _ E). reflexivity.
Qed.

End Search.

End FullRunFacts.

(* ===================================================================== *)
(** * Passes of type mutations                                           *)
(* ===================================================================== *)

Module TotalityFacts.
Import Runtime Model Algorithm Notions Scenario Terms ListFacts MatrixFacts
       RepairFacts GeneratorFacts SearchFacts MutationFacts FuelFacts
       CostFacts FeasibilityFacts PopulationFacts RunFacts FullRunFacts.

Section Search.

Variable F : Type.
Variable fzero : F.
Variables fadd fmul : F -> F -> F.
Variable of_int : Z -> F.
Variable flt : F -> F -> bool.

Local Abbreviation cost := (calculate_cost fzero fadd fmul of_int).
Local Abbreviation find_best_neighbour :=
  (Algorithm.find_best_neighbour fzero fadd fmul of_int flt).
Local Abbreviation exploit_site :=
  (Algorithm.exploit_site fzero fadd fmul of_int flt).
Local Abbreviation simulate_population :=
  (Algorithm.simulate_population fzero fadd fmul of_int flt).
Local Abbreviation find_best_solution :=
  (Algorithm.find_best_solution fzero fadd fmul of_int flt).
Local Abbreviation sorted_by_cost :=
  (Algorithm.sorted_by_cost fzero fadd fmul of_int flt).

Variable self : BeesSolver F.
Hypothesis WF : well_formed (settings self).
Hypothesis TF : tables_fit (settings self).
Hypothesis no_module_mutation : modules_mutations self <= 0.

(** A pass of type mutations returns. *)
Lemma mutate_solution_total sol w :
  feasible_solution (settings self) sol ->
  exists u w' sol',
    mutate_solution self (w, sol) = (Return u, (w', sol'))
    /\ feasible_solution (settings self) sol'.
Proof.
  intros FS. unfold mutate_solution.
  rewrite (range_nil 0 (modules_mutations self)) by lia. simpl for_each.
  rewrite (bind_return _ _ _ (ret tt) _ (w, sol) tt (w, sol) eq_refl).
  destruct (for_each_state_total _ _ _
              (fun st : world * Solution =>
                 feasible_solution (settings self) (snd st))
              (fun (_ : Z) (_ : unit) => mutate_rockets_type_allocation self))
    with (xs := range 0 (rockets_type_mutations self)) (acc := tt)
         (s := (w, sol)) as (u & [w' sol'] & E & P); auto.
  - intros x acc [t1 t2] Pt. simpl in Pt.
    pose proof WF as [Ht Hr _ _]. pose proof Pt as [Tl _ _ _].
    eexists; eexists. split.
    + apply (mutate_rockets_type_allocation_run F self t2 t1 Hr Ht Tl).
    + simpl.
      eapply (mutate_rockets_type_allocation_keeps F self t2 t1 tt); eauto.
      apply (mutate_rockets_type_allocation_run F self t2 t1 Hr Ht Tl).
  - exists u, w', sol'. auto.
Qed.

Lemma sorted_by_cost_total l w :
  Forall (feasible_solution (settings self)) l ->
  exists r, sorted_by_cost self l w = (Return r, w)
            /\ length r = length l.
Proof.
  intros Hl. unfold Algorithm.sorted_by_cost, sorted.
  assert (G : forall xs, Forall (feasible_solution (settings self)) xs ->
             exists keyed,
               map_m (fun a => k <- lift (cost a (settings self)) ;;
                               ret (k, a)) xs w = (Return keyed, w)).
  { induction 1 as [|x xs Hx H IH]; simpl.
    - exists []. reflexivity.
    - destruct (cost_defined F fzero fadd fmul of_int (settings self) x
                  WF TF Hx) as (c & Ec).
      destruct IH as (keyed & Ek). exists ((c, x) :: keyed).
      rewrite (bind_return _ _ _ _ _ w (c, x) w)
        by (rewrite bind_run; unfold lift; rewrite Ec; reflexivity).
      rewrite (bind_return _ _ _ _ _ _ _ _ Ek). reflexivity. }
  destruct (G l Hl) as (keyed & Ek).
  exists (map snd (sort_keyed flt keyed)).
  assert (E : sorted_by_cost self l w
              = (Return (map snd (sort_keyed flt keyed)), w)).
  { unfold Algorithm.sorted_by_cost, sorted.
    rewrite (bind_return _ _ _ _ _ _ _ _ Ek). reflexivity. }
  split; [exact E|].
  apply (sorted_by_cost_length F _ _ _ _ _ _ _ _ _ _ E).
Qed.

(** The neighbourhood search by type mutations returns. *)
Lemma find_best_neighbour_total s k w :
  feasible_solution (settings self) s ->
  exists best w',
    find_best_neighbour self s k w = (Return best, w')
    /\ feasible_solution (settings self) best.
Proof.
  intros FS.
  destruct (map_m_total_on _ _ _ (fun x => x = s)
              (feasible_solution (settings self))
              (in_place (mutate_solution self)))
    with (xs := map (fun _ : Z => deepcopy s) (range 0 k)) (s := w)
    as (neighbours & w1 & Em & Hn & _).
  - intros x t ->. destruct (mutate_solution_total s t FS)
      as (u & w' & sol' & E & FS').
    exists sol', w'. split; [|exact FS'].
    unfold in_place. rewrite E. reflexivity.
  - apply Forall_forall. intros x Hx. apply in_map_iff in Hx.
    destruct Hx as (i & <- & _). reflexivity.
  - destruct (sorted_by_cost_total (neighbours ++ [s]) w1)
      as (ranked & Es & L).
    { apply Forall_app. split; auto. }
    destruct ranked as [|best rest].
    { rewrite length_app in L. simpl in L. lia. }
    assert (E : find_best_neighbour self s k w = (Return best, w1)).
    { unfold Algorithm.find_best_neighbour.
      rewrite (bind_return _ _ _ _ _ _ _ _ Em).
      rewrite (bind_return _ _ _ _ _ _ _ _ Es). reflexivity. }
    exists best, w1. split; [exact E|].
    eapply find_best_neighbour_feasible; eauto.
Qed.

Lemma exploit_site_total n size i p w :
  sound_population (settings self) n p -> 0 <= i < Z.of_nat n ->
  exists p' w',
    exploit_site self size i p w = (Return p', w')
    /\ sound_population (settings self) n p'.
Proof.
  intros [Hp L] Hi. rewrite <- L in Hi.
  destruct (nth_error p (Z.to_nat i)) as [s|] eqn:Es;
    [|apply nth_error_None in Es; lia].
  destruct (find_best_neighbour_total s size w) as (best & w' & E & FS).
  { eapply Forall_nth_error; eauto. }
  assert (Er : exploit_site self size i p w
               = (Return (upd (Z.to_nat i) best p), w')).
  { unfold Algorithm.exploit_site. unfold getitem, setitem.
    rewrite norm_index_in by exact Hi. rewrite Es. simpl of_option.
    rewrite (bind_return _ _ _ (ret s) _ w s w eq_refl).
    rewrite (bind_return _ _ _ _ _ _ _ _ E). reflexivity. }
  eexists; eexists. split; [exact Er|].
  split; [apply Forall_upd; auto|rewrite upd_length; exact L].
Qed.

Hypothesis Fe : feasible (settings self).

Lemma scout_site_total fuel n i p w :
  (enough_fuel (settings self) <= fuel)%nat ->
  sound_population (settings self) n p -> 0 <= i < Z.of_nat n ->
  exists p' w',
    scout_site fuel self i p w = (Return p', w')
    /\ sound_population (settings self) n p'.
Proof.
  intros Hf [Hp L] Hi. rewrite <- L in Hi.
  destruct (generate_random_solution_spec F fuel (settings self) w WF Fe Hf)
    as (sol & w' & E & _).
  assert (FS : feasible_solution (settings self) sol)
    by (eapply generate_random_solution_return; eauto).
  assert (Er : scout_site fuel self i p w
               = (Return (upd (Z.to_nat i) sol p), w')).
  { unfold scout_site. rewrite (bind_return _ _ _ _ _ _ _ _ E).
    unfold setitem. rewrite norm_index_in by exact Hi. reflexivity. }
  eexists; eexists. split; [exact Er|].
  split; [apply Forall_upd; auto|rewrite upd_length; exact L].
Qed.

End Search.

End TotalityFacts.

(* ===================================================================== *)
(** * Runs by type mutations                                             *)
(* ===================================================================== *)

Module RunTotalityFacts.
Import Runtime Model Algorithm Notions Scenario Terms ListFacts MatrixFacts
       RepairFacts GeneratorFacts SearchFacts MutationFacts FuelFacts
       CostFacts FeasibilityFacts PopulationFacts RunFacts FullRunFacts
       TotalityFacts.

Section Run.

Variable F : Type.
Variable fzero : F.
Variables fadd fmul : F -> F -> F.
Variable of_int : Z -> F.
Variable flt : F -> F -> bool.

Local Abbreviation simulate_population :=
  (Algorithm.simulate_population fzero fadd fmul of_int flt).
Local Abbreviation find_best_solution :=
  (Algorithm.find_best_solution fzero fadd fmul of_int flt).
Local Abbreviation sorted_by_cost :=
  (Algorithm.sorted_by_cost fzero fadd fmul of_int flt).

(** A generation by type mutations on a feasible population with a slot
    for every site completes. *)
Lemma simulate_population_total fuel (s : BeesSolver F) w :
  well_formed (settings s) -> tables_fit (settings s) ->
  feasible (settings s) ->
  (enough_fuel (settings s) <= fuel)%nat ->
  modules_mutations s <= 0 ->
  0 <= elite_sites s -> 0 <= normal_sites s ->
  elite_sites s + normal_sites s <= Z.of_nat (length (population s)) ->
  Forall (feasible_solution (settings s)) (population s) ->
  exists s' w', simulate_population fuel s w = (Return s', w').
Proof.
  intros WF TF Fe Hf Hm He Hn Hen Hp.
  set (n := length (population s)) in *.
  destruct (sorted_by_cost_total F fzero fadd fmul of_int flt s WF TF
              (population s) w Hp) as (p0 & E0 & L0).
  assert (P0 : sound_population (settings s) n p0).
  { split; [|exact L0].
    apply (sorted_by_cost_same F fzero fadd fmul of_int flt) in E0.
    destruct E0 as (_ & _ & Hin). rewrite Forall_forall in *.
    intros x Hx. apply Hp. apply Hin. exact Hx. }
  destruct (for_each_total _ _ _ (sound_population (settings s) n)
              (Algorithm.exploit_site fzero fadd fmul of_int flt s
                 (elite_site_size s))
              (range 0 (elite_sites s)))
    with (acc := p0) (s := w) as (p1 & w1 & E1 & P1); auto.
  { intros x acc t Hx Pa. apply in_range in Hx.
    apply (exploit_site_total F fzero fadd fmul of_int flt s WF TF Hm);
      auto. lia. }
  destruct (for_each_total _ _ _ (sound_population (settings s) n)
              (Algorithm.exploit_site fzero fadd fmul of_int flt s
                 (normal_site_size s))
              (range (elite_sites s) (elite_sites s + normal_sites s)))
    with (acc := p1) (s := w1) as (p2 & w2 & E2 & P2); auto.
  { intros x acc t Hx Pa. apply in_range in Hx.
    apply (exploit_site_total F fzero fadd fmul of_int flt s WF TF Hm);
      auto. lia. }
  destruct (for_each_total _ _ _ (sound_population (settings s) n)
              (scout_site fuel s)
              (range (elite_sites s + normal_sites s)
                     (Z.of_nat (length p2))))
    with (acc := p2) (s := w2) as (p3 & w3 & E3 & P3); auto.
  { intros x acc t Hx Pa. apply in_range in Hx.
    apply (scout_site_total F s WF Fe); auto.
    destruct P2 as [_ L2]. lia. }
  exists (with_population s p3), w3.
  unfold Algorithm.simulate_population.
  rewrite (bind_return _ _ _ _ _ _ _ _ E0).
  rewrite (bind_return _ _ _ _ _ _ _ _ E1).
  rewrite (bind_return _ _ _ _ _ _ _ _ E2).
  rewrite (bind_return _ _ _ _ _ _ _ _ E3). reflexivity.
Qed.

(** A run by type mutations on a feasible configuration, with a slot for
    every site and at least one slot, returns. *)
Lemma find_best_solution_total fuel (self : BeesSolver F) iterations w :
  well_formed (settings self) -> tables_fit (settings self) ->
  feasible (settings self) ->
  (enough_fuel (settings self) <= fuel)%nat ->
  modules_mutations self <= 0 ->
  0 <= elite_sites self -> 0 <= normal_sites self ->
  elite_sites self + normal_sites self <= population_size self ->
  1 <= population_size self ->
  exists best self' w',
    find_best_solution fuel self iterations w = (Return (best, self'), w').
Proof.
  intros WF TF Fe Hf Hm He Hn Hen Hps.
  destruct (random_population_total F fuel self w WF Fe Hf) as (p & w0 & Ep).
  destruct (random_population_return F fuel self w p w0 WF Ep) as [Hp L].
  assert (S0 : sound_solver self (with_population self p)).
  { split; [|split]; [|exact L|exact Hp].
    unfold same_parameters. simpl. repeat split; reflexivity. }
  destruct (for_each_total _ _ _ (sound_solver self)
              (fun (_ : Z) s => simulate_population fuel s)
              (range 0 iterations))
    with (acc := with_population self p) (s := w0)
    as (s1 & w1 & El & S1); auto.
  { intros x acc t _ Pa.
    pose proof Pa as ((E0 & E1 & E2 & E3 & E4 & E5 & E6 & E7) & La & Ha).
    assert (WF' : well_formed (settings acc)) by (rewrite E0; exact WF).
    assert (TF' : tables_fit (settings acc)) by (rewrite E0; exact TF).
    assert (Fe' : feasible (settings acc)) by (rewrite E0; exact Fe).
    assert (Hf' : (enough_fuel (settings acc) <= fuel)%nat)
      by (rewrite E0; exact Hf).
    assert (Ha' : Forall (feasible_solution (settings acc)) (population acc))
      by (rewrite E0; exact Ha).
    destruct (simulate_population_total fuel acc t WF' TF' Fe' Hf')
      as (s' & t' & E); auto; try lia.
    exists s', t'. split; [exact E|].
    exact (simulate_population_sound F fzero fadd fmul of_int flt fuel
             self acc t s' t' WF Pa E). }
  destruct S1 as (_ & L1 & _).
  destruct (population s1) as [|best rest] eqn:Epop.
  { simpl in L1. lia. }
  exists best, s1, w1. unfold Algorithm.find_best_solution.
  rewrite (bind_return _ _ _ _ _ _ _ _ Ep).
  rewrite (bind_return _ _ _ _ _ _ _ _ El).
  rewrite Epop. reflexivity.
Qed.

End Run.

End RunTotalityFacts.

(* ===================================================================== *)
(** * Frames of the mutations and exploited sites                        *)
(* ===================================================================== *)

Module SiteFacts.
Import Runtime Model Algorithm Notions Scenario Terms ListFacts MatrixFacts
       RepairFacts GeneratorFacts SearchFacts MutationFacts FuelFacts
       CostFacts FeasibilityFacts PopulationFacts RunFacts FullRunFacts
       TotalityFacts RunTotalityFacts.

(** ** The frame of the mutations *)

Lemma column_set_cell_other A (d : A) (m : matrix A) i j x j' :
  j <> j' ->
  map (fun r => nth j' r d) (rows (set_cell m i j x))
  = map (fun r => nth j' r d) (rows m).
Proof.
  intros N. unfold set_cell; simpl.
  destruct (nth_error (rows m) i) as [r|] eqn:Hr; [|reflexivity].
  rewrite map_upd. rewrite nth_upd_neq by exact N.
  apply upd_same. rewrite nth_error_map, Hr. reflexivity.
Qed.

Lemma column_add_cell_other m i j d j' :
  j <> j' -> column (add_cell m i j d) j' = column m j'.
Proof.
  intros N. unfold add_cell. destruct (cell m i j); [|reflexivity].
  unfold column. apply column_set_cell_other. exact N.
Qed.

Section Search.

Variable F : Type.
Variable fzero : F.
Variables fadd fmul : F -> F -> F.
Variable of_int : Z -> F.
Variable flt : F -> F -> bool.

Local Abbreviation cost := (calculate_cost fzero fadd fmul of_int).
Local Abbreviation find_best_neighbour :=
  (Algorithm.find_best_neighbour fzero fadd fmul of_int flt).
Local Abbreviation exploit_site :=
  (Algorithm.exploit_site fzero fadd fmul of_int flt).
Local Abbreviation simulate_population :=
  (Algorithm.simulate_population fzero fadd fmul of_int flt).
Local Abbreviation find_best_solution :=
  (Algorithm.find_best_solution fzero fadd fmul of_int flt).
Local Abbreviation sorted_by_cost :=
  (Algorithm.sorted_by_cost fzero fadd fmul of_int flt).
Local Abbreviation not_worse :=
  (Terms.not_worse fzero fadd fmul of_int flt).

(** A module-transfer mutation that returns has left the rocket types and
    the columns of the other module types as they were. *)
Lemma mutate_modules_allocation_frame (self : BeesSolver F)
  sol w u w' sol' :
  mutate_modules_allocation self (w, sol) = (Return u, (w', sol')) ->
  rocket_type_allocation sol' = rocket_type_allocation sol
  /\ (forall j', j' <> chosen_module_type (settings self) w ->
        column (module_allocation sol') j'
        = column (module_allocation sol) j')
  /\ py_drawn 4 w w'.
Proof.
  unfold mutate_modules_allocation. intros E.
  rewrite (bind_return _ _ _ this _ (w, sol) sol (w, sol) eq_refl) in E.
  cbv zeta in E.
  rewrite bind_run, in_world_run in E.
  destruct (randrange _ w) as [[mti|e1|] w1] eqn:E1; simpl in E;
    try discriminate.
  apply randrange_return in E1. destruct E1 as [-> ->].
  rewrite bind_run, in_world_run in E.
  destruct (choice _ (py_advance w)) as [[to|e2|] w2] eqn:E2; simpl in E;
    try discriminate.
  apply choice_return in E2. destruct E2 as [-> _].
  fold (chosen_module_type (settings self) w) in E.
  destruct (chosen_module_type (settings self) w
            <? ncols (module_allocation sol))%nat; [|discriminate].
  rewrite bind_run, in_world_run in E.
  destruct (choice _ _) as [[from|e3|] w3] eqn:E3; simpl in E;
    try discriminate.
  apply choice_return in E3. destruct E3 as [-> _].
  rewrite bind_run, in_world_run in E.
  destruct (randint_np _ _ _ _) as [[amount|e4|] w4] eqn:E4; simpl in E;
    try discriminate.
  apply randint_np_return in E4. destruct E4 as [-> _].
  inversion E; subst. simpl. split; [reflexivity|]. split.
  - intros j' N. rewrite !column_add_cell_other by congruence. reflexivity.
  - unfold py_drawn. simpl. repeat split; lia.
Qed.

(** Whenever the type mutation raises, the solution is as it was. *)
Lemma mutate_rockets_type_allocation_atomic (self : BeesSolver F)
  sol w e st :
  mutate_rockets_type_allocation self (w, sol) = (Raise e, st) ->
  snd st = sol.
Proof.
  unfold mutate_rockets_type_allocation. intros E.
  rewrite bind_run, in_world_run in E.
  destruct (randrange _ w) as [[i|e1|] w1]; simpl in E;
    [|inversion E; reflexivity|discriminate].
  rewrite bind_run, in_world_run in E.
  destruct (randrange _ w1) as [[v|e2|] w2]; simpl in E;
    [|inversion E; reflexivity|discriminate].
  rewrite (bind_return _ _ _ this _ (w2, sol) sol (w2, sol) eq_refl) in E.
  destruct (setitem _ _ _); [discriminate|].
  unfold raise in E. inversion E; reflexivity.
Qed.

(** ** Runs on solvers of the same parameters *)

(** A run does not read the population the solver holds: two solvers of
    the same parameters run alike. *)
Lemma find_best_solution_reseeds fuel (a b : BeesSolver F) iterations w :
  same_parameters a b ->
  find_best_solution fuel a iterations w
  = find_best_solution fuel b iterations w.
Proof.
  destruct a, b. unfold same_parameters. simpl.
  intros (-> & -> & -> & -> & -> & -> & -> & ->). reflexivity.
Qed.

Lemma simulate_population_parameters fuel (s : BeesSolver F) w s' w' :
  simulate_population fuel s w = (Return s', w') -> same_parameters s s'.
Proof.
  intros E. unfold Algorithm.simulate_population in E.
  repeat (rewrite bind_run in E;
          match type of E with
          | context [match ?c with _ => _ end] =>
              destruct c as [[?| |] ?]; try discriminate
          end).
  unfold ret in E. inversion E; subst.
  unfold same_parameters. simpl. repeat split; reflexivity.
Qed.

(** ** Sites *)

Hypothesis flt_irrefl : forall a, flt a a = false.
Hypothesis flt_asym : forall a b, flt a b = true -> flt b a = false.
Hypothesis flt_negtrans :
  forall a b c, flt a b = false -> flt b c = false -> flt a c = false.

Lemma Forall2_upd A B (R : A -> B -> Prop) l1 l2 k a x :
  Forall2 R l1 l2 -> nth_error l1 k = Some a -> R a x ->
  Forall2 R l1 (upd k x l2).
Proof.
  intros H; revert k; induction H as [|a0 b0 l1 l2 H0 H IH];
    intros [|k] Ha Hx; simpl in *; try discriminate.
  - inversion Ha; subst. constructor; auto.
  - constructor; auto.
Qed.

Lemma Forall2_nth_error A B (R : A -> B -> Prop) l1 l2 k b :
  Forall2 R l1 l2 -> nth_error l2 k = Some b ->
  exists a, nth_error l1 k = Some a /\ R a b.
Proof.
  intros H; revert k; induction H as [|a0 b0 l1 l2 H0 H IH];
    intros [|k] Hb; simpl in *; try discriminate.
  - inversion Hb; subst. eauto.
  - auto.
Qed.

Lemma Forall2_firstn A B (R : A -> B -> Prop) n l1 l2 :
  Forall2 R l1 l2 -> Forall2 R (firstn n l1) (firstn n l2).
Proof.
  intros H; revert n; induction H; intros [|n]; simpl; constructor; auto.
Qed.

Lemma firstn_upd A n k (x : A) l :
  (n <= k)%nat -> firstn n (upd k x l) = firstn n l.
Proof.
  revert n k; induction l as [|y l IH]; intros [|n] [|k] H; simpl; auto;
    try lia.
  f_equal. apply IH. lia.
Qed.

Lemma exploit_site_not_worse (self : BeesSolver F) p0 size i p w p' w' :
  Forall2 (not_worse (settings self)) p0 p ->
  exploit_site self size i p w = (Return p', w') ->
  Forall2 (not_worse (settings self)) p0 p'.
Proof.
  intros H E. apply exploit_site_run in E.
  destruct E as (k & s & best & w1 & _ & Hs & Ef & ->).
  destruct (Forall2_nth_error _ _ _ _ _ _ _ H Hs)
    as (a & Ha & ca & cs & Hca & Hcs & Hle).
  apply (find_best_neighbour_not_worse F fzero fadd fmul of_int flt
           flt_irrefl flt_asym flt_negtrans) in Ef.
  destruct Ef as (cb & cs' & Hcb & Hcs' & Hle').
  rewrite Hcs in Hcs'. inversion Hcs'; subst cs'.
  eapply Forall2_upd; eauto.
  exists ca, cb. split; [exact Hca|]. split; [exact Hcb|].
  eapply flt_negtrans; eauto.
Qed.

(** After a generation every exploited site holds a solution that costs
    no more than the solution the ranking had put there. *)
Lemma simulate_population_sites fuel (self : BeesSolver F) w p0 w0
  self' w' :
  sorted_by_cost self (population self) w = (Return p0, w0) ->
  simulate_population fuel self w = (Return self', w') ->
  Forall2 (not_worse (settings self))
    (firstn (Z.to_nat (elite_sites self + normal_sites self)) p0)
    (firstn (Z.to_nat (elite_sites self + normal_sites self))
            (population self')).
Proof.
  intros Es E. unfold Algorithm.simulate_population in E.
  rewrite (bind_return _ _ _ _ _ _ _ _ Es) in E.
  rewrite bind_run in E.
  destruct (for_each (range 0 (elite_sites self)) _ p0 w0)
    as [[p1| |] w1] eqn:E1; try discriminate.
  rewrite bind_run in E.
  destruct (for_each (range (elite_sites self) _) _ p1 w1)
    as [[p2| |] w2] eqn:E2; try discriminate.
  rewrite bind_run in E.
  destruct (for_each (range (elite_sites self + normal_sites self) _) _ p2 w2)
    as [[p3| |] w3] eqn:E3; try discriminate.
  unfold ret in E. inversion E; subst self' w'. simpl. clear E.
  set (m := Z.to_nat (elite_sites self + normal_sites self)).
  assert (Es0 := Es).
  apply sorted_by_cost_run in Es; auto. destruct Es as (_ & _ & Hc & _).
  assert (R0 : Forall2 (not_worse (settings self)) p0 p0).
  { assert (G : forall l, (forall s, In s l ->
                 exists c, cost s (settings self) = Return c) ->
               Forall2 (not_worse (settings self)) l l).
    { induction l as [|x l IH]; intros Hl; constructor.
      - destruct (Hl x (or_introl eq_refl)) as (c & Hx).
        exists c, c. auto.
      - apply IH. intros s Hs. apply Hl. right; exact Hs. }
    apply G. intros s Hs. apply Hc.
    destruct (sorted_by_cost_same F fzero fadd fmul of_int flt
                self (population self) w p0 w0 Es0) as (_ & _ & Hin).
    apply Hin. exact Hs. }
  assert (R1 : Forall2 (not_worse (settings self)) p0 p1).
  { eapply for_each_invariant; [| exact R0 | exact E1].
    intros x a t a' t' _ Pa Eb.
    exact (exploit_site_not_worse self p0 _ x a t a' t' Pa Eb). }
  assert (R2 : Forall2 (not_worse (settings self)) p0 p2).
  { eapply for_each_invariant; [| exact R1 | exact E2].
    intros x a t a' t' _ Pa Eb.
    exact (exploit_site_not_worse self p0 _ x a t a' t' Pa Eb). }
  assert (R3 : firstn m p3 = firstn m p2).
  { eapply (for_each_invariant _ _ _ (fun a => firstn m a = firstn m p2));
      [| reflexivity | exact E3].
    intros x a t a' t' Hx Pa Eb. cbv beta in *.
    apply scout_site_run in Eb. destruct Eb as (k & s & Hk & ->).
    rewrite <- Pa. apply firstn_upd.
    apply in_range in Hx. unfold m.
    unfold norm_index in Hk.
    destruct (Z.leb_spec 0 x), (Z.ltb_spec x (Z.of_nat (length a)));
      simpl in Hk; try (inversion Hk; lia);
      destruct (Z.leb_spec (- Z.of_nat (length a)) x), (Z.ltb_spec x 0);
      simpl in Hk; try discriminate; inversion Hk; lia. }
  rewrite R3. apply Forall2_firstn. exact R2.
Qed.

(** The solution a run of one generation or more returns costs no more
    than any solution of the population the run began with. *)
Lemma find_best_solution_not_above_initial fuel (self : BeesSolver F)
  iterations w p w0 best self' w' :
  1 <= iterations ->
  1 <= elite_sites self + normal_sites self ->
  random_population fuel self w = (Return p, w0) ->
  find_best_solution fuel self iterations w = (Return (best, self'), w') ->
  exists cb, cost best (settings self) = Return cb
    /\ forall s, In s p ->
         exists cs, cost s (settings self) = Return cs /\ flt cs cb = false.
Proof.
  intros Hi Hs Ep E. unfold Algorithm.find_best_solution in E.
  rewrite (bind_return _ _ _ _ _ _ _ _ Ep) in E.
  rewrite bind_run in E.
  destruct (for_each (range 0 iterations) _ (with_population self p) w0)
    as [[s1| |] w1] eqn:El; try discriminate.
  rewrite bind_run in E.
  destruct (of_option IndexError (getitem (population s1) 0) w1)
    as [[b| |] w2] eqn:Eg; try discriminate.
  unfold ret in E. inversion E; subst b s1 w2. clear E.
  apply of_option_return in Eg. destruct Eg as [Eg _].
  apply getitem_0 in Eg. destruct Eg as (rest & Epop).
  rewrite range_cons in El by lia. simpl for_each in El.
  rewrite bind_run in El.
  destruct (simulate_population fuel (with_population self p) w0)
    as [[g1| |] v1] eqn:E1; try discriminate.
  set (Q := fun acc : BeesSolver F =>
    same_parameters self acc
    /\ exists h ch, nth_error (population acc) 0 = Some h
         /\ cost h (settings self) = Return ch
         /\ forall s, In s p ->
              exists cs, cost s (settings self) = Return cs
                         /\ flt cs ch = false).
  assert (Q1 : Q g1).
  { split.
    - pose proof (simulate_population_parameters fuel _ _ _ _ E1) as Sp.
      unfold same_parameters in *. simpl in Sp. exact Sp.
    - destruct (simulate_population_best F fzero fadd fmul of_int flt
                  flt_irrefl flt_asym flt_negtrans fuel
                  (with_population self p) w0 g1 v1 Hs E1)
        as (h & ch & Hh & Hch & Hmin).
      exists h, ch. split; [exact Hh|]. split; [exact Hch|]. exact Hmin. }
  assert (Q2 : Q self').
  { eapply for_each_invariant; [| exact Q1 | exact El].
    intros x a t a' t' _ (Pa & h & ch & Hh & Hch & Hmin) Eb.
    pose proof (simulate_population_parameters fuel _ _ _ _ Eb) as Sp.
    assert (Pa' := Pa).
    destruct Pa' as (Es & _ & _ & _ & Ee & En & _).
    split.
    - unfold same_parameters in *.
      destruct Pa as (a1 & a2 & a3 & a4 & a5 & a6 & a7 & a8).
      destruct Sp as (b1 & b2 & b3 & b4 & b5 & b6 & b7 & b8).
      repeat split; congruence.
    - assert (Hs' : 1 <= elite_sites a + normal_sites a)
        by (rewrite Ee, En; exact Hs).
      destruct (simulate_population_best F fzero fadd fmul of_int flt
                  flt_irrefl flt_asym flt_negtrans fuel a t a' t' Hs' Eb)
        as (h' & ch' & Hh' & Hch' & Hmin').
      rewrite Es in Hch', Hmin'.
      exists h', ch'. split; [exact Hh'|]. split; [exact Hch'|].
      intros s Hin. destruct (Hmin s Hin) as (cs & Hcs & Hle).
      exists cs. split; [exact Hcs|].
      destruct (Hmin' h (nth_error_In _ _ Hh)) as (ch0 & Hch0 & Hle').
      rewrite Hch in Hch0. inversion Hch0; subst ch0.
      eapply flt_negtrans; eauto. }
  destruct Q2 as (_ & h & ch & Hh & Hch & Hmin).
  rewrite Epop in Hh. simpl in Hh. inversion Hh; subst h.
  exists ch. split; [exact Hch|exact Hmin].
Qed.

End Search.

End SiteFacts.

(* ===================================================================== *)
(** * The properties of the specification                                *)
(* ===================================================================== *)

Module Properties.
Import Runtime Model Algorithm Notions Scenario ListFacts MatrixFacts
       RepairFacts GeneratorFacts SearchFacts MutationFacts FuelFacts.



Lemma argwhere_empty p l :
  Forall (fun x => p x = false) l -> argwhere p l = [].
Proof.
  intros H. destruct (argwhere p l) as [|k ks] eqn:E; auto.
  assert (In k (argwhere p l)) as Hin by (rewrite E; left; auto).
  apply in_argwhere in Hin. destruct Hin as [L Hp].
  rewrite Forall_forall in H. rewrite (H _ (nth_In l 0 L)) in Hp.
  discriminate.
Qed.

Lemma distributes_ncols amounts R m :
  distributes amounts R m -> ncols m = length amounts.
Proof.
  intros [_ _ _ H]. rewrite <- H. unfold col_sums.
  rewrite length_map, length_seq. reflexivity.
Qed.

Lemma no_overload_Forall cap l :
  existsb (fun s => cap <? s) l = false -> Forall (fun x => x <= cap) l.
Proof.
  intros H. apply forallb_le. apply no_overload_valid. exact H.
Qed.

Section Floats.

Variable F : Type.
Variable fzero : F.
Variables fadd fmul : F -> F -> F.
Variable of_int : Z -> F.
Variable flt : F -> F -> bool.

(** Of [<] on floats: what holds of IEEE doubles other than NaN. *)
Hypothesis flt_irrefl : forall a, flt a a = false.
Hypothesis flt_asym : forall a b, flt a b = true -> flt b a = false.
Hypothesis flt_negtrans :
  forall a b c, flt a b = false -> flt b c = false -> flt a c = false.

Local Abbreviation cost := (calculate_cost fzero fadd fmul of_int).
Local Abbreviation find_best_neighbour :=
  (Algorithm.find_best_neighbour fzero fadd fmul of_int flt).
Local Abbreviation simulate_population :=
  (Algorithm.simulate_population fzero fadd fmul of_int flt).

(** C1, amended.  For every feasible configuration whose module amounts
    fit the [int32] cells of the allocation (every amount is below
    [2 ^ 31], as [well_formed] requires), [generate_random_solution]
    raises nothing and returns a solution that satisfies the two
    structural invariants: every row sum of its allocation is at most the
    capacity and the column sums are the module amounts.  Both validators
    accept it, so the [RuntimeError] branch is not taken.  The repair loop
    is given a budget of [num_rockets * num_module_types] iterations or
    more. *)
Theorem generate_random_solution_valid (s : Settings F) fuel w :
  well_formed s -> feasible s -> (enough_fuel s <= fuel)%nat ->
  exists sol w',
    generate_random_solution fuel s w = (Return sol, w')
    /\ Forall (fun x => x <= rocket_capacity s)
              (row_sums (module_allocation sol))
    /\ col_sums (module_allocation sol) = module_amounts s
    /\ is_valid_capacity sol s = true
    /\ is_valid_module_total sol s = true.
Proof.
  intros WF Fe Hf.
  destruct (generate_random_solution_spec F fuel s w WF Fe Hf)
    as (sol & w' & E & V1 & V2 & Inv & _).
  exists sol, w'. split; [exact E|]. split; [|split; [|split]]; auto.
  - apply forallb_le. exact V1.
  - apply (inv_cols _ _ _ Inv).
Qed.

(** C7.  For every feasible configuration, the capacity-repair loop,
    started on an allocation as the multinomial draws leave it (one row
    per rocket, no negative cell, every column summing to its amount),
    returns after at most [num_rockets * num_module_types] iterations, and
    no rocket is overloaded then. *)
Theorem repair_loop_bound (s : Settings F) m fuel :
  well_formed s -> feasible s ->
  distributes (module_amounts s) (Z.to_nat (num_rockets s)) m ->
  (Z.to_nat (num_rockets s) * Z.to_nat (num_module_types s) <= fuel)%nat ->
  exists m' n,
    repair_loop fuel (rocket_capacity s) m 0 = Return (m', n)
    /\ (n <= Z.to_nat (num_rockets s) * Z.to_nat (num_module_types s))%nat
    /\ Forall (fun x => x <= rocket_capacity s) (row_sums m').
Proof.
  intros WF Fe Inv Hf. pose proof WF as [Ht Hr Hm Ha].
  pose proof (potential_le (rocket_capacity s) m (inv_rect _ _ _ Inv)) as P.
  rewrite (inv_rows _ _ _ Inv), (distributes_ncols _ _ _ Inv) in P.
  replace (length (module_amounts s))
    with (Z.to_nat (num_module_types s)) in P by lia.
  destruct (repair_loop_terminates (rocket_capacity s) (module_amounts s)
              (Z.to_nat (num_rockets s))) with (fuel := fuel) (m := m)
              (done := 0%nat)
    as (m' & n & E & _ & G & Hn); auto.
  - eapply Forall_impl; [|exact Ha]. intros a Hb; simpl in Hb; lia.
  - rewrite Z2Nat.id by lia. exact Fe.
  - lia.
  - exists m', n. split; [exact E|]. split; [lia|].
    apply no_overload_Forall. exact G.
Qed.



(** C5, amended.  On a configuration whose module amounts are all below
    [2 ^ 31], the range of the [int32] cells, and on a feasible solution
    with a rocket that has room left and a rocket that holds a module of
    the type the mutation draws, the module-transfer mutation leaves every
    column sum as it was and leaves every row sum at most the capacity,
    whether it returns or raises.  It returns when every amount is below
    [2 ^ 31 - 1], the largest [int32]: the bound of the draw is an [int32]
    cell when the cell is not above the room, and [random.randint] adds
    one to it in [int32]. *)
Theorem module_mutation_keeps_invariants (self : BeesSolver F) sol w :
  well_formed (settings self) -> feasible_solution (settings self) sol ->
  Exists (fun x => x < rocket_capacity (settings self))
         (row_sums (module_allocation sol)) ->
  Exists (fun r => 0 < nth (chosen_module_type (settings self) w) r 0)
         (rows (module_allocation sol)) ->
  (forall r w' sol',
     mutate_modules_allocation self (w, sol) = (r, (w', sol')) ->
     r <> OutOfFuel
     /\ col_sums (module_allocation sol') = col_sums (module_allocation sol)
     /\ Forall (fun x => x <= rocket_capacity (settings self))
               (row_sums (module_allocation sol')))
  /\ (Forall (fun a => a < 2 ^ 31 - 1) (module_amounts (settings self)) ->
      exists w' sol',
        mutate_modules_allocation self (w, sol) = (Return tt, (w', sol'))).
Proof.
  intros WF FS H1 H2. split.
  - intros r w' sol' E.
    assert (Nf : r <> OutOfFuel).
    { pose proof (ff_mutate_modules_allocation F self (w, sol)) as Hf.
      rewrite E in Hf. exact Hf. }
    split; [exact Nf|].
    destruct r as [u|e|]; [| |congruence].
    + pose proof (FeasibilityFacts.mutate_modules_allocation_keeps
                    F self sol w u w' sol' WF FS E) as FS'.
      split; [|apply (fs_capacity _ _ _ FS')].
      rewrite (inv_cols _ _ _ (fs_demand _ _ _ FS')).
      rewrite (inv_cols _ _ _ (fs_demand _ _ _ FS)). reflexivity.
    + pose proof (mutate_modules_allocation_atomic F self sol w e _ E) as A.
      simpl in A. subst sol'.
      split; [reflexivity|apply (fs_capacity _ _ _ FS)].
  - intros Hlim.
    destruct (mutate_modules_allocation_feasible F self sol w WF Hlim FS
                H1 H2) as (w' & sol' & E & _).
    exists w', sol'. exact E.
Qed.


(** C10.  When no rocket has room left, or no rocket holds a module of the
    type the mutation draws, the module-transfer mutation raises and the
    solution is exactly as it was. *)
Theorem module_mutation_failure_atomic (self : BeesSolver F) sol w :
  Forall (fun x => rocket_capacity (settings self) <= x)
         (row_sums (module_allocation sol))
  \/ Forall (fun r => nth (chosen_module_type (settings self) w) r 0 <= 0)
            (rows (module_allocation sol)) ->
  exists e w',
    mutate_modules_allocation self (w, sol) = (Raise e, (w', sol)).
Proof.
  intros H.
  destruct (mutate_modules_allocation_stuck F self sol w) as (e & st & E).
  - destruct H as [H|H]; [left|right]; apply argwhere_empty.
    + unfold remaining. apply Forall_map.
      eapply Forall_impl; [|exact H]. intros x Hx; simpl in Hx.
      apply Z.ltb_ge. lia.
    + unfold column. apply Forall_map.
      eapply Forall_impl; [|exact H]. intros r Hr; simpl in Hr.
      apply Z.ltb_ge. lia.
  - pose proof (mutate_modules_allocation_atomic F self sol w e st E) as A.
    destruct st as [w' sol']. simpl in A. subst sol'.
    exists e, w'. exact E.
Qed.


(** C9, amended.  Constructing the solver never raises: the constructor
    stores its arguments and an empty population, whatever the site counts
    and the population size are.  An inconsistency of the counts surfaces
    when a generation runs: on a population of fewer solutions than there
    are sites, [simulate_population] raises. *)
Theorem init_validates_nothing (s : Settings F)
  (population_size modules_mutations rockets_type_mutations
   elite_sites normal_sites elite_site_size normal_site_size : Z) w :
  init s population_size modules_mutations rockets_type_mutations
       elite_sites normal_sites elite_site_size normal_site_size w
  = (Return {| settings := s;
               population_size := population_size;
               modules_mutations := modules_mutations;
               rockets_type_mutations := rockets_type_mutations;
               elite_sites := elite_sites;
               normal_sites := normal_sites;
               elite_site_size := elite_site_size;
               normal_site_size := normal_site_size;
               population := [] |}, w)
  /\ forall p fuel w1,
       Z.of_nat (length p) < elite_sites + normal_sites ->
       exists e w2,
         simulate_population fuel
           {| settings := s;
              population_size := population_size;
              modules_mutations := modules_mutations;
              rockets_type_mutations := rockets_type_mutations;
              elite_sites := elite_sites;
              normal_sites := normal_sites;
              elite_site_size := elite_site_size;
              normal_site_size := normal_site_size;
              population := p |} w1
         = (Raise e, w2).
Proof.
  split; [reflexivity|]. intros p fuel w1 H.
  apply (simulate_population_short F fzero fadd fmul of_int flt).
  exact H.
Qed.

End Floats.

(** ** Concrete runs *)

Lemma generate_random_solution_valid_witness :
  well_formed three_rockets /\ feasible three_rockets
  /\ (enough_fuel three_rockets <= 6)%nat
  /\ exists sol w',
       generate_random_solution 6 three_rockets (fresh_world zeros zeros)
       = (Return sol, w')
       /\ Forall (fun x => x <= rocket_capacity three_rockets)
                 (row_sums (module_allocation sol))
       /\ col_sums (module_allocation sol) = module_amounts three_rockets
       /\ is_valid_capacity sol three_rockets = true
       /\ is_valid_module_total sol three_rockets = true.
Proof.
  assert (WF : well_formed three_rockets).
  { constructor; simpl; try lia. repeat constructor; lia. }
  assert (Fe : feasible three_rockets) by (unfold feasible; simpl; lia).
  assert (Hf : (enough_fuel three_rockets <= 6)%nat) by (vm_compute; lia).
  split; [exact WF|]. split; [exact Fe|]. split; [exact Hf|].
  exact (generate_random_solution_valid Z three_rockets 6
           (fresh_world zeros zeros) WF Fe Hf).
Defined.

Lemma repair_loop_bound_witness :
  well_formed three_rockets /\ feasible three_rockets
  /\ distributes (module_amounts three_rockets)
                 (Z.to_nat (num_rockets three_rockets)) all_in_first
  /\ exists m' n,
       repair_loop 6 (rocket_capacity three_rockets) all_in_first 0
       = Return (m', n)
       /\ (n <= Z.to_nat (num_rockets three_rockets)
                * Z.to_nat (num_module_types three_rockets))%nat
       /\ Forall (fun x => x <= rocket_capacity three_rockets) (row_sums m').
Proof.
  assert (WF : well_formed three_rockets).
  { constructor; simpl; try lia. repeat constructor; lia. }
  assert (Fe : feasible three_rockets) by (unfold feasible; simpl; lia).
  assert (D : distributes (module_amounts three_rockets)
                (Z.to_nat (num_rockets three_rockets)) all_in_first).
  { constructor.
    - reflexivity.
    - repeat constructor.
    - repeat constructor; lia.
    - reflexivity. }
  split; [exact WF|]. split; [exact Fe|]. split; [exact D|].
  apply (repair_loop_bound Z three_rockets all_in_first 6 WF Fe D).
  vm_compute; lia.
Defined.



Lemma two_rockets_well_formed : well_formed two_rockets.
Proof. constructor; simpl; try lia. repeat constructor; lia. Qed.

Lemma lopsided_feasible : feasible_solution two_rockets lopsided.
Proof.
  constructor.
  - reflexivity.
  - repeat constructor; simpl; lia.
  - constructor.
    + reflexivity.
    + repeat constructor.
    + repeat constructor; lia.
    + reflexivity.
  - repeat constructor; simpl; lia.
Qed.

Lemma module_mutation_keeps_invariants_witness :
  well_formed two_rockets /\ feasible_solution two_rockets lopsided
  /\ (forall r w' sol',
        mutate_modules_allocation mutating_solver
          (fresh_world zeros counting, lopsided) = (r, (w', sol')) ->
        r <> OutOfFuel
        /\ col_sums (module_allocation sol')
           = col_sums (module_allocation lopsided)
        /\ Forall (fun x => x <= rocket_capacity two_rockets)
                  (row_sums (module_allocation sol')))
  /\ (Forall (fun a => a < 2 ^ 31 - 1) (module_amounts two_rockets) ->
      exists w' sol',
        mutate_modules_allocation mutating_solver
          (fresh_world zeros counting, lopsided) = (Return tt, (w', sol'))).
Proof.
  split; [exact two_rockets_well_formed|].
  split; [exact lopsided_feasible|].
  apply (module_mutation_keeps_invariants Z mutating_solver lopsided
           (fresh_world zeros counting)
           two_rockets_well_formed lopsided_feasible).
  - apply Exists_cons_hd. simpl. lia.
  - apply Exists_cons_hd. vm_compute. reflexivity.
Defined.


Lemma module_mutation_failure_atomic_witness :
  Forall (fun x => rocket_capacity tight <= x)
         (row_sums (module_allocation cheap))
  /\ exists e w',
       mutate_modules_allocation tight_solver
         (fresh_world zeros counting, cheap) = (Raise e, (w', cheap)).
Proof.
  assert (H : Forall (fun x => rocket_capacity tight <= x)
                     (row_sums (module_allocation cheap)))
    by (repeat constructor; simpl; lia).
  split; [exact H|].
  exact (module_mutation_failure_atomic Z tight_solver cheap
           (fresh_world zeros counting) (or_introl H)).
Defined.


Lemma init_validates_nothing_witness :
  Z.of_nat (length [cheap]) < 2 + 2
  /\ exists e w',
       generation_of 2 (solver_on two_rockets [cheap] 1 1 1 2 2 1 1)
                     (fresh_world zeros zeros)
       = (Raise e, w').
Proof.
  assert (H : Z.of_nat (length [cheap]) < 2 + 2) by (simpl; lia).
  split; [exact H|].
  exact (proj2 (init_validates_nothing Z 0 Z.add Z.mul (fun z => z) Z.ltb
                  two_rockets 1 1 1 2 2 1 1 (fresh_world zeros zeros))
               [cheap] 2%nat (fresh_world zeros zeros) H).
Defined.

(** ** Where the code departs from the specification *)

(** C2.  [find_best_solution] returns the first slot of the population
    without ranking it.  After one generation on two slots, the exploited
    slot still costs 200 and the slot drawn for the scout costs 2: the
    returned solution costs 200. *)
Theorem find_best_solution_returns_first_slot :
  exists w',
    run_of 2 plain_solver 1 (fresh_world (ones_then_zeros 12) zeros)
    = (Return (expensive, solver_on two_rockets [expensive; first_loaded]
                                    2 0 0 1 0 1 0), w')
    /\ cost_of expensive two_rockets = Return 200
    /\ cost_of first_loaded two_rockets = Return 2.
Proof.
  exists (snd (run_of 2 plain_solver 1
                      (fresh_world (ones_then_zeros 12) zeros))).
  split; [|split]; vm_compute; reflexivity.
Qed.



(** C9 as stated fails: with two elite sites and two normal sites for a
    population of one, the constructor returns the solver. *)
Lemma init_accepts_inconsistent_sites :
  2 + 2 > 1
  /\ init two_rockets 1 1 1 2 2 1 1 (fresh_world zeros zeros)
     = (Return (solver_on two_rockets [] 1 1 1 2 2 1 1),
        fresh_world zeros zeros)
  /\ forall e w',
       init two_rockets 1 1 1 2 2 1 1 (fresh_world zeros zeros)
       <> (Raise e, w').
Proof.
  split; [lia|]. split; [reflexivity|].
  intros e w' E. discriminate.
Qed.

(** C1 as stated fails: [oversized] is feasible (one rocket of capacity
    [2 ^ 31] for [2 ^ 31] modules); the count of the rocket is stored into
    an [int32] cell, where it wraps, and the generator's own check of the
    column sums raises [RuntimeError]. *)
Lemma oversized_amount_raises_runtime_error :
  feasible oversized
  /\ (enough_fuel oversized <= 1)%nat
  /\ exists w',
       generate_random_solution 1 oversized (fresh_world zeros zeros)
       = (Raise RuntimeError, w').
Proof.
  split; [unfold feasible; simpl; lia|].
  split; [vm_compute; lia|].
  apply (generate_random_solution_wraps Z oversized 1%nat (2 ^ 31));
    try reflexivity; simpl; lia.
Qed.

(** C5 as stated fails: [almost_full] is a feasible solution of
    [oversized_pair], both rockets have room and both hold modules.  The
    draw moves the module of the first rocket to the second, whose cell
    holds the largest [int32] and wraps: the mutation returns and the
    column sum is [- 2 ^ 31] where it was [2 ^ 31]. *)
Lemma wrapped_transfer_changes_column_sum :
  feasible_solution oversized_pair almost_full
  /\ Exists (fun x => x < rocket_capacity oversized_pair)
            (row_sums (module_allocation almost_full))
  /\ Exists (fun r => 0 < nth (chosen_module_type oversized_pair
                                 (fresh_world zeros (one_at 1))) r 0)
            (rows (module_allocation almost_full))
  /\ exists w' sol',
       mutate_modules_allocation oversized_solver
         (fresh_world zeros (one_at 1), almost_full)
       = (Return tt, (w', sol'))
       /\ col_sums (module_allocation almost_full) = [2 ^ 31]
       /\ col_sums (module_allocation sol') = [- 2 ^ 31]
       /\ col_sums (module_allocation sol')
          <> col_sums (module_allocation almost_full).
Proof.
  split; [|split; [|split]].
  - constructor.
    + reflexivity.
    + repeat constructor; simpl; lia.
    + constructor.
      * reflexivity.
      * repeat constructor.
      * repeat constructor; lia.
      * reflexivity.
    + repeat constructor; simpl; lia.
  - apply Exists_cons_hd. simpl. lia.
  - apply Exists_cons_hd. vm_compute. reflexivity.
  - set (r := mutate_modules_allocation oversized_solver
                (fresh_world zeros (one_at 1), almost_full)).
    exists (fst (snd r)), (snd (snd r)).
    split; [vm_compute; reflexivity|].
    split; [reflexivity|]. split; [vm_compute; reflexivity|].
    vm_compute. discriminate.
Qed.

(** At the largest [int32] the mutation raises: [brimful] is a feasible
    solution of [brimming], its second rocket has room and its first
    rocket holds the modules, all [2 ^ 31 - 1] of them.  The draw takes the
    second rocket as the destination; the bound of the transfer is the
    cell of the first rocket, the largest [int32], the end of the range
    wraps and the mutation raises [ValueError]. *)
Lemma full_cell_mutation_raises :
  well_formed brimming /\ feasible_solution brimming brimful
  /\ Exists (fun x => x < rocket_capacity brimming)
            (row_sums (module_allocation brimful))
  /\ Exists (fun r => 0 < nth (chosen_module_type brimming
                                 (fresh_world zeros (one_at 1))) r 0)
            (rows (module_allocation brimful))
  /\ exists w',
       mutate_modules_allocation brimming_solver
         (fresh_world zeros (one_at 1), brimful)
       = (Raise ValueError, (w', brimful)).
Proof.
  split; [|split; [|split; [|split]]].
  - constructor; simpl; try lia. repeat constructor; lia.
  - constructor.
    + reflexivity.
    + repeat constructor; simpl; lia.
    + constructor.
      * reflexivity.
      * repeat constructor.
      * repeat constructor; lia.
      * reflexivity.
    + repeat constructor; simpl; lia.
  - apply Exists_cons_hd. simpl. lia.
  - apply Exists_cons_hd. vm_compute. reflexivity.
  - exists (fst (snd (mutate_modules_allocation brimming_solver
                        (fresh_world zeros (one_at 1), brimful)))).
    vm_compute. reflexivity.
Qed.

End Properties.

(* ===================================================================== *)
(** * Further properties of model.py and algorithm.py                    *)
(* ===================================================================== *)

Module Behaviour.
Import Runtime Model Algorithm Notions Scenario Terms Cases ListFacts
       MatrixFacts RepairFacts GeneratorFacts SearchFacts MutationFacts
       FuelFacts CostFacts FeasibilityFacts PopulationFacts RunFacts
       FullRunFacts TotalityFacts RunTotalityFacts SiteFacts.

(** ** The instances the properties are checked on *)

Lemma two_rockets_tables_fit : tables_fit two_rockets.
Proof. constructor; reflexivity. Qed.

Lemma two_rockets_tables_not_negative :
  tables_not_negative 0 Z.ltb two_rockets.
Proof. constructor; repeat constructor. Qed.

Lemma two_rockets_sound : well_formed two_rockets.
Proof. constructor; simpl; try lia. repeat constructor; lia. Qed.

Lemma two_rockets_feasible : feasible two_rockets.
Proof. unfold feasible. simpl. lia. Qed.

Lemma on_two_rockets_feasible types a b :
  length types = 2%nat -> Forall (fun t => 0 <= t < 2) types ->
  0 <= a <= 5 -> 0 <= b <= 5 -> a + b = 4 ->
  feasible_solution two_rockets
    {| rocket_type_allocation := types;
       module_allocation := {| ncols := 1; rows := [[a]; [b]] |} |}.
Proof.
  intros L T Ha Hb Hs. constructor; simpl.
  - exact L.
  - exact T.
  - constructor; simpl.
    + reflexivity.
    + repeat constructor.
    + repeat constructor; lia.
    + unfold col_sums, column. simpl. f_equal. lia.
  - unfold row_sums. simpl. repeat constructor; lia.
Qed.

Lemma lopsided_sound : feasible_solution two_rockets lopsided.
Proof.
  apply on_two_rockets_feasible; try lia; [reflexivity|].
  repeat constructor; lia.
Qed.

Lemma cheap_sound : feasible_solution two_rockets cheap.
Proof.
  apply on_two_rockets_feasible; try lia; [reflexivity|].
  repeat constructor; lia.
Qed.

Lemma expensive_sound : feasible_solution two_rockets expensive.
Proof.
  apply on_two_rockets_feasible; try lia; [reflexivity|].
  repeat constructor; lia.
Qed.

Lemma Zlt_asym a b : (a <? b) = true -> (b <? a) = false.
Proof. intros H. apply Z.ltb_lt in H. apply Z.ltb_ge. lia. Qed.

Lemma Zlt_negtrans a b c :
  (a <? b) = false -> (b <? c) = false -> (a <? c) = false.
Proof.
  intros H1 H2. apply Z.ltb_ge in H1, H2. apply Z.ltb_ge. lia.
Qed.

Lemma Zadd_not_negative a b :
  not_negative 0 Z.ltb a -> not_negative 0 Z.ltb b ->
  not_negative 0 Z.ltb (a + b).
Proof.
  unfold not_negative. intros H1 H2. apply Z.ltb_ge in H1, H2.
  apply Z.ltb_ge. lia.
Qed.

Lemma Zmul_not_negative a b :
  not_negative 0 Z.ltb a -> not_negative 0 Z.ltb b ->
  not_negative 0 Z.ltb (a * b).
Proof.
  unfold not_negative. intros H1 H2. apply Z.ltb_ge in H1, H2.
  apply Z.ltb_ge. nia.
Qed.

Lemma Zid_not_negative z : 0 <= z -> not_negative 0 Z.ltb z.
Proof. unfold not_negative. intros H. apply Z.ltb_ge. lia. Qed.

Section Floats.

Variable F : Type.
Variable fzero : F.
Variables fadd fmul : F -> F -> F.
Variable of_int : Z -> F.
Variable flt : F -> F -> bool.

Local Abbreviation cost := (calculate_cost fzero fadd fmul of_int).
Local Abbreviation find_best_neighbour :=
  (Algorithm.find_best_neighbour fzero fadd fmul of_int flt).
Local Abbreviation simulate_population :=
  (Algorithm.simulate_population fzero fadd fmul of_int flt).
Local Abbreviation find_best_solution :=
  (Algorithm.find_best_solution fzero fadd fmul of_int flt).
Local Abbreviation sorted_by_cost :=
  (Algorithm.sorted_by_cost fzero fadd fmul of_int flt).
Local Abbreviation current_cost :=
  (Algorithm.current_cost fzero fadd fmul of_int).

(** ** [calculate_cost] *)

(** X1.  On a configuration whose cost tables have a row and a fuel cost
    per rocket type and a column per module type, [calculate_cost] raises
    nothing on a feasible solution: every rocket type it looks up is in
    the tables and every table row is as long as an allocation row. *)
Theorem cost_of_feasible_solution_defined (s : Settings F) sol :
  well_formed s -> tables_fit s -> feasible_solution s sol ->
  exists c, cost sol s = Return c.
Proof. apply cost_defined. Qed.

(** X2.  When a rocket of the solution has a type outside the cost tables
    (at or above the number of table rows, or below its negation, where
    numpy's negative indices end), [calculate_cost] raises [IndexError]. *)
Theorem cost_of_unknown_type_raises (s : Settings F) sol :
  Exists (fun t => t < - Z.of_nat (nrows (additional_fuel_costs s))
                   \/ Z.of_nat (nrows (additional_fuel_costs s)) <= t)
         (rocket_type_allocation sol) ->
  cost sol s = Raise IndexError.
Proof. apply cost_index_error. Qed.

(** ** [generate_random_solution] *)

(** X4.  Whatever the iteration budget and whether or not the
    configuration is feasible, a solution that [generate_random_solution]
    returns is feasible: one rocket type in [0, num_rocket_types) per
    rocket, one allocation row per rocket and one column per module type,
    no negative cell, every column summing to its module amount and every
    row to the capacity at most. *)
Theorem generated_solution_feasible fuel (s : Settings F) w sol w' :
  well_formed s ->
  generate_random_solution fuel s w = (Return sol, w') ->
  feasible_solution s sol.
Proof. apply generate_random_solution_return. Qed.

(** ** The mutations *)

(** X5.  On a well-formed configuration, whose module amounts are all in
    [0, 2 ^ 31), the range of the [int32] cells, a mutation pass
    ([__mutate_solution]: the module transfers, then the type changes)
    that returns on a feasible solution leaves a feasible solution,
    whatever the numbers of mutations are. *)
Theorem mutation_pass_keeps_feasibility (self : BeesSolver F)
  sol w u w' sol' :
  well_formed (settings self) -> feasible_solution (settings self) sol ->
  mutate_solution self (w, sol) = (Return u, (w', sol')) ->
  feasible_solution (settings self) sol'.
Proof. apply mutate_solution_keeps. Qed.

(** X6.  Whenever the type mutation raises (no rocket or no rocket type to
    draw from, or a type allocation without the drawn cell), the solution
    is as it was. *)
Theorem type_mutation_failure_atomic (self : BeesSolver F) sol w e st :
  mutate_rockets_type_allocation self (w, sol) = (Raise e, st) ->
  snd st = sol.
Proof. apply mutate_rockets_type_allocation_atomic. Qed.

(** X7.  A module-transfer mutation that returns has changed neither the
    rocket types nor the column of any module type other than the one it
    drew, and has drawn four numbers from Python's generator and none from
    numpy's. *)
Theorem module_mutation_frame (self : BeesSolver F) sol w u w' sol' :
  mutate_modules_allocation self (w, sol) = (Return u, (w', sol')) ->
  rocket_type_allocation sol' = rocket_type_allocation sol
  /\ (forall j', j' <> chosen_module_type (settings self) w ->
        column (module_allocation sol') j'
        = column (module_allocation sol) j')
  /\ py_drawn 4 w w'.
Proof. apply mutate_modules_allocation_frame. Qed.

(** ** [__find_best_neighbour] *)

(** X8.  On a well-formed configuration, whose module amounts are all in
    [0, 2 ^ 31), the range of the [int32] cells, the solution the
    neighbourhood search returns for a feasible solution is feasible. *)
Theorem best_neighbour_feasible (self : BeesSolver F) s k w best w' :
  well_formed (settings self) -> feasible_solution (settings self) s ->
  find_best_neighbour self s k w = (Return best, w') ->
  feasible_solution (settings self) best.
Proof. apply find_best_neighbour_feasible. Qed.

(** X10.  With no neighbour to look at ([k <= 0]) the neighbourhood
    search draws nothing and returns the given solution, provided its
    cost is defined; otherwise it raises what [calculate_cost] raises. *)
Theorem best_neighbour_of_none (self : BeesSolver F) s k w :
  k <= 0 ->
  find_best_neighbour self s k w =
  (match cost s (settings self) with
   | Return _ => Return s
   | Raise e => Raise e
   | OutOfFuel => OutOfFuel
   end, w).
Proof. apply find_best_neighbour_no_neighbour. Qed.

(** ** [simulate_population] *)

(** X11.  On a well-formed configuration, whose module amounts are all
    in [0, 2 ^ 31), the range of the [int32] cells, a generation that
    completes on a population of feasible solutions leaves a population
    of as many solutions, all feasible, and changes no parameter of the
    solver. *)
Theorem generation_keeps_population_sound fuel (self : BeesSolver F)
  w self' w' :
  well_formed (settings self) ->
  Forall (feasible_solution (settings self)) (population self) ->
  simulate_population fuel self w = (Return self', w') ->
  Forall (feasible_solution (settings self)) (population self')
  /\ length (population self') = length (population self)
  /\ same_parameters self self'.
Proof. apply simulate_population_keeps. Qed.

(** ** [init_population] and [find_best_solution] *)

(** X14.  On a feasible, well-formed configuration, whose module amounts
    are all in [0, 2 ^ 31), the range of the [int32] cells,
    [init_population] returns and leaves the solver with its parameters
    and a population of [population_size] feasible solutions (none for a
    size that is not positive).  The repair loop is given a budget of
    [num_rockets * num_module_types] iterations or more. *)
Theorem init_population_feasible fuel (self : BeesSolver F) w :
  well_formed (settings self) -> feasible (settings self) ->
  (enough_fuel (settings self) <= fuel)%nat ->
  exists self' w',
    init_population fuel self w = (Return self', w')
    /\ same_parameters self self'
    /\ length (population self') = Z.to_nat (population_size self)
    /\ Forall (feasible_solution (settings self)) (population self').
Proof. apply init_population_sound. Qed.

(** X15.  On a well-formed configuration, whose module amounts are all
    in [0, 2 ^ 31), the range of the [int32] cells: when
    [find_best_solution] returns, the returned solution is the first slot
    of the population the solver is left with and is feasible; the solver
    keeps its parameters and holds [population_size] feasible
    solutions. *)
Theorem run_returns_feasible_first_slot fuel (self : BeesSolver F)
  iterations w best self' w' :
  well_formed (settings self) ->
  find_best_solution fuel self iterations w = (Return (best, self'), w') ->
  nth_error (population self') 0 = Some best
  /\ feasible_solution (settings self) best
  /\ same_parameters self self'
  /\ length (population self') = Z.to_nat (population_size self)
  /\ Forall (feasible_solution (settings self)) (population self').
Proof.
  intros WF E.
  destruct (find_best_solution_return F fzero fadd fmul of_int flt
              fuel self iterations w best self' w' WF E)
    as (H1 & H2 & H3 & H4 & H5).
  auto.
Qed.

(** X16.  With a population size that is not positive (and site counts
    that are not negative) [find_best_solution] raises [IndexError],
    whatever the number of iterations, and draws nothing. *)
Theorem run_on_empty_population_raises fuel (self : BeesSolver F)
  iterations w :
  population_size self <= 0 ->
  0 <= elite_sites self -> 0 <= normal_sites self ->
  find_best_solution fuel self iterations w = (Raise IndexError, w).
Proof. apply find_best_solution_empty. Qed.

(** X17.  A generation of a solver that mutates rocket types only
    completes: the configuration is feasible and well formed, with module
    amounts all in [0, 2 ^ 31), the range of the [int32] cells, and cost
    tables of its shape; the population is feasible and has a slot for
    every site.  No draw of the random sources makes it raise. *)
Theorem generation_by_type_mutations_completes fuel (s : BeesSolver F) w :
  well_formed (settings s) -> tables_fit (settings s) ->
  feasible (settings s) ->
  (enough_fuel (settings s) <= fuel)%nat ->
  modules_mutations s <= 0 ->
  0 <= elite_sites s -> 0 <= normal_sites s ->
  elite_sites s + normal_sites s <= Z.of_nat (length (population s)) ->
  Forall (feasible_solution (settings s)) (population s) ->
  exists s' w', simulate_population fuel s w = (Return s', w').
Proof. apply simulate_population_total. Qed.

(** X18.  A run of a solver that mutates rocket types only returns a
    solution, for every number of iterations and every draw of the random
    sources: the configuration is feasible and well formed, with module
    amounts all in [0, 2 ^ 31), the range of the [int32] cells, and cost
    tables of its shape; the population has a slot for every site and
    one slot at least. *)
Theorem run_by_type_mutations_returns fuel (self : BeesSolver F)
  iterations w :
  well_formed (settings self) -> tables_fit (settings self) ->
  feasible (settings self) ->
  (enough_fuel (settings self) <= fuel)%nat ->
  modules_mutations self <= 0 ->
  0 <= elite_sites self -> 0 <= normal_sites self ->
  elite_sites self + normal_sites self <= population_size self ->
  1 <= population_size self ->
  exists best self' w',
    find_best_solution fuel self iterations w = (Return (best, self'), w').
Proof. apply find_best_solution_total. Qed.

(** X20.  [find_best_solution] does not read the population the solver
    holds: two solvers that differ in their populations at most run
    alike, so a population set up by [init_population] is discarded. *)
Theorem run_ignores_held_population fuel (a b : BeesSolver F)
  iterations w :
  same_parameters a b ->
  find_best_solution fuel a iterations w
  = find_best_solution fuel b iterations w.
Proof. apply find_best_solution_reseeds. Qed.

Section Order.

(** Of [<] on floats: what holds of IEEE doubles other than NaN. *)
Hypothesis flt_irrefl : forall a, flt a a = false.
Hypothesis flt_asym : forall a b, flt a b = true -> flt b a = false.
Hypothesis flt_negtrans :
  forall a b c, flt a b = false -> flt b c = false -> flt a c = false.

(** X9.  The neighbourhood search ranks the [k] mutated copies of the
    given solution, in the order they were made, followed by the given
    solution, and returns the first of the cheapest: every candidate
    before the returned one costs strictly more, and no candidate after
    it costs less.  Ties go to the earliest candidate, the given solution
    being the last. *)
Theorem best_neighbour_first_cheapest (self : BeesSolver F) s k w best w' :
  find_best_neighbour self s k w = (Return best, w') ->
  exists neighbours pre post cb,
    map_m (in_place (mutate_solution self))
          (map (fun _ => deepcopy s) (range 0 k)) w
    = (Return neighbours, w')
    /\ neighbours ++ [s] = pre ++ best :: post
    /\ cost best (settings self) = Return cb
    /\ Forall (fun y => exists cy, cost y (settings self) = Return cy
                                   /\ flt cb cy = true) pre
    /\ Forall (fun y => exists cy, cost y (settings self) = Return cy
                                   /\ flt cy cb = false) post.
Proof.
  apply (find_best_neighbour_first F fzero fadd fmul of_int flt
           flt_irrefl flt_asym flt_negtrans).
Qed.

(** X12.  After a generation that completes, every exploited site (the
    first [elite_sites + normal_sites] slots) holds a solution that costs
    no more than the solution the ranking by cost had put in that slot. *)
Theorem generation_sites_not_worse fuel (self : BeesSolver F) w p0 w0
  self' w' :
  sorted_by_cost self (population self) w = (Return p0, w0) ->
  simulate_population fuel self w = (Return self', w') ->
  Forall2 (not_worse fzero fadd fmul of_int flt (settings self))
    (firstn (Z.to_nat (elite_sites self + normal_sites self)) p0)
    (firstn (Z.to_nat (elite_sites self + normal_sites self))
            (population self')).
Proof.
  apply (simulate_population_sites F fzero fadd fmul of_int flt
           flt_irrefl flt_asym flt_negtrans).
Qed.

(** X13.  With at least one exploited site, the cost [current_cost]
    reports after a generation is defined and not above the cost it
    reported before the generation. *)
Theorem reported_cost_not_above fuel (self : BeesSolver F)
  w self' w' u c u' :
  1 <= elite_sites self + normal_sites self ->
  simulate_population fuel self w = (Return self', w') ->
  current_cost self u = (Return c, u') ->
  exists c', (forall v, current_cost self' v = (Return c', v))
             /\ flt c c' = false.
Proof.
  apply (current_cost_not_above F fzero fadd fmul of_int flt
           flt_irrefl flt_asym flt_negtrans).
Qed.

(** X19.  With one generation or more and at least one exploited site,
    the solution [find_best_solution] returns costs no more than any
    solution of the random population the run began with. *)
Theorem run_not_above_initial_population fuel (self : BeesSolver F)
  iterations w p w0 best self' w' :
  1 <= iterations ->
  1 <= elite_sites self + normal_sites self ->
  random_population fuel self w = (Return p, w0) ->
  find_best_solution fuel self iterations w = (Return (best, self'), w') ->
  exists cb, cost best (settings self) = Return cb
    /\ forall s, In s p ->
         exists cs, cost s (settings self) = Return cs /\ flt cs cb = false.
Proof.
  apply (find_best_solution_not_above_initial F fzero fadd fmul of_int flt
           flt_irrefl flt_asym flt_negtrans).
Qed.

End Order.

Section Signs.

(** Of zero, sums, products and conversions of floats: what holds of IEEE
    doubles, where no comparison with NaN is true. *)
Hypothesis zero_not_negative : not_negative fzero flt fzero.
Hypothesis add_not_negative :
  forall a b, not_negative fzero flt a -> not_negative fzero flt b ->
              not_negative fzero flt (fadd a b).
Hypothesis mul_not_negative :
  forall a b, not_negative fzero flt a -> not_negative fzero flt b ->
              not_negative fzero flt (fmul a b).
Hypothesis of_int_not_negative :
  forall z, 0 <= z -> not_negative fzero flt (of_int z).

(** X3.  With cost tables that hold no cost below zero, the cost of a
    solution without negative cell is not below zero. *)
Theorem cost_not_below_zero (s : Settings F) sol c :
  tables_not_negative fzero flt s -> nonneg (module_allocation sol) ->
  cost sol s = Return c -> not_negative fzero flt c.
Proof.
  apply (cost_not_negative F fzero fadd fmul of_int flt
           zero_not_negative add_not_negative mul_not_negative
           of_int_not_negative).
Qed.

End Signs.

End Floats.

(** ** The properties on the instances *)

Lemma cost_of_feasible_solution_defined_witness :
  well_formed two_rockets /\ tables_fit two_rockets
  /\ feasible_solution two_rockets lopsided
  /\ exists c, cost_of lopsided two_rockets = Return c.
Proof.
  split; [exact two_rockets_sound|]. split; [exact two_rockets_tables_fit|].
  split; [exact lopsided_sound|].
  exact (cost_of_feasible_solution_defined Z 0 Z.add Z.mul (fun z => z)
           two_rockets lopsided two_rockets_sound two_rockets_tables_fit
           lopsided_sound).
Defined.

Lemma cost_of_unknown_type_raises_witness :
  Exists (fun t => t < - Z.of_nat (nrows (additional_fuel_costs two_rockets))
                   \/ Z.of_nat (nrows (additional_fuel_costs two_rockets))
                      <= t)
         (rocket_type_allocation unknown_type)
  /\ cost_of unknown_type two_rockets = Raise IndexError.
Proof.
  assert (H : Exists
                (fun t =>
                   t < - Z.of_nat (nrows (additional_fuel_costs two_rockets))
                   \/ Z.of_nat (nrows (additional_fuel_costs two_rockets))
                      <= t)
                (rocket_type_allocation unknown_type)).
  { apply Exists_cons_tl, Exists_cons_hd. right. simpl. lia. }
  split; [exact H|].
  exact (cost_of_unknown_type_raises Z 0 Z.add Z.mul (fun z => z)
           two_rockets unknown_type H).
Defined.

Lemma cost_not_below_zero_witness :
  tables_not_negative 0 Z.ltb two_rockets
  /\ nonneg (module_allocation expensive)
  /\ cost_of expensive two_rockets = Return 200
  /\ not_negative 0 Z.ltb 200.
Proof.
  assert (N : nonneg (module_allocation expensive))
    by (repeat constructor; lia).
  assert (E : cost_of expensive two_rockets = Return 200) by reflexivity.
  split; [exact two_rockets_tables_not_negative|]. split; [exact N|].
  split; [exact E|].
  exact (cost_not_below_zero Z 0 Z.add Z.mul (fun z => z) Z.ltb
           eq_refl Zadd_not_negative Zmul_not_negative Zid_not_negative
           two_rockets expensive 200 two_rockets_tables_not_negative N E).
Defined.

Lemma generated_solution_feasible_witness :
  well_formed two_rockets
  /\ exists w',
       generate_random_solution 2 two_rockets (fresh_world zeros zeros)
       = (Return first_loaded, w')
       /\ feasible_solution two_rockets first_loaded.
Proof.
  set (w := fresh_world zeros zeros).
  assert (E : generate_random_solution 2 two_rockets w
              = (Return first_loaded,
                 snd (generate_random_solution 2 two_rockets w)))
    by (vm_compute; reflexivity).
  split; [exact two_rockets_sound|].
  exists (snd (generate_random_solution 2 two_rockets w)).
  split; [exact E|].
  exact (generated_solution_feasible Z 2%nat two_rockets w first_loaded _
           two_rockets_sound E).
Defined.

Lemma mutation_pass_keeps_feasibility_witness :
  well_formed (settings mutating_solver)
  /\ feasible_solution (settings mutating_solver) lopsided
  /\ exists w',
       mutate_solution mutating_solver
         (fresh_world zeros (one_at 4), lopsided)
       = (Return tt, (w', first_loaded))
       /\ feasible_solution (settings mutating_solver) first_loaded.
Proof.
  set (w := fresh_world zeros (one_at 4)).
  assert (E : mutate_solution mutating_solver (w, lopsided)
              = (Return tt,
                 (fst (snd (mutate_solution mutating_solver (w, lopsided))),
                  first_loaded)))
    by (vm_compute; reflexivity).
  split; [exact two_rockets_sound|]. split; [exact lopsided_sound|].
  exists (fst (snd (mutate_solution mutating_solver (w, lopsided)))).
  split; [exact E|].
  exact (mutation_pass_keeps_feasibility Z mutating_solver lopsided w tt _
           first_loaded two_rockets_sound lopsided_sound E).
Defined.

Lemma type_mutation_failure_atomic_witness :
  exists w',
    mutate_rockets_type_allocation mutating_solver
      (fresh_world zeros zeros, untyped)
    = (Raise IndexError, (w', untyped))
    /\ snd (w', untyped) = untyped.
Proof.
  set (w := fresh_world zeros zeros).
  assert (E : mutate_rockets_type_allocation mutating_solver (w, untyped)
              = (Raise IndexError,
                 (fst (snd (mutate_rockets_type_allocation mutating_solver
                              (w, untyped))), untyped)))
    by (vm_compute; reflexivity).
  exists (fst (snd (mutate_rockets_type_allocation mutating_solver
                      (w, untyped)))).
  split; [exact E|].
  exact (type_mutation_failure_atomic Z mutating_solver untyped w
           IndexError _ E).
Defined.

Lemma module_mutation_frame_witness :
  exists w' sol',
    mutate_modules_allocation mutating_solver
      (fresh_world zeros (one_at 1), lopsided)
    = (Return tt, (w', sol'))
    /\ module_allocation sol' = {| ncols := 1; rows := [[3]; [1]] |}
    /\ rocket_type_allocation sol' = rocket_type_allocation lopsided
    /\ (forall j', j' <> chosen_module_type (settings mutating_solver)
                           (fresh_world zeros (one_at 1)) ->
          column (module_allocation sol') j'
          = column (module_allocation lopsided) j')
    /\ py_drawn 4 (fresh_world zeros (one_at 1)) w'.
Proof.
  set (w := fresh_world zeros (one_at 1)).
  set (r := mutate_modules_allocation mutating_solver (w, lopsided)).
  assert (E : r = (Return tt, (fst (snd r), snd (snd r))))
    by (vm_compute; reflexivity).
  exists (fst (snd r)), (snd (snd r)).
  split; [exact E|]. split; [vm_compute; reflexivity|].
  exact (module_mutation_frame Z mutating_solver lopsided w tt _ _ E).
Defined.

Lemma best_neighbour_feasible_witness :
  well_formed (settings mutating_solver)
  /\ feasible_solution (settings mutating_solver) lopsided
  /\ exists w',
       best_neighbour_of mutating_solver lopsided 2
                         (fresh_world zeros (one_at 4))
       = (Return first_loaded, w')
       /\ feasible_solution (settings mutating_solver) first_loaded.
Proof.
  set (w := fresh_world zeros (one_at 4)).
  assert (E : best_neighbour_of mutating_solver lopsided 2 w
              = (Return first_loaded,
                 snd (best_neighbour_of mutating_solver lopsided 2 w)))
    by (vm_compute; reflexivity).
  split; [exact two_rockets_sound|]. split; [exact lopsided_sound|].
  exists (snd (best_neighbour_of mutating_solver lopsided 2 w)).
  split; [exact E|].
  exact (best_neighbour_feasible Z 0 Z.add Z.mul (fun z => z) Z.ltb
           mutating_solver lopsided 2 w first_loaded _
           two_rockets_sound lopsided_sound E).
Defined.

Lemma best_neighbour_first_cheapest_witness :
  exists w',
    best_neighbour_of mutating_solver lopsided 2
                      (fresh_world zeros (one_at 4))
    = (Return first_loaded, w')
    /\ exists neighbours pre post cb,
         map_m (in_place (mutate_solution mutating_solver))
               (map (fun _ => deepcopy lopsided) (range 0 2))
               (fresh_world zeros (one_at 4))
         = (Return neighbours, w')
         /\ neighbours ++ [lopsided] = pre ++ first_loaded :: post
         /\ cost_of first_loaded (settings mutating_solver) = Return cb
         /\ Forall (fun y => exists cy,
                      cost_of y (settings mutating_solver) = Return cy
                      /\ (cb <? cy) = true) pre
         /\ Forall (fun y => exists cy,
                      cost_of y (settings mutating_solver) = Return cy
                      /\ (cy <? cb) = false) post.
Proof.
  set (w := fresh_world zeros (one_at 4)).
  assert (E : best_neighbour_of mutating_solver lopsided 2 w
              = (Return first_loaded,
                 snd (best_neighbour_of mutating_solver lopsided 2 w)))
    by (vm_compute; reflexivity).
  exists (snd (best_neighbour_of mutating_solver lopsided 2 w)).
  split; [exact E|].
  exact (best_neighbour_first_cheapest Z 0 Z.add Z.mul (fun z => z) Z.ltb
           Z.ltb_irrefl Zlt_asym Zlt_negtrans
           mutating_solver lopsided 2 w first_loaded _ E).
Defined.

Lemma best_neighbour_of_none_witness :
  0 <= 0
  /\ best_neighbour_of mutating_solver lopsided 0 (fresh_world zeros zeros)
     = (Return lopsided, fresh_world zeros zeros).
Proof.
  split; [lia|].
  exact (best_neighbour_of_none Z 0 Z.add Z.mul (fun z => z) Z.ltb
           mutating_solver lopsided 0 (fresh_world zeros zeros)
           (Z.le_refl 0)).
Defined.

Lemma generation_keeps_population_sound_witness :
  well_formed (settings ranking_solver)
  /\ Forall (feasible_solution (settings ranking_solver))
            (population ranking_solver)
  /\ exists self' w',
       generation_of 2 ranking_solver (fresh_world zeros (one_at 4))
       = (Return self', w')
       /\ Forall (feasible_solution (settings ranking_solver))
                 (population self')
       /\ length (population self') = length (population ranking_solver)
       /\ same_parameters ranking_solver self'.
Proof.
  set (self := ranking_solver). set (w := fresh_world zeros (one_at 4)).
  assert (P : Forall (feasible_solution (settings self)) (population self))
    by (constructor; [exact expensive_sound|];
        constructor; [exact cheap_sound|constructor]).
  assert (E : generation_of 2 self w
              = (Return (returned self (generation_of 2 self w)),
                 snd (generation_of 2 self w)))
    by (vm_compute; reflexivity).
  split; [exact two_rockets_sound|]. split; [exact P|].
  exists (returned self (generation_of 2 self w)),
         (snd (generation_of 2 self w)).
  split; [exact E|].
  exact (generation_keeps_population_sound Z 0 Z.add Z.mul (fun z => z)
           Z.ltb 2%nat self w _ _ two_rockets_sound P E).
Defined.

Lemma generation_sites_not_worse_witness :
  exists self' w',
    ranking_of ranking_solver (population ranking_solver)
               (fresh_world zeros (one_at 4))
    = (Return [cheap; expensive], fresh_world zeros (one_at 4))
    /\ generation_of 2 ranking_solver (fresh_world zeros (one_at 4))
       = (Return self', w')
    /\ Forall2 (not_worse 0 Z.add Z.mul (fun z => z) Z.ltb
                          (settings ranking_solver))
         (firstn (Z.to_nat (elite_sites ranking_solver
                            + normal_sites ranking_solver))
                 [cheap; expensive])
         (firstn (Z.to_nat (elite_sites ranking_solver
                            + normal_sites ranking_solver))
                 (population self')).
Proof.
  set (self := ranking_solver). set (w := fresh_world zeros (one_at 4)).
  assert (S : ranking_of self (population self) w
              = (Return [cheap; expensive], w))
    by (vm_compute; reflexivity).
  assert (E : generation_of 2 self w
              = (Return (returned self (generation_of 2 self w)),
                 snd (generation_of 2 self w)))
    by (vm_compute; reflexivity).
  exists (returned self (generation_of 2 self w)),
         (snd (generation_of 2 self w)).
  split; [exact S|]. split; [exact E|].
  exact (generation_sites_not_worse Z 0 Z.add Z.mul (fun z => z) Z.ltb
           Z.ltb_irrefl Zlt_asym Zlt_negtrans
           2%nat self w _ _ _ _ S E).
Defined.

Lemma reported_cost_not_above_witness :
  1 <= elite_sites ranking_solver + normal_sites ranking_solver
  /\ exists self' w',
       generation_of 2 ranking_solver (fresh_world zeros (one_at 4))
       = (Return self', w')
       /\ reported_cost_of ranking_solver (fresh_world zeros zeros)
          = (Return 200, fresh_world zeros zeros)
       /\ exists c', (forall v, reported_cost_of self' v = (Return c', v))
                     /\ (200 <? c') = false.
Proof.
  set (self := ranking_solver). set (w := fresh_world zeros (one_at 4)).
  assert (Hs : 1 <= elite_sites self + normal_sites self)
    by (simpl; lia).
  assert (E : generation_of 2 self w
              = (Return (returned self (generation_of 2 self w)),
                 snd (generation_of 2 self w)))
    by (vm_compute; reflexivity).
  assert (C : reported_cost_of self (fresh_world zeros zeros)
              = (Return 200, fresh_world zeros zeros))
    by (vm_compute; reflexivity).
  split; [exact Hs|].
  exists (returned self (generation_of 2 self w)),
         (snd (generation_of 2 self w)).
  split; [exact E|]. split; [exact C|].
  exact (reported_cost_not_above Z 0 Z.add Z.mul (fun z => z) Z.ltb
           Z.ltb_irrefl Zlt_asym Zlt_negtrans
           2%nat self w _ _ _ 200 _ Hs E C).
Defined.

Lemma init_population_feasible_witness :
  well_formed (settings plain_solver) /\ feasible (settings plain_solver)
  /\ (enough_fuel (settings plain_solver) <= 2)%nat
  /\ exists self' w',
       init_population 2 plain_solver (fresh_world zeros zeros)
       = (Return self', w')
       /\ same_parameters plain_solver self'
       /\ length (population self')
          = Z.to_nat (population_size plain_solver)
       /\ Forall (feasible_solution (settings plain_solver))
                 (population self').
Proof.
  assert (Hf : (enough_fuel (settings plain_solver) <= 2)%nat)
    by (vm_compute; lia).
  split; [exact two_rockets_sound|]. split; [exact two_rockets_feasible|].
  split; [exact Hf|].
  exact (init_population_feasible Z 2%nat plain_solver
           (fresh_world zeros zeros)
           two_rockets_sound two_rockets_feasible Hf).
Defined.

Lemma run_returns_feasible_first_slot_witness :
  well_formed (settings plain_solver)
  /\ exists self' w',
       run_of 2 plain_solver 1 (fresh_world (ones_then_zeros 12) zeros)
       = (Return (expensive, self'), w')
       /\ nth_error (population self') 0 = Some expensive
       /\ feasible_solution (settings plain_solver) expensive
       /\ same_parameters plain_solver self'
       /\ length (population self')
          = Z.to_nat (population_size plain_solver)
       /\ Forall (feasible_solution (settings plain_solver))
                 (population self').
Proof.
  set (w := fresh_world (ones_then_zeros 12) zeros).
  set (r := run_of 2 plain_solver 1 w).
  assert (E : r = (Return (expensive,
                           snd (returned (expensive, plain_solver) r)),
                   snd r))
    by (vm_compute; reflexivity).
  split; [exact two_rockets_sound|].
  exists (snd (returned (expensive, plain_solver) r)), (snd r).
  split; [exact E|].
  exact (run_returns_feasible_first_slot Z 0 Z.add Z.mul (fun z => z) Z.ltb
           2%nat plain_solver 1 w expensive _ _ two_rockets_sound E).
Defined.

Lemma run_on_empty_population_raises_witness :
  population_size empty_solver <= 0
  /\ 0 <= elite_sites empty_solver /\ 0 <= normal_sites empty_solver
  /\ run_of 2 empty_solver 3 (fresh_world zeros zeros)
     = (Raise IndexError, fresh_world zeros zeros).
Proof.
  assert (H1 : population_size empty_solver <= 0) by (simpl; lia).
  assert (H2 : 0 <= elite_sites empty_solver) by (simpl; lia).
  assert (H3 : 0 <= normal_sites empty_solver) by (simpl; lia).
  split; [exact H1|]. split; [exact H2|]. split; [exact H3|].
  exact (run_on_empty_population_raises Z 0 Z.add Z.mul (fun z => z) Z.ltb
           2%nat empty_solver 3 (fresh_world zeros zeros) H1 H2 H3).
Defined.

Lemma generation_by_type_mutations_completes_witness :
  well_formed two_rockets /\ tables_fit two_rockets /\ feasible two_rockets
  /\ (enough_fuel two_rockets <= 2)%nat
  /\ modules_mutations
       (solver_on two_rockets [expensive; cheap] 2 0 1 1 0 2 0) <= 0
  /\ Forall (feasible_solution two_rockets) [expensive; cheap]
  /\ exists s' w',
       generation_of 2
         (solver_on two_rockets [expensive; cheap] 2 0 1 1 0 2 0)
         (fresh_world zeros counting)
       = (Return s', w').
Proof.
  set (s := solver_on two_rockets [expensive; cheap] 2 0 1 1 0 2 0).
  assert (Hf : (enough_fuel two_rockets <= 2)%nat) by (vm_compute; lia).
  assert (Hm : modules_mutations s <= 0) by (simpl; lia).
  assert (P : Forall (feasible_solution two_rockets) [expensive; cheap])
    by (constructor; [exact expensive_sound|];
        constructor; [exact cheap_sound|constructor]).
  split; [exact two_rockets_sound|]. split; [exact two_rockets_tables_fit|].
  split; [exact two_rockets_feasible|]. split; [exact Hf|].
  split; [exact Hm|]. split; [exact P|].
  apply (generation_by_type_mutations_completes Z 0 Z.add Z.mul
           (fun z => z) Z.ltb 2%nat s (fresh_world zeros counting)
           two_rockets_sound two_rockets_tables_fit two_rockets_feasible
           Hf Hm); simpl; try lia.
  exact P.
Defined.

Lemma run_by_type_mutations_returns_witness :
  well_formed (settings retyping_solver)
  /\ tables_fit (settings retyping_solver)
  /\ feasible (settings retyping_solver)
  /\ (enough_fuel (settings retyping_solver) <= 2)%nat
  /\ modules_mutations retyping_solver <= 0
  /\ elite_sites retyping_solver + normal_sites retyping_solver
     <= population_size retyping_solver
  /\ exists best self' w',
       run_of 2 retyping_solver 3 (fresh_world counting counting)
       = (Return (best, self'), w').
Proof.
  assert (Hf : (enough_fuel (settings retyping_solver) <= 2)%nat)
    by (vm_compute; lia).
  assert (Hm : modules_mutations retyping_solver <= 0) by (simpl; lia).
  assert (Hs : elite_sites retyping_solver + normal_sites retyping_solver
               <= population_size retyping_solver) by (simpl; lia).
  split; [exact two_rockets_sound|]. split; [exact two_rockets_tables_fit|].
  split; [exact two_rockets_feasible|]. split; [exact Hf|].
  split; [exact Hm|]. split; [exact Hs|].
  apply (run_by_type_mutations_returns Z 0 Z.add Z.mul (fun z => z) Z.ltb
           2%nat retyping_solver 3 (fresh_world counting counting)
           two_rockets_sound two_rockets_tables_fit two_rockets_feasible
           Hf Hm); simpl; lia.
Defined.

Lemma run_not_above_initial_population_witness :
  1 <= 1
  /\ 1 <= elite_sites plain_solver + normal_sites plain_solver
  /\ exists w0 self' w',
       population_of 2 plain_solver
                     (fresh_world (ones_then_zeros 12) zeros)
       = (Return [expensive; expensive], w0)
       /\ run_of 2 plain_solver 1 (fresh_world (ones_then_zeros 12) zeros)
          = (Return (expensive, self'), w')
       /\ exists cb, cost_of expensive (settings plain_solver) = Return cb
            /\ forall s, In s [expensive; expensive] ->
                 exists cs, cost_of s (settings plain_solver) = Return cs
                            /\ (cs <? cb) = false.
Proof.
  set (w := fresh_world (ones_then_zeros 12) zeros).
  set (r := run_of 2 plain_solver 1 w).
  assert (Hi : 1 <= 1) by lia.
  assert (Hs : 1 <= elite_sites plain_solver + normal_sites plain_solver)
    by (simpl; lia).
  assert (P : population_of 2 plain_solver w
              = (Return [expensive; expensive],
                 snd (population_of 2 plain_solver w)))
    by (vm_compute; reflexivity).
  assert (E : r = (Return (expensive,
                           snd (returned (expensive, plain_solver) r)),
                   snd r))
    by (vm_compute; reflexivity).
  split; [exact Hi|]. split; [exact Hs|].
  exists (snd (population_of 2 plain_solver w)),
         (snd (returned (expensive, plain_solver) r)), (snd r).
  split; [exact P|]. split; [exact E|].
  exact (run_not_above_initial_population Z 0 Z.add Z.mul (fun z => z)
           Z.ltb Z.ltb_irrefl Zlt_asym Zlt_negtrans
           2%nat plain_solver 1 w _ _ expensive _ _ Hi Hs P E).
Defined.

Lemma run_ignores_held_population_witness :
  same_parameters mutating_solver ranking_solver
  /\ run_of 2 mutating_solver 3 (fresh_world counting counting)
     = run_of 2 ranking_solver 3 (fresh_world counting counting).
Proof.
  assert (H : same_parameters mutating_solver ranking_solver)
    by (unfold same_parameters; simpl; repeat split; reflexivity).
  split; [exact H|].
  exact (run_ignores_held_population Z 0 Z.add Z.mul (fun z => z) Z.ltb
           2%nat mutating_solver ranking_solver 3
           (fresh_world counting counting) H).
Defined.

End Behaviour.
